(** * CTC beam search decoder (tensorflow/core/util/ctc/ctc_beam_search.h)

    A shallow embedding of [CTCBeamSearchDecoder]: the prefix tree of beam
    entries, the bounded best-N list of leaves, and the methods [Reset],
    [Step], [TopPaths] and [Decode], followed by the properties of the
    decoder that are proved about them.

    The hypothesis tree hangs off [beam_root_] in the C++ code, children
    being owned by their parent and pointing back to it.  Here the tree is
    an arena: a list of entries in which a [BeamEntry*] is an index, the
    root is entry 0, and [PopulateChildren] appends the new children.

    The second part of the definitions embeds the kernel registry of
    tensorflow/core/framework/op_kernel.cc (module [OpKernel]). *)

From Stdlib Require Import ZArith QArith Bool Lia Sorted.
From Stdlib.Floats Require Import SpecFloat.
From stdpp Require Import base list strings.

Local Open Scope Z_scope.

(** ** Arithmetic on log-probabilities

    The decoder computes on C++ [float]s, with the constant [kLogZero] and
    the function [LogSumExp] of ctc_loss_util.h.  The operations the
    decoder uses are collected in one interface, so that the methods are
    written once; the instances are IEEE binary32 ([Binary32], below) and
    exact arithmetic ([ExactLog]). *)

(** Modelled from the spec: ctc_loss_util.h is missing; [kLogZero] is the
    "negative infinity" sentinel and [LogSumExp a b] the numerically-stable
    log(exp a + exp b).  The other fields are the operations of C++ on
    [float] that the decoder uses. *)
Class LogArith := {
  float : Type;
  fadd : float → float → float;          (* a + b *)
  fsub : float → float → float;          (* a - b *)
  fneg : float → float;                  (* -a *)
  fgt : float → float → bool;            (* a > b *)
  fzero : float;                         (* 0.0 *)
  kLogZero : float;
  LogSumExp : float → float → float;
}.

(** What the proofs use of the arithmetic: [>] is asymmetric, and combining
    with the sentinel leaves the other operand unchanged. *)
Class LogArithLaws `{LogArith} := {
  fgt_asym : ∀ x y, fgt x y = true → fgt y x = false;
  LogSumExp_kLogZero_l : ∀ x, LogSumExp kLogZero x = x;
}.

(** An input row: one log-probability per class. *)
Definition Vector `{LogArith} := list float.

Section Vector.
Context `{LogArith}.

(** [input(i)]; labels of tree nodes are in range once [Step]'s size check
    has passed, out of range the value is arbitrary. *)
Definition coeff (input : Vector) (i : Z) : float :=
  if i <? 0 then fzero else nth (Z.to_nat i) input fzero.

(** [input.maxCoeff()]: a left-to-right scan keeping the greater value. *)
Definition maxCoeff (input : Vector) : float :=
  match input with
  | [] => fzero
  | x :: rest => foldl (λ m y, if fgt y m then y else m) x rest
  end.

(** [input -= input.maxCoeff()] *)
Definition remove_max (raw_input : Vector) : Vector :=
  let m := maxCoeff raw_input in
  map (λ x, fsub x m) raw_input.

(** [v + c], coefficient by coefficient. *)
Definition shift (v : Vector) (c : float) : Vector :=
  map (λ x, fadd x c) v.
End Vector.

(** ** Beam probabilities and beam entries (ctc_beam_entry.h) *)

Module BeamProbability.
(** Modelled from the spec: ctc_beam_entry.h is missing; a probability pair
    holds three log-probabilities and resets to the sentinel. *)
Record t `{LogArith} := mk { total : float; blank : float; label : float }.

Definition Reset `{LogArith} (p : t) : t := mk _ kLogZero kLogZero kLogZero.

(** The default-constructed pair. *)
Definition init `{LogArith} : t := mk _ kLogZero kLogZero kLogZero.
End BeamProbability.

(** Modelled from the spec: ctc_beam_entry.h is missing; a hypothesis node
    has a label, a back-reference to its parent ([None] for the root, whose
    pointer is null), lazily created children, the scorer's opaque state and
    the probability pairs of the previous and the current timestep. *)
Record BeamEntry `{LogArith} (CTCBeamState : Type) := mkBeamEntry {
  parent : option nat;
  label : Z;
  children : list nat;
  oldp : BeamProbability.t;
  newp : BeamProbability.t;
  state : CTCBeamState;
}.
Arguments mkBeamEntry {_ _} _ _ _ _ _ _.
Arguments parent {_ _} _.
Arguments label {_ _} _.
Arguments children {_ _} _.
Arguments oldp {_ _} _.
Arguments newp {_ _} _.
Arguments state {_ _} _.

Section BeamEntry.
Context `{LogArith} {CTCBeamState : Type}.
Implicit Types e : BeamEntry CTCBeamState.

Definition set_oldp e p :=
  mkBeamEntry (parent e) (label e) (children e) p (newp e) (state e).
Definition set_newp e p :=
  mkBeamEntry (parent e) (label e) (children e) (oldp e) p (state e).
Definition set_state e (s : CTCBeamState) :=
  mkBeamEntry (parent e) (label e) (children e) (oldp e) (newp e) s.
Definition set_children e cs :=
  mkBeamEntry (parent e) (label e) cs (oldp e) (newp e) (state e).

(** Modelled from the spec: a node is active iff [new.total] is greater
    than the negative-infinity sentinel. *)
Definition Active e : bool := fgt (BeamProbability.total (newp e)) kLogZero.

(** Modelled from the spec: a node has children once they have been
    instantiated. *)
Definition HasChildren e : bool :=
  match children e with [] => false | _ => true end.

(** Modelled from the spec: [label_sequence] walks the parent chain from
    the node to the root.  The walk starts at node [c], leaves the root out
    and returns the labels met, node first; [n] bounds the length of the
    chain ([LabelSeq_bound] below: the bound is not reached). *)
Fixpoint label_walk (nodes : list (BeamEntry CTCBeamState)) (merge_repeated : bool)
    (n : nat) (c : nat) (prev_label : Z) : list Z :=
  match n with
  | O => []
  | S n' =>
    match nodes !! c with
    | None => []
    | Some e =>
      match parent e with
      | None => []
      | Some p =>
        (if negb merge_repeated || negb (label e =? prev_label)
         then [label e] else [])
        ++ label_walk nodes merge_repeated n' p (label e)
      end
    end
  end.

(** Modelled from the spec: [LabelSeq] gives the labels in root-to-node
    order; with [merge_repeated] a label equal to the one of the node below
    it is left out. *)
Definition LabelSeq (nodes : list (BeamEntry CTCBeamState)) (c : nat)
    (merge_repeated : bool) : list Z :=
  rev (label_walk nodes merge_repeated (length nodes) c (-1)).
End BeamEntry.

(** ** The scorer (ctc_beam_scorer.h) *)

(** Modelled from the spec: ctc_beam_scorer.h is missing; the scorer
    initialises the root's state, produces a child's state, gives the score
    of an expansion from the previous probability, and an end-of-sequence
    adjustment.  [default_state] is the default-constructed state. *)
Class BeamScorer `{LogArith} (CTCBeamState : Type) := {
  default_state : CTCBeamState;
  InitializeState : CTCBeamState → CTCBeamState;
  ExpandState : CTCBeamState → Z → CTCBeamState → Z → CTCBeamState;
  ExpandStateEnd : CTCBeamState → CTCBeamState;
  GetStateExpansionScore : CTCBeamState → float → float;
  GetStateEndExpansionScore : CTCBeamState → float;
}.

(** ** The bounded best-N list (lib/gtl/top_n.h) *)

Module TopN.
(** Modelled from the spec: top_n.h is missing; the structure holds at
    most [limit] references, [push] inserts and evicts the minimum when the
    size exceeds the limit, [peek_bottom] returns the minimum and fails
    when empty, [Extract] returns the members in descending order.  The
    comparator reads the entries through the references, so every
    operation takes the comparison of the moment, [cmp a b] meaning that
    [a] ranks above [b]; among equal members the older one is the
    minimum. *)
Record t := mk { limit : nat; elements : list nat }.

Section Ops.
Context (cmp : nat → nat → bool).

(** Modelled from the spec: [size()]. *)
Definition size (q : t) : nat := length (elements q).

(** Modelled from the spec: [Reset()] clears the list, which is kept for
    reuse. *)
Definition Reset (q : t) : t := mk (limit q) [].

(** The minimum of [m :: l]: the candidate changes only for a member
    strictly below it. *)
Fixpoint bottom_of (m : nat) (l : list nat) : nat :=
  match l with
  | [] => m
  | x :: l' => bottom_of (if cmp m x then x else m) l'
  end.

(** Modelled from the spec: [peek_bottom()] returns the current minimum
    and fails ([None]) on an empty list. *)
Definition peek_bottom (q : t) : option nat :=
  match elements q with
  | [] => None
  | x :: l => Some (bottom_of x l)
  end.

(** [l] without the first occurrence of [x]. *)
Fixpoint remove_first (x : nat) (l : list nat) : list nat :=
  match l with
  | [] => []
  | y :: l' => if Nat.eqb x y then l' else y :: remove_first x l'
  end.

(** Modelled from the spec: [push(x)] inserts, and evicts the minimum if
    the size exceeds the limit. *)
Definition push (x : nat) (q : t) : t :=
  let es := elements q ++ [x] in
  if (limit q <? length es)%nat then
    match es with
    | [] => q
    | y :: l => mk (limit q) (remove_first (bottom_of y l) es)
    end
  else mk (limit q) es.

(** Insertion into a descending list, after the members that rank
    above [x]. *)
Fixpoint insert_desc (x : nat) (l : list nat) : list nat :=
  match l with
  | [] => [x]
  | y :: l' => if cmp y x then y :: insert_desc x l' else x :: y :: l'
  end.

(** Modelled from the spec: [Extract()] returns the members in descending
    order. *)
Definition Extract (q : t) : list nat :=
  foldr insert_desc [] (elements q).
End Ops.
End TopN.

(** ** The decoder *)

(** The [CHECK]s of the decoder; a failed [CHECK] aborts the call. *)
Inductive CheckFailure :=
  | CHECK_EQ_num_classes_input_size
  | CHECK_LE_n_beam_width
  | CHECK_LE_n_leaves_size
  | CHECK_EQ_top_n_size
  | CHECK_not_empty.

Inductive Outcome (A : Type) :=
  | Done (a : A)
  | Fatal (c : CheckFailure).
Arguments Done {_} _.
Arguments Fatal {_} _.

(** The fields of [CTCBeamSearchDecoder] (lines 113-117) and those of its
    base class [CTCDecoder], whose header ctc_decoder.h is missing: the
    number of classes, the batch size, the merge flag and the blank index,
    which is the last class.  [beam_root_] is the arena of the tree. *)
Record Decoder `{LogArith} (CTCBeamState : Type) := mkDecoder {
  num_classes_ : Z;
  batch_size_ : nat;
  merge_repeated_ : bool;
  blank_index_ : Z;
  beam_width_ : nat;
  leaves_ : TopN.t;
  beam_root_ : list (BeamEntry CTCBeamState);
}.
Arguments mkDecoder {_ _} _ _ _ _ _ _ _.
Arguments num_classes_ {_ _} _.
Arguments batch_size_ {_ _} _.
Arguments merge_repeated_ {_ _} _.
Arguments blank_index_ {_ _} _.
Arguments beam_width_ {_ _} _.
Arguments leaves_ {_ _} _.
Arguments beam_root_ {_ _} _.

Section Decoder.
Context `{LogArith} {CTCBeamState : Type} `{!BeamScorer CTCBeamState}.

Abbreviation Entry := (BeamEntry CTCBeamState).
Abbreviation Dec := (Decoder CTCBeamState).

Definition set_leaves (d : Dec) (q : TopN.t) : Dec :=
  mkDecoder (num_classes_ d) (batch_size_ d) (merge_repeated_ d)
    (blank_index_ d) (beam_width_ d) q (beam_root_ d).

Definition set_nodes (d : Dec) (nodes : list Entry) : Dec :=
  mkDecoder (num_classes_ d) (batch_size_ d) (merge_repeated_ d)
    (blank_index_ d) (beam_width_ d) (leaves_ d) nodes.

(** A method of the decoder: it runs on the decoder's state and either
    returns or stops at a failed [CHECK], in the state reached there. *)
Definition M (A : Type) : Type := Dec → Outcome A * Dec.

Definition ret {A} (a : A) : M A := λ d, (Done a, d).
Definition bind {A B} (m : M A) (f : A → M B) : M B := λ d,
  match m d with
  | (Done a, d') => f a d'
  | (Fatal c, d') => (Fatal c, d')
  end.

Notation "'let*' x ':=' m 'in' k" := (bind m (λ x, k))
  (at level 10, x pattern, m at level 100, k at level 200, only parsing).
Notation "m ';;' k" := (bind m (λ _, k))
  (at level 100, k at level 200, right associativity, only parsing).

Definition get : M Dec := λ d, (Done d, d).
Definition modify (f : Dec → Dec) : M unit := λ d, (Done tt, f d).
Definition fatal {A} (c : CheckFailure) : M A := λ d, (Fatal c, d).
Definition CHECK (b : bool) (c : CheckFailure) : M unit :=
  if b then ret tt else fatal c.

Fixpoint for_each {A} (f : A → M unit) (l : list A) : M unit :=
  match l with
  | [] => ret tt
  | x :: l' => f x ;; for_each f l'
  end.

(** Modelled from the spec: [BeamComparer] orders the beam by
    [newp.total]; [a] ranks above [b] when [a->newp.total > b->newp.total]. *)
Definition key (nodes : list Entry) (a : nat) : float :=
  match nodes !! a with
  | Some e => BeamProbability.total (newp e)
  | None => kLogZero
  end.
Definition BeamComparer (nodes : list Entry) (a b : nat) : bool :=
  fgt (key nodes a) (key nodes b).

(** [e->field = ...] through a pointer [b] into the tree. *)
Definition update_node (b : nat) (f : Entry → Entry) (d : Dec) : Dec :=
  set_nodes d (alter f b (beam_root_ d)).

(** [leaves_.push(b)] *)
Definition push_leaf (b : nat) (d : Dec) : Dec :=
  set_leaves d (TopN.push (BeamComparer (beam_root_ d)) b (leaves_ d)).

(** [leaves_.peek_bottom()] *)
Definition peek_bottom : M nat := λ d,
  match TopN.peek_bottom (BeamComparer (beam_root_ d)) (leaves_ d) with
  | Some b => (Done b, d)
  | None => (Fatal CHECK_not_empty, d)
  end.

(** [leaves_.Extract()] followed by [leaves_.Reset()] *)
Definition extract_leaves : M (list nat) := λ d,
  (Done (TopN.Extract (BeamComparer (beam_root_ d)) (leaves_ d)),
   set_leaves d (TopN.Reset (leaves_ d))).

(** Modelled from the spec: a child as [instantiate_children] makes it,
    with the label [ci], both probability pairs reset and the parent [b]. *)
Definition new_child (b : nat) (ci : nat) : Entry :=
  mkBeamEntry (Some b) (Z.of_nat ci) [] BeamProbability.init
    BeamProbability.init default_state.

(** Modelled from the spec: [b->PopulateChildren(L)] allocates one child
    per label below [L]; [L] is [num_classes_ - 1], which is not negative
    for a decoder with at least the blank class. *)
Definition PopulateChildren (b : nat) (L : Z) (d : Dec) : Dec :=
  let n := length (beam_root_ d) in
  let L' := Z.to_nat L in
  let nodes := beam_root_ d ++ map (new_child b) (seq 0 L') in
  set_nodes d (alter (λ e, set_children e (seq n L')) b nodes).

(** *** Step *)

(** Lines 179-182: [b->oldp = b->newp]. *)
Definition shift_probabilities (b : nat) : Dec → Dec :=
  update_node b (λ e, set_oldp e (newp e)).

(** Lines 185-201: the new [newp.label] of entry [e], read in the tree
    [nodes]. *)
Definition updated_label (nodes : list Entry) (input : Vector) (e : Entry)
    : float :=
  match parent e with
  | None => BeamProbability.label (newp e)
  | Some p =>
    let l :=
      match nodes !! p with
      | Some pe =>
        if Active pe then
          let previous :=
            if label e =? label pe then BeamProbability.blank (oldp pe)
            else BeamProbability.total (oldp pe) in
          LogSumExp (BeamProbability.label (newp e))
            (GetStateExpansionScore (state e) previous)
        else BeamProbability.label (newp e)
      | None => BeamProbability.label (newp e)
      end in
    fadd l (coeff input (label e))
  end.

(** Lines 202-205: the new probabilities of entry [e]. *)
Definition updated_newp (nodes : list Entry) (input : Vector) (blank_index : Z)
    (e : Entry) : BeamProbability.t :=
  let l := updated_label nodes input e in
  let bl := fadd (BeamProbability.total (oldp e)) (coeff input blank_index) in
  BeamProbability.mk _ (LogSumExp bl l) bl l.

(** Lines 184-210: the body of the second loop, for one entry [b]. *)
Definition update_branch (input : Vector) (b : nat) (d : Dec) : Dec :=
  push_leaf b
    (update_node b
       (λ e, set_newp e (updated_newp (beam_root_ d) input (blank_index_ d) e))
       d).

(** Lines 223-227: the admission test. *)
Definition is_candidate (prob : BeamProbability.t) : M bool :=
  let* d := get in
  if fgt (BeamProbability.total prob) kLogZero then
    if (TopN.size (leaves_ d) <? beam_width_ d)%nat then ret true
    else
      let* bottom := peek_bottom in
      ret (fgt (BeamProbability.total prob) (key (beam_root_ d) bottom))
  else ret false.

(** Lines 238-265: the body of the loop over the children of [b], for one
    child [c]. *)
Definition grow_child (input : Vector) (b c : nat) : M unit :=
  let* d := get in
  match beam_root_ d !! b, beam_root_ d !! c with
  | Some be, Some ce =>
    if Active ce then ret tt
    else
      let st := ExpandState (state be) (label be) (state ce) (label ce) in
      let previous :=
        if label ce =? label be then BeamProbability.blank (oldp be)
        else BeamProbability.total (oldp be) in
      let l := fadd (coeff input (label ce))
                 (GetStateExpansionScore st previous) in
      let p := BeamProbability.mk _ l kLogZero l in
      modify (update_node c (λ e, set_newp (set_state e st) p)) ;;
      let* cand := is_candidate p in
      if cand then
        let* bottom := peek_bottom in
        modify (push_leaf c) ;;
        let* d' := get in
        if (TopN.size (leaves_ d') =? beam_width_ d')%nat then
          modify (update_node bottom
                    (λ e, set_newp e (BeamProbability.Reset (newp e))))
        else ret tt
      else
        modify (update_node c (λ e,
          set_newp (set_oldp e (BeamProbability.Reset (oldp e)))
                   (BeamProbability.Reset (newp e))))
  | _, _ => ret tt
  end.

(** Lines 218-267: the body of the third loop, for one entry [b]. *)
Definition grow_branch (input : Vector) (b : nat) : M unit :=
  let* d := get in
  match beam_root_ d !! b with
  | None => ret tt
  | Some be =>
    let* cand := is_candidate (oldp be) in
    if cand then
      (if HasChildren be then ret tt
       else modify (PopulateChildren b (num_classes_ d - 1))) ;;
      let* d' := get in
      match beam_root_ d' !! b with
      | Some be' => for_each (grow_child input b) (children be')
      | None => ret tt
      end
    else ret tt
  end.

Definition Step (raw_input : Vector) : M unit :=
  let input := remove_max raw_input in
  let* d := get in
  CHECK (num_classes_ d =? Z.of_nat (length input))
    CHECK_EQ_num_classes_input_size ;;
  let* branches := extract_leaves in
  modify (λ d, foldl (λ d b, shift_probabilities b d) d branches) ;;
  modify (λ d, foldl (λ d b, update_branch input b d) d branches) ;;
  for_each (grow_branch input) branches.

(** *** Reset *)

Definition Reset : M unit :=
  modify (λ d, set_leaves d (TopN.Reset (leaves_ d))) ;;
  (* beam_root_.reset(new BeamEntry(nullptr, -1, num_classes_ - 1, -1)) *)
  modify (λ d, set_nodes d
    [mkBeamEntry None (-1) [] BeamProbability.init BeamProbability.init
       default_state]) ;;
  modify (update_node 0 (λ e, set_newp e
    (BeamProbability.mk _ fzero (BeamProbability.blank (newp e))
       (BeamProbability.label (newp e))))) ;;
  modify (update_node 0 (λ e, set_newp e
    (BeamProbability.mk _ (BeamProbability.total (newp e)) fzero
       (BeamProbability.label (newp e))))) ;;
  modify (push_leaf 0) ;;
  modify (update_node 0 (λ e, set_state e (InitializeState (state e)))).

(** *** TopPaths *)

Definition TopPaths (n : nat) (merge_repeated : bool)
    : M (list (list Z) * list float) :=
  let* d := get in
  CHECK (n <=? beam_width_ d)%nat CHECK_LE_n_beam_width ;;
  CHECK (n <=? TopN.size (leaves_ d))%nat CHECK_LE_n_leaves_size ;;
  let cmp := BeamComparer (beam_root_ d) in
  let top_branches :=
    foldl (λ q b, TopN.push cmp b q) (TopN.mk n []) (TopN.elements (leaves_ d)) in
  let branches := take n (TopN.Extract cmp top_branches) in
  ret (map (λ e, LabelSeq (beam_root_ d) e merge_repeated) branches,
        map (key (beam_root_ d)) branches).

(** *** Decode *)

(** Lines 142-150: the end-of-sequence adjustment of one leaf. *)
Definition finish_branch (b : nat) (d : Dec) : Dec :=
  let d1 := update_node b (λ e, set_state e (ExpandStateEnd (state e))) d in
  let d2 := update_node b (λ e, set_newp e
    (BeamProbability.mk _
       (fadd (BeamProbability.total (newp e))
             (GetStateEndExpansionScore (state e)))
       (BeamProbability.blank (newp e))
       (BeamProbability.label (newp e)))) d1 in
  push_leaf b d2.

(** One round of the loop over the batch: sequence [b] of length
    [seq_len_b], whose rows are [rows] (timestep [t] at index [t]); returns
    the [top_n] paths with their scores. *)
Definition decode_sequence (seq_len_b : nat) (rows : list Vector) (top_n : nat)
    : M (list (list Z * float)) :=
  Reset ;;
  for_each (λ t, Step (nth t rows [])) (seq 0 seq_len_b) ;;
  let* branches := extract_leaves in
  modify (λ d, foldl (λ d b, finish_branch b d) d branches) ;;
  let* d := get in
  let* (beams, beam_log_probabilities) :=
    TopPaths top_n (merge_repeated_ d) in
  CHECK (top_n =? length beam_log_probabilities)%nat CHECK_EQ_top_n_size ;;
  CHECK (length beams =? length beam_log_probabilities)%nat CHECK_EQ_top_n_size ;;
  ret (zip beams (map fneg beam_log_probabilities)).

(** [Decode]: [input] has one matrix per timestep, a matrix one row per
    sequence of the batch; the result has, for every sequence of the batch,
    its [top_n] label sequences and scores. *)
Fixpoint decode_batch (seq_len : list nat) (input : list (list Vector))
    (top_n : nat) (bs : list nat) : M (list (list (list Z * float))) :=
  match bs with
  | [] => ret []
  | b :: bs' =>
    let* out :=
      decode_sequence (nth b seq_len O) (map (λ m, nth b m []) input) top_n in
    let* outs := decode_batch seq_len input top_n bs' in
    ret (out :: outs)
  end.

Definition Decode (seq_len : list nat) (input : list (list Vector))
    (top_n : nat) : M (list (list (list Z * float))) :=
  let* d := get in
  decode_batch seq_len input top_n (seq 0 (batch_size_ d)).

(** The constructors. *)
Definition CTCBeamSearchDecoder4 (num_classes : Z) (beam_width : nat)
    (batch_size : nat) (merge_repeated : bool) : Dec :=
  mkDecoder num_classes batch_size merge_repeated (num_classes - 1)
    beam_width (TopN.mk beam_width []) [].

Definition CTCBeamSearchDecoder2 (num_classes : Z) (beam_width : nat) : Dec :=
  (Reset (CTCBeamSearchDecoder4 num_classes beam_width 1 false)).2.
End Decoder.

(** ** Instances *)

(** IEEE binary32, the C++ [float]: 24 bits of precision, exponents up to
    128.  [kLogZero] is minus infinity; [LogSumExp] needs [log1pf] and
    [expf], which are outside the model, and stays a parameter. *)
Definition Binary32 (lse : spec_float → spec_float → spec_float) : LogArith := {|
  float := spec_float;
  fadd := SFadd 24 128;
  fsub := SFsub 24 128;
  fneg := SFopp;
  fgt := λ a b, SFltb b a;
  fzero := S754_zero false;
  kLogZero := S754_infinity true;
  LogSumExp := lse;
|}.

(** Exact arithmetic.  A log-probability [x] is stored as the rational
    [exp x], in lowest terms: the sentinel minus infinity is [0], the
    log-probability [0] is [1], a sum of logarithms is a product, a
    difference a quotient, the opposite an inverse, [x > y] the order of
    the rationals, and [LogSumExp] is the sum, which leaves the other
    operand as it is when one is the sentinel.  Plus infinity is not
    stored: the opposite of the sentinel is the sentinel. *)
Definition ExactLog : LogArith := {|
  float := Q;
  fadd := λ a b, Qred (a * b);
  fsub := λ a b, Qred (a / b);
  fneg := λ a, Qred (/ a);
  fgt := λ a b, negb (Qle_bool a b);
  fzero := 1%Q;
  kLogZero := 0%Q;
  LogSumExp := λ a b,
    if Qeq_bool a 0 then b else if Qeq_bool b 0 then a else Qred (a + b);
|}.

(** Modelled from the spec: ctc_beam_scorer.h is missing; the no-op scorer
    of the default template arguments keeps no state and adds zero
    everywhere: the score of an expansion is the previous probability. *)
Definition BaseBeamScorer `{LogArith} : BeamScorer unit := {|
  default_state := tt;
  InitializeState := λ s, s;
  ExpandState := λ _ _ s _, s;
  ExpandStateEnd := λ s, s;
  GetStateExpansionScore := λ _ previous_score, previous_score;
  GetStateEndExpansionScore := λ _, fzero;
|}.

(** ** Properties of decoder states *)

Section Properties.
Context `{LogArith} {CTCBeamState : Type}.

Abbreviation Entry := (BeamEntry CTCBeamState).
Abbreviation Dec := (Decoder CTCBeamState).

(** The best-N list was built with the decoder's beam width and holds at
    most that many leaves. *)
Definition beam_bounded (d : Dec) : Prop :=
  TopN.limit (leaves_ d) = beam_width_ d ∧
  (TopN.size (leaves_ d) ≤ beam_width_ d)%nat.

(** Every active node of the tree is referenced by the beam. *)
Definition active_in_beam (d : Dec) : Prop :=
  ∀ i e, beam_root_ d !! i = Some e → Active e = true →
    i ∈ TopN.elements (leaves_ d).

(** Every node the beam references is active. *)
Definition beam_active (d : Dec) : Prop :=
  ∀ i, i ∈ TopN.elements (leaves_ d) →
    ∃ e, beam_root_ d !! i = Some e ∧ Active e = true.

(** [new.total] is the log-sum of [new.blank] and [new.label]. *)
Definition total_combined (e : Entry) : Prop :=
  BeamProbability.total (newp e) =
  LogSumExp (BeamProbability.blank (newp e)) (BeamProbability.label (newp e)).

(** [new.blank] is [old.total] plus the blank log-probability of the
    timestep. *)
Definition blank_continued (input : Vector) (blank_index : Z) (e : Entry)
    : Prop :=
  BeamProbability.blank (newp e) =
  fadd (BeamProbability.total (oldp e)) (coeff input blank_index).

(** No value of the list is exceeded by the next one. *)
Definition descending (l : list float) : Prop :=
  ∀ i x y, l !! i = Some x → l !! S i = Some y → fgt y x = false.

(** Adding [c] to the coefficients of [v] loses nothing: differences and
    comparisons of coefficients are the same before and after. *)
Definition shift_exact (v : Vector) (c : float) : Prop :=
  ∀ x y, x ∈ v → y ∈ v →
    fsub (fadd x c) (fadd y c) = fsub x y ∧
    fgt (fadd x c) (fadd y c) = fgt x y.

(** The tree is laid out parents first: every node comes after its
    parent. *)
Definition tree_ordered (nodes : list Entry) : Prop :=
  ∀ i e p, nodes !! i = Some e → parent e = Some p → (p < i)%nat.

(** The probabilities of node [i] after a [Step] on [input] whose beam held
    [branches] at the start: the total is combined, and the blank part either
    continues the old total, for a node of [branches], or is the sentinel,
    for a child admitted in this [Step]. *)
Definition stepped (input : Vector) (blank_index : Z) (branches : list nat)
    (i : nat) (e : Entry) : Prop :=
  total_combined e ∧
  ((i ∈ branches ∧ blank_continued input blank_index e) ∨
   BeamProbability.blank (newp e) = kLogZero).

(** The admission test of [Step] (lines 223-227) on a beam that is not
    empty, as a boolean. *)
Definition admissible (prob : BeamProbability.t) (d : Dec) : bool :=
  fgt (BeamProbability.total prob) kLogZero &&
  ((TopN.size (leaves_ d) <? beam_width_ d)%nat ||
   match TopN.peek_bottom (BeamComparer (beam_root_ d)) (leaves_ d) with
   | Some bottom => fgt (BeamProbability.total prob) (key (beam_root_ d) bottom)
   | None => false
   end).

(** The beam is bounded and not empty: what the third loop of [Step] needs
    of the beam in order to run. *)
Definition beam_ready (d : Dec) : Prop :=
  beam_bounded d ∧ TopN.elements (leaves_ d) ≠ [].

(** What the third loop of [Step] keeps of the nodes: the active ones are
    in the beam and have the probabilities of this [Step]. *)
Definition growing (input : Vector) (blank_index : Z) (branches : list nat)
    (d : Dec) : Prop :=
  ∀ i e, beam_root_ d !! i = Some e → Active e = true →
    i ∈ TopN.elements (leaves_ d) ∧ stepped input blank_index branches i e.

(** Total correctness of a method: from a state satisfying [P] it returns,
    with a result and a state satisfying [Q]. *)
Definition returns {A} (P : Dec → Prop) (m : M A) (Q : A → Dec → Prop) : Prop :=
  ∀ d, P d → ∃ a d', m d = (Done a, d') ∧ Q a d'.
End Properties.

(** The states of a decoder in use: [Reset] of a decoder built with a
    positive beam width, then any number of [Step]s. *)
Inductive reachable `{LogArith} {CTCBeamState : Type}
    `{!BeamScorer CTCBeamState} : Decoder CTCBeamState → Prop :=
  | reachable_Reset d d' :
      TopN.limit (leaves_ d) = beam_width_ d →
      (0 < beam_width_ d)%nat →
      Reset d = (Done tt, d') →
      reachable d'
  | reachable_Step raw_input d d' :
      reachable d →
      Step raw_input d = (Done tt, d') →
      reachable d'.

(** ** Examples

    The examples run the decoder of the default template arguments (no
    scorer state, the no-op scorer) on exact arithmetic: an input
    coefficient written [3 # 10] is the log-probability of 0.3. *)

Module GravesExample.
(** The example of the header comment (lines 42-50), columns a and blank:
    P(l = empty) = 0.42 and P(l = a) = 0.58. *)
Definition P0 : @Vector ExactLog := [3 # 10; 7 # 10]%Q.
Definition P1 : @Vector ExactLog := [4 # 10; 6 # 10]%Q.

Definition decoder (beam_width : nat) : @Decoder ExactLog unit :=
  @CTCBeamSearchDecoder4 ExactLog unit 2 beam_width 1 false.

(** [Reset], the two [Step]s, and the two best paths with their
    log-probabilities. *)
Definition top_paths (beam_width : nat)
    : Outcome (list (list Z) * list Q) :=
  (bind (@Reset ExactLog unit BaseBeamScorer) (λ _,
   bind (@Step ExactLog unit BaseBeamScorer P0) (λ _,
   bind (@Step ExactLog unit BaseBeamScorer P1) (λ _,
   @TopPaths ExactLog unit 2 false))) (decoder beam_width)).1.

(** The same through [Decode], on a batch of one sequence of length 2. *)
Definition decoded (beam_width : nat)
    : Outcome (list (list (list Z * Q))) :=
  (@Decode ExactLog unit BaseBeamScorer [2%nat] [[P0]; [P1]] 2
     (decoder beam_width)).1.

(** The decoder after [Reset] and one [Step]. *)
Definition after_first_step (beam_width : nat) : @Decoder ExactLog unit :=
  (bind (@Reset ExactLog unit BaseBeamScorer) (λ _,
   @Step ExactLog unit BaseBeamScorer P0) (decoder beam_width)).2.

(** The decoder in the second [Step], between the first and the second
    loop, with the branches extracted from the beam. *)
Definition in_second_step : @Decoder ExactLog unit :=
  let d := after_first_step 3 in
  foldl (λ d b, shift_probabilities b d)
    (set_leaves d (TopN.Reset (leaves_ d)))
    (TopN.Extract (BeamComparer (beam_root_ d)) (leaves_ d)).
End GravesExample.

Module ReadmissionExample.
(** Three classes (labels 0 and 1, blank 2) and a beam of width 2: the
    node of the sequence [0, 1] enters the beam in the second [Step], is
    evicted in the third and admitted again in the fourth. *)
Definition rows : list (@Vector ExactLog) :=
  [[10 # 12; 1 # 12; 1 # 12];
   [1 # 3; 2 # 3; 0];
   [100 # 111; 1 # 111; 10 # 111];
   [1 # 102; 100 # 102; 1 # 102]]%Q.

Definition step (t : nat) (d : @Decoder ExactLog unit) : @Decoder ExactLog unit :=
  (@Step ExactLog unit BaseBeamScorer (nth t rows []) d).2.

Definition d0 : @Decoder ExactLog unit :=
  (@Reset ExactLog unit BaseBeamScorer
     (@CTCBeamSearchDecoder4 ExactLog unit 3 2 1 false)).2.
Definition d1 := step 0 d0.
Definition d2 := step 1 d1.
Definition d3 := step 2 d2.
End ReadmissionExample.

Module RoundingExample.
(** On binary32, whatever [LogSumExp] is: the input [0, -1] and the
    constant 2^25; the sum -1 + 2^25 is rounded to 2^25. *)
Definition v (lse : spec_float → spec_float → spec_float)
    : @Vector (Binary32 lse) :=
  [S754_zero false; S754_finite true 8388608 (-23)].
Definition c (lse : spec_float → spec_float → spec_float)
    : @float (Binary32 lse) :=
  S754_finite false 8388608 2.

Definition decoder (lse : spec_float → spec_float → spec_float)
    : @Decoder (Binary32 lse) unit :=
  @CTCBeamSearchDecoder2 (Binary32 lse) unit BaseBeamScorer 2 4.
End RoundingExample.

(** ** More properties of decoder states *)

Section MoreProperties.
Context `{LogArith} {CTCBeamState : Type}.

Abbreviation Entry := (BeamEntry CTCBeamState).
Abbreviation Dec := (Decoder CTCBeamState).

(** The fields that the constructor sets, and the limit of the best-N
    list, are the same in [d] and [d']. *)
Definition same_config (d d' : Dec) : Prop :=
  num_classes_ d' = num_classes_ d ∧ batch_size_ d' = batch_size_ d ∧
  merge_repeated_ d' = merge_repeated_ d ∧ blank_index_ d' = blank_index_ d ∧
  beam_width_ d' = beam_width_ d ∧
  TopN.limit (leaves_ d') = TopN.limit (leaves_ d).

(** An assignment to a node that leaves its place in the tree alone: the
    parent, the label and the children. *)
Definition keeps_shape (f : Entry → Entry) : Prop :=
  ∀ e, parent (f e) = parent e ∧ label (f e) = label e ∧
       children (f e) = children e.

(** [nodes'] has every node of [nodes], at the same place, with the same
    parent and label, and with the same children once it has some. *)
Definition tree_extends (nodes nodes' : list Entry) : Prop :=
  ∀ i e, nodes !! i = Some e →
    ∃ e', nodes' !! i = Some e' ∧ parent e' = parent e ∧ label e' = label e ∧
      (children e ≠ [] → children e' = children e).

(** Every node but the root carries a label below the blank: a class of
    the input row. *)
Definition labels_in_range (d : Dec) : Prop :=
  ∀ i e p, beam_root_ d !! i = Some e → parent e = Some p →
    0 ≤ label e < num_classes_ d - 1.

(** Every reference held by the beam points to a node of the tree. *)
Definition beam_valid (d : Dec) : Prop :=
  ∀ i, i ∈ TopN.elements (leaves_ d) → (i < length (beam_root_ d))%nat.

(** No node is more than [k] edges away from the root. *)
Definition depth_le (k : nat) (nodes : list Entry) : Prop :=
  ∀ c, (length (label_walk nodes false (length nodes) c (-1)) ≤ k)%nat.
End MoreProperties.

Module EvictionExample.
(** Two classes (the label 0 and the blank 1) and a beam of width 1; the
    label is the more likely one in the row. *)
Definition row : @Vector ExactLog := [7 # 10; 3 # 10]%Q.

(** The decoder in the first [Step], on [row], when the third loop comes
    to the children of the root: the first two loops have run and the
    children of the root have been created.  The beam is full, with the
    root. *)
Definition before_child : @Decoder ExactLog unit :=
  let d := (@Reset ExactLog unit BaseBeamScorer
              (@CTCBeamSearchDecoder4 ExactLog unit 2 1 1 false)).2 in
  let branches := TopN.Extract (BeamComparer (beam_root_ d)) (leaves_ d) in
  let d2 :=
    foldl (λ d b, @update_branch ExactLog unit BaseBeamScorer
                    (@remove_max ExactLog row) b d)
      (foldl (λ d b, shift_probabilities b d)
         (set_leaves d (TopN.Reset (leaves_ d))) branches)
      branches in
  @PopulateChildren ExactLog unit BaseBeamScorer 0 (num_classes_ d2 - 1) d2.
End EvictionExample.

(** ** The two cases of an active node after a [Step] *)

Section StepCases.
Context `{LogArith} {CTCBeamState : Type} `{!BeamScorer CTCBeamState}.

Abbreviation Entry := (BeamEntry CTCBeamState).
Abbreviation Dec := (Decoder CTCBeamState).






End StepCases.

Module ThreeCasesExample.
(** Three classes (labels 0 and 1, blank 2) and a beam of width 3: in the
    third [Step] the node of the sequence [1] (node 2) continues, the node
    of the sequence [0] (node 1), which left the beam in the second [Step],
    is admitted again, and the node of the sequence [1, 0] (node 5) is
    created and admitted. *)
Definition rows : list (@Vector ExactLog) :=
  [[1 # 3; 0; 1 # 2]; [0; 1 # 6; 1 # 3]; [1; 1 # 2; 1 # 6]]%Q.

Definition step (t : nat) (d : @Decoder ExactLog unit) : @Decoder ExactLog unit :=
  (@Step ExactLog unit BaseBeamScorer (nth t rows []) d).2.

Definition d0 : @Decoder ExactLog unit :=
  (@Reset ExactLog unit BaseBeamScorer
     (@CTCBeamSearchDecoder4 ExactLog unit 3 3 1 false)).2.
Definition d1 := step 0 d0.
Definition d2 := step 1 d1.
Definition d3 := step 2 d2.
End ThreeCasesExample.

Section Ranking.
Context `{LogArith} {CTCBeamState : Type}.

(** On the [newp.total]s of the leaves of the beam, the complement of [>]
    is transitive: the leaves can be ranked.  On floats it is so when none
    of these totals is NaN. *)
Definition keys_ranked (d : Decoder CTCBeamState) : Prop :=
  ∀ x y z,
    x ∈ TopN.elements (leaves_ d) → y ∈ TopN.elements (leaves_ d) →
    z ∈ TopN.elements (leaves_ d) →
    fgt (key (beam_root_ d) x) (key (beam_root_ d) y) = false →
    fgt (key (beam_root_ d) y) (key (beam_root_ d) z) = false →
    fgt (key (beam_root_ d) x) (key (beam_root_ d) z) = false.
End Ranking.

(** The place of a float that is not NaN in the order of [SFcompare]: the
    sign first (minus infinity, negative, zero, positive, plus infinity),
    then the exponent and the mantissa, both reversed on negative floats. *)
Definition float_rank (x : spec_float) : Z * Z * Z :=
  match x with
  | S754_infinity true => (-2, 0, 0)
  | S754_finite true m e => (-1, - e, - Z.pos m)
  | S754_zero _ | S754_nan => (0, 0, 0)
  | S754_finite false m e => (1, e, Z.pos m)
  | S754_infinity false => (2, 0, 0)
  end.

Definition rank_lt (a b : Z * Z * Z) : Prop :=
  a.1.1 < b.1.1 ∨
  (a.1.1 = b.1.1 ∧ (a.1.2 < b.1.2 ∨ (a.1.2 = b.1.2 ∧ a.2 < b.2))).

Module FloatExample.
(** On binary32, with the greater of the two operands in the place of
    [LogSumExp] (and the second when the first is minus infinity): three
    classes (labels 0 and 1, blank 2), a beam of width 4, and one [Step] on
    the log-probabilities -1, -2 and 0. *)
Definition lse (a b : spec_float) : spec_float :=
  match a with
  | S754_infinity true => b
  | _ => if SFltb a b then b else a
  end.

Definition row : @Vector (Binary32 lse) :=
  [S754_finite true 8388608 (-23); S754_finite true 8388608 (-22);
   S754_zero false].

Definition after_step : @Decoder (Binary32 lse) unit :=
  (bind (@Reset (Binary32 lse) unit BaseBeamScorer) (λ _,
   @Step (Binary32 lse) unit BaseBeamScorer row)
     (@CTCBeamSearchDecoder4 (Binary32 lse) unit 3 4 1 false)).2.
End FloatExample.

(** * Kernel registration (tensorflow/core/framework/op_kernel.cc)

    The functions of op_kernel.cc that match a signature, register a kernel
    and look one up.  The kernel registry, a global
    [std::unordered_multimap] from keys to registrations, is passed to the
    functions that read it and returned by the one that extends it. *)

Module OpKernel.

(** [DataType] is an enumeration of types.proto; the code compares a
    [DataType] with the [int]s of a type list, a value is an integer. *)
Definition DataType := Z.

(** [Status]: OK, or an error code with its message; the codes are the
    ones of the errors that op_kernel.cc builds. *)
Inductive Code := INVALID_ARGUMENT | NOT_FOUND | UNIMPLEMENTED.

Inductive Status :=
  | OK
  | Error (code : Code) (message : string).

Definition ok (s : Status) : bool :=
  match s with OK => true | Error _ _ => false end.

(** [errors::InvalidArgument(...)] and the like concatenate their
    arguments into the message. *)
Definition InvalidArgument (args : list string) : Status :=
  Error INVALID_ARGUMENT (foldr String.append "" args).
Definition NotFound (args : list string) : Status :=
  Error NOT_FOUND (foldr String.append "" args).
Definition Unimplemented (args : list string) : Status :=
  Error UNIMPLEMENTED (foldr String.append "" args).

(** What op_kernel.cc uses of the protocol buffers and of the helpers of
    other files (types.h, attr_value_util.h, node_def_util.h, op.h), whose
    sources are missing: the types are parameters, with the accessors and
    the functions that the code calls. *)
Class Framework := {
  (* types.h *)
  DT_INVALID : DataType;
  TypesCompatible : DataType → DataType → bool;
  DataTypeSliceString : list DataType → string;
  DeviceType : Type;
  DeviceType_of_string : string → DeviceType;      (* DeviceType(type) *)
  DeviceTypeString : DeviceType → string;
  (* attr_value.proto, attr_value_util.h *)
  AttrValue : Type;
  AttrValue_type : AttrValue → DataType;           (* v.type() *)
  AttrValue_list_type : AttrValue → list DataType; (* v.list().type() *)
  AttrValueHasType : AttrValue → string → Status;
  SummarizeAttrValue : AttrValue → string;
  (* graph.proto, node_def_util.h *)
  NodeDef : Type;
  NodeDef_op : NodeDef → string;
  AttrSlice_Find : NodeDef → string → option AttrValue;
  GetNodeAttr : NodeDef → string → option string;  (* the value written *)
  SummarizeNodeDef : NodeDef → string;
  (* kernel_def.proto *)
  AttrConstraint : Type;
  AttrConstraint_name : AttrConstraint → string;
  AttrConstraint_allowed_values : AttrConstraint → AttrValue;
  KernelDef : Type;
  KernelDef_op : KernelDef → string;
  KernelDef_device_type : KernelDef → string;
  KernelDef_label : KernelDef → string;
  KernelDef_constraint : KernelDef → list AttrConstraint;
  KernelDef_host_memory_arg : KernelDef → list string;
  KernelDef_ShortDebugString : KernelDef → string;
  (* op_def.proto, op.h *)
  ArgDef : Type;
  ArgDef_name : ArgDef → string;
  OpDef : Type;
  OpDef_input_arg : OpDef → list ArgDef;
  OpDef_output_arg : OpDef → list ArgDef;
  SummarizeOpDef : OpDef → string;
  OpRegistry_Global_LookUp : string → option OpDef;
  (* op_kernel.h *)
  Factory : Type;
}.

Section Functions.
Context `{Framework}.

(** *** MatchSignatureHelper (lines 41-69) *)

(** The loop [for (i = 0; !signature_mismatch && i < actual.size(); ++i)]:
    whether the types at some index are not compatible. *)
Definition slice_mismatch (expected actual : list DataType) : bool :=
  existsb (λ i,
      match expected !! i, actual !! i with
      | Some e, Some a => negb (TypesCompatible e a)
      | _, _ => false
      end)
    (seq 0 (length actual)).

Definition MatchSignatureHelper (expected_inputs expected_outputs
    inputs outputs : list DataType) : Status :=
  let signature_mismatch := false in
  let signature_mismatch :=
    if negb (length inputs =? length expected_inputs)%nat then true
    else signature_mismatch in
  let signature_mismatch :=
    signature_mismatch || slice_mismatch expected_inputs inputs in
  let signature_mismatch :=
    if negb (length outputs =? length expected_outputs)%nat then true
    else signature_mismatch in
  let signature_mismatch :=
    signature_mismatch || slice_mismatch expected_outputs outputs in
  if signature_mismatch then
    InvalidArgument ["Signature mismatch, have: "; DataTypeSliceString inputs;
                     "->"; DataTypeSliceString outputs; " expected: ";
                     DataTypeSliceString expected_inputs; "->";
                     DataTypeSliceString expected_outputs]
  else OK.

(** *** The registry (lines 596-636) *)

Record KernelRegistration := mkKernelRegistration {
  def : KernelDef;
  kernel_class_name : string;
  factory : Factory;
}.

(** [std::unordered_multimap<string, KernelRegistration>]: the pairs that
    were inserted; the order in which the pairs of one key are visited is
    not specified. *)
Definition KernelRegistry := list (string * KernelRegistration).

(** [registry->equal_range(key)] *)
Definition equal_range (key : string) (registry : KernelRegistry)
    : list KernelRegistration :=
  map snd (List.filter (λ kr, String.eqb kr.1 key) registry).

Definition Key (op_type : string) (device_type : DeviceType) (label : string)
    : string :=
  op_type +:+ ":" +:+ DeviceTypeString device_type +:+ ":" +:+ label.

Definition InitInternal (kernel_def : KernelDef) (kernel_class_name : string)
    (factory : Factory) (registry : KernelRegistry) : KernelRegistry :=
  let key := Key (KernelDef_op kernel_def)
               (DeviceType_of_string (KernelDef_device_type kernel_def))
               (KernelDef_label kernel_def) in
  registry ++ [(key, mkKernelRegistration kernel_def kernel_class_name factory)].

(** *** AttrsMatch (lines 643-699) *)

Definition InTypeList (dt : DataType) (type_list : AttrValue) : bool :=
  existsb (λ in_list, dt =? in_list) (AttrValue_list_type type_list).

(** The loop over the constraints; the result is the status and [*match]. *)
Fixpoint AttrsMatch_loop (node_def : NodeDef) (kernel_def : KernelDef)
    (constraints : list AttrConstraint) : Status * bool :=
  match constraints with
  | [] => (OK, true)
  | constraint :: rest =>
    let allowed_values := AttrConstraint_allowed_values constraint in
    if (length (AttrValue_list_type allowed_values) =? 0)%nat then
      (Unimplemented ["KernelDef '"; KernelDef_ShortDebugString kernel_def;
                      " has constraint on attr '";
                      AttrConstraint_name constraint;
                      "' with unsupported type: ";
                      SummarizeAttrValue allowed_values], false)
    else
      match AttrSlice_Find node_def (AttrConstraint_name constraint) with
      | Some found =>
        if negb (AttrValue_type found =? DT_INVALID) then
          if negb (InTypeList (AttrValue_type found) allowed_values)
          then (OK, false)
          else AttrsMatch_loop node_def kernel_def rest
        else
          if negb (ok (AttrValueHasType found "list(type)")) then
            (InvalidArgument
               ["KernelDef '"; KernelDef_ShortDebugString kernel_def;
                "' has constraint on attr '"; AttrConstraint_name constraint;
                "' that has value '"; SummarizeAttrValue found;
                "' that does not have type 'type' or 'list(type)' in NodeDef '";
                SummarizeNodeDef node_def; "'"], false)
          else if forallb (λ t, InTypeList t allowed_values)
                    (AttrValue_list_type found)
          then AttrsMatch_loop node_def kernel_def rest
          else (OK, false)
      | None =>
        (InvalidArgument
           ["OpKernel '"; KernelDef_op kernel_def;
            "' has constraint on attr '"; AttrConstraint_name constraint;
            "' not in NodeDef '"; SummarizeNodeDef node_def;
            "', KernelDef: '"; KernelDef_ShortDebugString kernel_def; "'"],
         false)
      end
  end.

Definition AttrsMatch (node_def : NodeDef) (kernel_def : KernelDef)
    : Status * bool :=
  AttrsMatch_loop node_def kernel_def (KernelDef_constraint kernel_def).

(** *** FindKernelRegistration (lines 701-724) *)

(** The loop over the registrations of the key; [reg] is [*reg], [None]
    for the null pointer. *)
Fixpoint FindKernelRegistration_loop (node_def : NodeDef)
    (regs : list KernelRegistration) (reg : option KernelRegistration)
    : Status * option KernelRegistration :=
  match regs with
  | [] => (OK, reg)
  | r :: rest =>
    match AttrsMatch node_def (def r) with
    | (OK, is_match) =>
      if is_match then
        match reg with
        | Some r0 =>
          (InvalidArgument
             ["Multiple OpKernel registrations match NodeDef '";
              SummarizeNodeDef node_def; "': '";
              KernelDef_ShortDebugString (def r0); "' and '";
              KernelDef_ShortDebugString (def r); "'"], reg)
        | None => FindKernelRegistration_loop node_def rest (Some r)
        end
      else FindKernelRegistration_loop node_def rest reg
    | (Error code message, _) => (Error code message, reg)
    end
  end.

Definition FindKernelRegistration (registry : KernelRegistry)
    (device_type : DeviceType) (node_def : NodeDef)
    : Status * option KernelRegistration :=
  let label := default "" (GetNodeAttr node_def "_kernel") in
  let key := Key (NodeDef_op node_def) device_type label in
  FindKernelRegistration_loop node_def (equal_range key registry) None.

(** *** FindKernelDef (lines 728-741) *)

Definition FindKernelDef (registry : KernelRegistry) (device_type : DeviceType)
    (node_def : NodeDef) : Status * option (KernelDef * string) :=
  match FindKernelRegistration registry device_type node_def with
  | (OK, Some reg) => (OK, Some (def reg, kernel_class_name reg))
  | (OK, None) =>
    (NotFound ["No registered '"; NodeDef_op node_def; "' OpKernel for ";
               DeviceTypeString device_type;
               " devices compatible with node "; SummarizeNodeDef node_def],
     None)
  | (Error code message, _) => (Error code message, None)
  end.

(** *** SupportedDeviceTypesForNode (lines 743-765) *)

(** The loop over the prioritized types for a known op; [device_types] is
    the vector that the caller passed, extended so far. *)
Fixpoint SupportedDeviceTypes_loop (registry : KernelRegistry)
    (def : NodeDef) (prioritized_types device_types : list DeviceType)
    : Status * list DeviceType :=
  match prioritized_types with
  | [] => (OK, device_types)
  | device_type :: rest =>
    match FindKernelRegistration registry device_type def with
    | (OK, reg) =>
      SupportedDeviceTypes_loop registry def rest
        (match reg with
         | Some _ => device_types ++ [device_type]
         | None => device_types
         end)
    | (Error code message, _) => (Error code message, device_types)
    end
  end.

Definition SupportedDeviceTypesForNode (registry : KernelRegistry)
    (prioritized_types : list DeviceType) (def : NodeDef)
    (device_types : list DeviceType) : Status * list DeviceType :=
  match OpRegistry_Global_LookUp (NodeDef_op def) with
  | Some op_def =>
    SupportedDeviceTypes_loop registry def prioritized_types device_types
  | None => (OK, device_types ++ prioritized_types)
  end.

(** *** ValidateKernelRegistrations (lines 838-872) *)

Definition FindArgInOp (arg_name : string) (args : list ArgDef) : bool :=
  existsb (λ arg, String.eqb arg_name (ArgDef_name arg)) args.

Fixpoint ValidateKernelRegistrations (op_registry : string → option OpDef)
    (registry : KernelRegistry) : Status :=
  match registry with
  | [] => OK
  | key_registration :: rest =>
    let kernel_def := def key_registration.2 in
    match op_registry (KernelDef_op kernel_def) with
    | None => ValidateKernelRegistrations op_registry rest
    | Some op_def =>
      match List.find (λ host_memory_arg,
                negb (FindArgInOp host_memory_arg (OpDef_input_arg op_def)) &&
                negb (FindArgInOp host_memory_arg (OpDef_output_arg op_def)))
              (KernelDef_host_memory_arg kernel_def) with
      | Some host_memory_arg =>
        InvalidArgument ["HostMemory arg '"; host_memory_arg;
                         "' not found in OpDef: "; SummarizeOpDef op_def]
      | None => ValidateKernelRegistrations op_registry rest
      end
    end
  end.

(** *** Properties *)

(** The attributes of [node_def] satisfy [constraint]: the attribute is
    there and either holds one type, which is allowed, or is a list of
    types, all of which are allowed. *)
Definition constraint_satisfied (node_def : NodeDef)
    (constraint : AttrConstraint) : Prop :=
  let allowed := AttrValue_list_type (AttrConstraint_allowed_values constraint) in
  allowed ≠ [] ∧
  ∃ found, AttrSlice_Find node_def (AttrConstraint_name constraint) = Some found ∧
    if decide (AttrValue_type found = DT_INVALID) then
      ok (AttrValueHasType found "list(type)") = true ∧
      ∀ t, t ∈ AttrValue_list_type found → t ∈ allowed
    else AttrValue_type found ∈ allowed.

(** [AttrsMatch] says that the attributes of [node_def] match
    [kernel_def]. *)
Definition matches (node_def : NodeDef) (r : KernelRegistration) : bool :=
  (AttrsMatch node_def (def r)).2.

(** [FindKernelRegistration] finds a kernel for [def] on [device_type]. *)
Definition has_kernel (registry : KernelRegistry) (def : NodeDef)
    (device_type : DeviceType) : bool :=
  match FindKernelRegistration registry device_type def with
  | (OK, Some _) => true
  | _ => false
  end.

(** The character of the separator that [Key] puts between its parts. *)
Definition colon : Ascii.ascii := Ascii.ascii_of_nat 58.

(** No colon in the string. *)
Fixpoint colon_free (s : string) : bool :=
  match s with
  | EmptyString => true
  | String c s' => negb (Ascii.eqb c colon) && colon_free s'
  end.
End Functions.
End OpKernel.

Module RegistryExample.
Import OpKernel.

(** A kernel definition with the fields that op_kernel.cc reads. *)
Record kernel_def := mk_kernel_def {
  op : string;
  device_type : string;
  label : string;
  constraint : list (string * (DataType * list DataType));
  host_memory_arg : list string;
}.

(** A framework to run the functions on.  A device type is its string, an
    attribute value its type and its list of types, a node its op and its
    attributes, an op its input and its output argument names; types are
    compatible when equal, every attribute value has the type asked for,
    the summaries are the op names or empty, and the op registry knows
    MatMul alone. *)
Definition framework : Framework := {|
  DT_INVALID := 0;
  TypesCompatible := Z.eqb;
  DataTypeSliceString := λ _, "";
  DeviceType := string;
  DeviceType_of_string := λ s, s;
  DeviceTypeString := λ s, s;
  AttrValue := DataType * list DataType;
  AttrValue_type := fst;
  AttrValue_list_type := snd;
  AttrValueHasType := λ _ _, OK;
  SummarizeAttrValue := λ _, "";
  NodeDef := string * list (string * (DataType * list DataType));
  NodeDef_op := fst;
  AttrSlice_Find := λ n name,
    snd <$> List.find (λ a, String.eqb a.1 name) n.2;
  GetNodeAttr := λ _ _, None;
  SummarizeNodeDef := fst;
  AttrConstraint := string * (DataType * list DataType);
  AttrConstraint_name := fst;
  AttrConstraint_allowed_values := snd;
  KernelDef := kernel_def;
  KernelDef_op := op;
  KernelDef_device_type := device_type;
  KernelDef_label := label;
  KernelDef_constraint := constraint;
  KernelDef_host_memory_arg := host_memory_arg;
  KernelDef_ShortDebugString := op;
  ArgDef := string;
  ArgDef_name := λ a, a;
  OpDef := list string * list string;
  OpDef_input_arg := fst;
  OpDef_output_arg := snd;
  SummarizeOpDef := λ _, "";
  OpRegistry_Global_LookUp := λ name,
    if String.eqb name "MatMul" then Some (["a"; "b"], ["product"]) else None;
  Factory := unit;
|}.

(** The types 1 and 2 stand for float and double. *)
Definition matmul_float_cpu : kernel_def :=
  mk_kernel_def "MatMul" "CPU" "" [("T", (0, [1]))] [].
Definition matmul_double_cpu : kernel_def :=
  mk_kernel_def "MatMul" "CPU" "" [("T", (0, [2]))] [].
Definition matmul_float_gpu : kernel_def :=
  mk_kernel_def "MatMul" "GPU" "" [("T", (0, [1]))] [].

(** A MatMul node on floats. *)
Definition node : string * list (string * (DataType * list DataType)) :=
  ("MatMul", [("T", (1, []))]).

(** The registry after the registration of the two CPU kernels. *)
Definition registry : @KernelRegistry framework :=
  @InitInternal framework matmul_double_cpu "MatMulOp<double>" tt
    (@InitInternal framework matmul_float_cpu "MatMulOp<float>" tt []).
End RegistryExample.

(** ** Facts about the best-N list *)

Section TopN_facts.
Context (cmp : nat → nat → bool).

Lemma bottom_of_elem m l : TopN.bottom_of cmp m l ∈ m :: l.
Proof.
  revert m. induction l as [|x l IH]; intros m; simpl.
  - apply list_elem_of_here.
  - specialize (IH (if cmp m x then x else m)).
    apply elem_of_cons in IH as [->|IH].
    + destruct (cmp m x); [apply list_elem_of_further|]; apply list_elem_of_here.
    + do 2 apply list_elem_of_further. exact IH.
Qed.

Lemma bottom_of_snoc m l x :
  TopN.bottom_of cmp m (l ++ [x]) =
  if cmp (TopN.bottom_of cmp m l) x then x else TopN.bottom_of cmp m l.
Proof.
  revert m. induction l as [|y l IH]; intros m; simpl; [reflexivity|].
  apply IH.
Qed.

Lemma remove_first_length x l :
  x ∈ l → S (length (TopN.remove_first x l)) = length l.
Proof.
  induction l as [|y l IH]; intros Hin; simpl.
  - apply elem_of_nil in Hin as [].
  - destruct (Nat.eqb_spec x y) as [->|Hne]; [reflexivity|].
    apply elem_of_cons in Hin as [?|Hin]; [contradiction|].
    simpl. f_equal. apply IH, Hin.
Qed.

Lemma remove_first_other x y l :
  y ∈ l → y ≠ x → y ∈ TopN.remove_first x l.
Proof.
  induction l as [|z l IH]; intros Hin Hne; simpl.
  - exact Hin.
  - destruct (Nat.eqb_spec x z) as [->|Hxz].
    + apply elem_of_cons in Hin as [?|Hin]; [contradiction|exact Hin].
    + apply elem_of_cons in Hin as [->|Hin].
      * apply list_elem_of_here.
      * apply list_elem_of_further, IH; assumption.
Qed.

Lemma remove_first_snoc x l :
  x ∈ l → TopN.remove_first x (l ++ [x]) = TopN.remove_first x l ++ [x].
Proof.
  induction l as [|z l IH]; intros Hin; simpl.
  - apply elem_of_nil in Hin as [].
  - destruct (Nat.eqb_spec x z) as [->|Hxz]; [reflexivity|].
    apply elem_of_cons in Hin as [?|Hin]; [contradiction|].
    simpl. f_equal. apply IH, Hin.
Qed.

Lemma remove_first_elem x y l : y ∈ TopN.remove_first x l → y ∈ l.
Proof.
  induction l as [|z l IH]; simpl; [tauto|].
  destruct (Nat.eqb_spec x z) as [->|Hxz]; intros Hin.
  - apply list_elem_of_further, Hin.
  - apply elem_of_cons in Hin as [->|Hin].
    + apply list_elem_of_here.
    + apply list_elem_of_further, IH, Hin.
Qed.

Lemma push_limit x q : TopN.limit (TopN.push cmp x q) = TopN.limit q.
Proof.
  unfold TopN.push.
  destruct (_ <? _)%nat; [|reflexivity].
  destruct (TopN.elements q ++ [x]); reflexivity.
Qed.

(** Below the limit a push appends. *)
Lemma push_below x q :
  (TopN.size q < TopN.limit q)%nat →
  TopN.elements (TopN.push cmp x q) = TopN.elements q ++ [x].
Proof.
  unfold TopN.push, TopN.size. intros Hlt.
  rewrite length_app. simpl.
  destruct (Nat.ltb_spec (TopN.limit q) (length (TopN.elements q) + 1)); [lia|].
  reflexivity.
Qed.

(** At the limit a push evicts the minimum of the old members and the new
    one. *)
Lemma push_full x q y l :
  (TopN.limit q ≤ TopN.size q)%nat →
  TopN.elements q = y :: l →
  TopN.elements (TopN.push cmp x q) =
  TopN.remove_first (TopN.bottom_of cmp y (l ++ [x])) (y :: l ++ [x]).
Proof.
  unfold TopN.push, TopN.size. intros Hle Hel.
  rewrite length_app. simpl.
  destruct (Nat.ltb_spec (TopN.limit q) (length (TopN.elements q) + 1)); [|lia].
  rewrite Hel. reflexivity.
Qed.

Lemma push_size_le x q :
  (TopN.size q ≤ TopN.limit q)%nat →
  (TopN.size (TopN.push cmp x q) ≤ TopN.limit q)%nat.
Proof.
  intros Hle. unfold TopN.size in *.
  destruct (Nat.lt_ge_cases (length (TopN.elements q)) (TopN.limit q)) as [Hlt|Hge].
  - rewrite push_below by exact Hlt. rewrite length_app. simpl. lia.
  - destruct (TopN.elements q) as [|y l] eqn:Hel.
    + simpl in *. unfold TopN.push. rewrite Hel. simpl.
      destruct (Nat.ltb_spec (TopN.limit q) 1); simpl; [|lia].
      rewrite Nat.eqb_refl. simpl. lia.
    + rewrite (push_full x q y l) by (unfold TopN.size; rewrite ?Hel; auto).
      pose proof (remove_first_length _ _ (bottom_of_elem y (l ++ [x]))) as Hlen.
      simpl in *. rewrite length_app in Hlen. simpl in Hlen. lia.
Qed.

(** A push loses at most the minimum it evicts. *)
Lemma push_keeps x q z :
  z ∈ TopN.elements q →
  z ∈ TopN.elements (TopN.push cmp x q) ∨
  ((TopN.limit q ≤ TopN.size q)%nat ∧
   ∃ y l, TopN.elements q = y :: l ∧ z = TopN.bottom_of cmp y (l ++ [x])).
Proof.
  intros Hin.
  destruct (Nat.lt_ge_cases (TopN.size q) (TopN.limit q)) as [Hlt|Hge].
  - left. rewrite push_below by exact Hlt. apply elem_of_app. left. exact Hin.
  - destruct (TopN.elements q) as [|y l] eqn:Hel.
    { apply elem_of_nil in Hin as []. }
    destruct (decide (z = TopN.bottom_of cmp y (l ++ [x]))) as [->|Hne].
    + right. split; [exact Hge|]. eauto.
    + left. rewrite (push_full x q y l) by assumption.
      apply remove_first_other; [|exact Hne].
      change (z ∈ (y :: l) ++ [x]). apply elem_of_app. left. exact Hin.
Qed.

Lemma push_elem x q z :
  z ∈ TopN.elements (TopN.push cmp x q) → z = x ∨ z ∈ TopN.elements q.
Proof.
  unfold TopN.push.
  destruct (_ <? _)%nat.
  - destruct (TopN.elements q ++ [x]) as [|y l] eqn:Hel; [auto|].
    cbn [TopN.elements]. intros Hin. apply remove_first_elem in Hin.
    rewrite <- Hel in Hin. apply elem_of_app in Hin as [Hin|Hin]; [auto|].
    apply list_elem_of_singleton in Hin. auto.
  - simpl. intros Hin. apply elem_of_app in Hin as [Hin|Hin]; [auto|].
    apply list_elem_of_singleton in Hin. auto.
Qed.

Lemma insert_desc_length x l :
  length (TopN.insert_desc cmp x l) = S (length l).
Proof.
  induction l as [|y l IH]; simpl; [reflexivity|].
  destruct (cmp y x); simpl; [rewrite IH|]; reflexivity.
Qed.

Lemma insert_desc_elem x l z :
  z ∈ TopN.insert_desc cmp x l ↔ z = x ∨ z ∈ l.
Proof.
  induction l as [|y l IH]; simpl.
  - rewrite list_elem_of_singleton, elem_of_nil. tauto.
  - destruct (cmp y x); rewrite !elem_of_cons; [rewrite IH|]; tauto.
Qed.

Lemma Extract_length q :
  length (TopN.Extract cmp q) = TopN.size q.
Proof.
  unfold TopN.Extract, TopN.size.
  induction (TopN.elements q) as [|x l IH]; simpl; [reflexivity|].
  rewrite insert_desc_length, IH. reflexivity.
Qed.

Lemma Extract_elem q z :
  z ∈ TopN.Extract cmp q ↔ z ∈ TopN.elements q.
Proof.
  unfold TopN.Extract.
  induction (TopN.elements q) as [|x l IH]; simpl; [reflexivity|].
  rewrite insert_desc_elem, elem_of_cons, IH. reflexivity.
Qed.

(** With an asymmetric comparison the extracted list is descending: no
    member ranks above the one before it. *)
Lemma insert_desc_sorted x l :
  (∀ a b, cmp a b = true → cmp b a = false) →
  Sorted (λ a b, cmp b a = false) l →
  Sorted (λ a b, cmp b a = false) (TopN.insert_desc cmp x l).
Proof.
  intros Hasym. induction 1 as [|y l Hs IH Hhd]; simpl.
  - repeat constructor.
  - destruct (cmp y x) eqn:Hyx.
    + constructor; [exact IH|].
      destruct l as [|z l]; simpl.
      * constructor. apply Hasym, Hyx.
      * destruct (cmp z x); constructor.
        -- inversion Hhd; assumption.
        -- apply Hasym, Hyx.
    + constructor; [constructor; assumption|]. constructor. exact Hyx.
Qed.

Lemma Extract_sorted q :
  (∀ a b, cmp a b = true → cmp b a = false) →
  Sorted (λ a b, cmp b a = false) (TopN.Extract cmp q).
Proof.
  intros Hasym. unfold TopN.Extract.
  induction (TopN.elements q) as [|x l IH]; simpl; [constructor|].
  apply insert_desc_sorted; assumption.
Qed.

(** Pushing a list of members into a best-N list. *)
Lemma push_all_limit l q :
  TopN.limit (foldl (λ q b, TopN.push cmp b q) q l) = TopN.limit q.
Proof.
  revert q. induction l as [|x l IH]; intros q; simpl; [reflexivity|].
  rewrite IH. apply push_limit.
Qed.

Lemma push_size x q :
  (TopN.size q ≤ TopN.limit q)%nat →
  TopN.size (TopN.push cmp x q) = Nat.min (TopN.limit q) (S (TopN.size q)).
Proof.
  intros Hle. unfold TopN.size in *.
  destruct (Nat.lt_ge_cases (length (TopN.elements q)) (TopN.limit q)) as [Hlt|Hge].
  - rewrite push_below by exact Hlt. rewrite length_app. simpl. lia.
  - destruct (TopN.elements q) as [|y l] eqn:Hel.
    + simpl in *. unfold TopN.push. rewrite Hel. simpl.
      destruct (Nat.ltb_spec (TopN.limit q) 1); simpl; [|lia].
      rewrite Nat.eqb_refl. simpl. lia.
    + rewrite (push_full x q y l) by (unfold TopN.size; rewrite ?Hel; auto).
      pose proof (remove_first_length _ _ (bottom_of_elem y (l ++ [x]))) as Hlen.
      simpl in *. rewrite length_app in Hlen. simpl in Hlen. lia.
Qed.

Lemma push_all_size l q :
  (TopN.size q ≤ TopN.limit q)%nat →
  TopN.size (foldl (λ q b, TopN.push cmp b q) q l) =
  Nat.min (TopN.limit q) (TopN.size q + length l).
Proof.
  revert q. induction l as [|x l IH]; intros q Hle; simpl.
  - lia.
  - rewrite IH by (rewrite push_limit; apply push_size_le, Hle).
    rewrite push_limit, push_size by exact Hle. lia.
Qed.

Lemma push_all_elem l q z :
  z ∈ TopN.elements (foldl (λ q b, TopN.push cmp b q) q l) →
  z ∈ l ∨ z ∈ TopN.elements q.
Proof.
  revert q. induction l as [|x l IH]; intros q; simpl; [auto|].
  intros Hin. apply IH in Hin as [Hin|Hin].
  - left. apply list_elem_of_further, Hin.
  - apply push_elem in Hin as [->|Hin]; [left; apply list_elem_of_here|auto].
Qed.
End TopN_facts.

(** ** Facts about the methods *)

Section Decoder_facts.
Context `{LogArith} {CTCBeamState : Type} `{!BeamScorer CTCBeamState}.

Abbreviation Entry := (BeamEntry CTCBeamState).
Abbreviation Dec := (Decoder CTCBeamState).
Abbreviation Method := (@M _ CTCBeamState).
Implicit Types (d : Dec) (e : Entry) (input : Vector).

(** *** Rules for [returns] *)

Lemma returns_ret {A} (a : A) (P : Dec → Prop) (Q : A → Dec → Prop) :
  (∀ d, P d → Q a d) → returns P (ret a) Q.
Proof. intros HQ d HP. exists a, d. split; [reflexivity|]. apply HQ, HP. Qed.

Lemma returns_bind {A B} (m : Method A) (f : A → Method B) P Q R :
  returns P m Q → (∀ a, returns (Q a) (f a) R) → returns P (bind m f) R.
Proof.
  intros Hm Hf d HP. unfold bind.
  destruct (Hm d HP) as (a & d1 & -> & HQ).
  apply (Hf a d1 HQ).
Qed.

Lemma returns_get (P : Dec → Prop) (Q : Dec → Dec → Prop) :
  (∀ d, P d → Q d d) → returns P get Q.
Proof. intros HQ d HP. exists d, d. split; [reflexivity|]. apply HQ, HP. Qed.

Lemma returns_modify (f : Dec → Dec) (P : Dec → Prop) (Q : unit → Dec → Prop) :
  (∀ d, P d → Q tt (f d)) → returns P (modify f) Q.
Proof. intros HQ d HP. exists tt, (f d). split; [reflexivity|]. apply HQ, HP. Qed.

Lemma returns_weaken {A} (m : Method A) (P P' : Dec → Prop) (Q Q' : A → Dec → Prop) :
  returns P' m Q' → (∀ d, P d → P' d) → (∀ a d, Q' a d → Q a d) →
  returns P m Q.
Proof.
  intros Hm HP HQ d Hd.
  destruct (Hm d (HP d Hd)) as (a & d' & Heq & Hq).
  exists a, d'. split; [exact Heq|]. apply HQ, Hq.
Qed.

(** A loop keeps what each of its rounds keeps. *)
Lemma returns_for_each {A} (f : A → Method unit) (Inv : Dec → Prop)
    (l : list A) :
  (∀ x, x ∈ l → returns Inv (f x) (λ _, Inv)) →
  returns Inv (for_each f l) (λ _, Inv).
Proof.
  induction l as [|x l' IH]; intros Hf; simpl.
  - apply returns_ret. auto.
  - eapply returns_bind.
    + apply Hf, list_elem_of_here.
    + intros u. apply IH. intros y Hy. apply Hf, list_elem_of_further, Hy.
Qed.

(** *** Nodes and leaves under the elementary updates *)

Lemma lookup_update_node_eq b f d :
  beam_root_ (update_node b f d) !! b = f <$> beam_root_ d !! b.
Proof. apply list_lookup_alter_eq. Qed.

Lemma lookup_update_node_ne b f d i :
  i ≠ b → beam_root_ (update_node b f d) !! i = beam_root_ d !! i.
Proof. intros Hne. apply list_lookup_alter_ne. congruence. Qed.

Lemma key_update_node_eq b f d e :
  beam_root_ d !! b = Some e →
  key (beam_root_ (update_node b f d)) b = BeamProbability.total (newp (f e)).
Proof. intros He. unfold key. rewrite lookup_update_node_eq, He. reflexivity. Qed.

(** Resetting a probability pair makes the node inactive. *)
Lemma Active_Reset_newp `{!LogArithLaws} e p :
  Active (set_newp e (BeamProbability.Reset p)) = false.
Proof.
  unfold Active. simpl.
  destruct (fgt kLogZero kLogZero) eqn:Hgt; [|reflexivity].
  rewrite (fgt_asym _ _ Hgt) in Hgt. discriminate.
Qed.

Lemma Active_init `{!LogArithLaws} e :
  newp e = BeamProbability.init → Active e = false.
Proof.
  intros He. unfold Active. rewrite He. simpl.
  destruct (fgt kLogZero kLogZero) eqn:Hgt; [|reflexivity].
  rewrite (fgt_asym _ _ Hgt) in Hgt. discriminate.
Qed.

Lemma BeamComparer_asym `{!LogArithLaws} (nodes : list Entry) a b :
  BeamComparer nodes a b = true → BeamComparer nodes b a = false.
Proof. apply fgt_asym. Qed.

(** *** Reset *)

Lemma Reset_run d :
  Reset d =
  (Done tt,
   mkDecoder (num_classes_ d) (batch_size_ d) (merge_repeated_ d)
     (blank_index_ d) (beam_width_ d)
     (TopN.push
        (BeamComparer
           [mkBeamEntry None (-1) [] BeamProbability.init
              (BeamProbability.mk _ fzero fzero kLogZero) default_state])
        0%nat (TopN.mk (TopN.limit (leaves_ d)) []))
     [mkBeamEntry None (-1) [] BeamProbability.init
        (BeamProbability.mk _ fzero fzero kLogZero)
        (InitializeState default_state)]).
Proof. reflexivity. Qed.

Lemma Reset_invariant `{!LogArithLaws} d d' :
  TopN.limit (leaves_ d) = beam_width_ d →
  (0 < beam_width_ d)%nat →
  Reset d = (Done tt, d') →
  beam_bounded d' ∧ active_in_beam d'.
Proof.
  intros Hlim Hpos. rewrite Reset_run. intros [= <-].
  unfold beam_bounded, active_in_beam, TopN.size. simpl.
  rewrite push_limit, push_below by (unfold TopN.size; simpl; lia).
  simpl. repeat split; [exact Hlim|lia|].
  intros i e Hi _. destruct i as [|i]; [apply list_elem_of_here|].
  discriminate.
Qed.

(** *** Step: the phases *)

Lemma remove_max_length (raw_input : Vector) :
  length (remove_max raw_input) = length raw_input.
Proof. unfold remove_max. apply length_map. Qed.

(** [Step] is the size check, then the three loops over the extracted
    leaves. *)
Lemma Step_run (raw_input : Vector) d :
  Step raw_input d =
  if num_classes_ d =? Z.of_nat (length raw_input) then
    let input := remove_max raw_input in
    let branches := TopN.Extract (BeamComparer (beam_root_ d)) (leaves_ d) in
    for_each (grow_branch input) branches
      (foldl (λ d b, update_branch input b d)
         (foldl (λ d b, shift_probabilities b d)
            (set_leaves d (TopN.Reset (leaves_ d))) branches)
         branches)
  else (Fatal CHECK_EQ_num_classes_input_size, d).
Proof.
  unfold Step, bind, get, CHECK. rewrite remove_max_length.
  destruct (num_classes_ d =? Z.of_nat (length raw_input)); reflexivity.
Qed.

(** The first loop touches the old probabilities of the branches only. *)
Lemma shift_loop_leaves (l : list nat) d :
  leaves_ (foldl (λ d b, shift_probabilities b d) d l) = leaves_ d.
Proof. revert d. induction l as [|b l IH]; intros d; simpl; [|rewrite IH]; reflexivity. Qed.

Lemma shift_loop_blank_index (l : list nat) d :
  blank_index_ (foldl (λ d b, shift_probabilities b d) d l) = blank_index_ d.
Proof. revert d. induction l as [|b l IH]; intros d; simpl; [|rewrite IH]; reflexivity. Qed.

Lemma shift_loop_beam_width (l : list nat) d :
  beam_width_ (foldl (λ d b, shift_probabilities b d) d l) = beam_width_ d.
Proof. revert d. induction l as [|b l IH]; intros d; simpl; [|rewrite IH]; reflexivity. Qed.


(** The second loop. *)
Lemma update_branch_blank_index input b d :
  blank_index_ (update_branch input b d) = blank_index_ d.
Proof. reflexivity. Qed.

Lemma update_branch_beam_width input b d :
  beam_width_ (update_branch input b d) = beam_width_ d.
Proof. reflexivity. Qed.

Lemma update_loop_blank_index input (l : list nat) d :
  blank_index_ (foldl (λ d b, update_branch input b d) d l) = blank_index_ d.
Proof. revert d. induction l as [|b l IH]; intros d; simpl; [|rewrite IH]; reflexivity. Qed.

Lemma update_loop_beam_width input (l : list nat) d :
  beam_width_ (foldl (λ d b, update_branch input b d) d l) = beam_width_ d.
Proof. revert d. induction l as [|b l IH]; intros d; simpl; [|rewrite IH]; reflexivity. Qed.

Lemma update_loop_limit input (l : list nat) d :
  TopN.limit (leaves_ (foldl (λ d b, update_branch input b d) d l)) =
  TopN.limit (leaves_ d).
Proof.
  revert d. induction l as [|b l IH]; intros d; simpl; [reflexivity|].
  rewrite IH. apply push_limit.
Qed.

(** As long as the limit is not reached, the second loop fills the leaves
    back in the order of the branches. *)
Lemma update_loop_elements input (l : list nat) d :
  (TopN.size (leaves_ d) + length l ≤ TopN.limit (leaves_ d))%nat →
  TopN.elements (leaves_ (foldl (λ d b, update_branch input b d) d l)) =
  TopN.elements (leaves_ d) ++ l.
Proof.
  revert d. induction l as [|b l IH]; intros d; simpl; intros Hle.
  - rewrite app_nil_r. reflexivity.
  - rewrite IH.
    + simpl. rewrite push_below by (simpl; lia).
      simpl. rewrite <- app_assoc. reflexivity.
    + simpl. rewrite push_limit. unfold TopN.size in *.
      rewrite push_below by (unfold TopN.size; simpl; lia).
      rewrite length_app. simpl in *. lia.
Qed.

Lemma update_branch_lookup_ne input b d i :
  i ≠ b → beam_root_ (update_branch input b d) !! i = beam_root_ d !! i.
Proof. intros Hne. unfold update_branch. simpl. apply list_lookup_alter_ne. congruence. Qed.

Lemma update_loop_lookup_notin input (l : list nat) d i :
  i ∉ l →
  beam_root_ (foldl (λ d b, update_branch input b d) d l) !! i =
  beam_root_ d !! i.
Proof.
  revert d. induction l as [|b l IH]; intros d Hnotin; simpl; [reflexivity|].
  apply not_elem_of_cons in Hnotin as [Hne Hnotin].
  rewrite IH by exact Hnotin. apply update_branch_lookup_ne, Hne.
Qed.

Lemma shift_loop_lookup_notin (l : list nat) d i :
  i ∉ l →
  beam_root_ (foldl (λ d b, shift_probabilities b d) d l) !! i =
  beam_root_ d !! i.
Proof.
  revert d. induction l as [|b l IH]; intros d Hnotin; simpl; [reflexivity|].
  apply not_elem_of_cons in Hnotin as [Hne Hnotin].
  rewrite IH by exact Hnotin. apply lookup_update_node_ne, Hne.
Qed.

(** What the second loop leaves in a branch: the blank part continues the
    old total and the total is combined. *)
Lemma update_branch_lookup_eq input b d e' :
  beam_root_ (update_branch input b d) !! b = Some e' →
  ∃ e, beam_root_ d !! b = Some e ∧
    e' = set_newp e (updated_newp (beam_root_ d) input (blank_index_ d) e).
Proof.
  unfold update_branch. simpl. rewrite list_lookup_alter_eq.
  destruct (beam_root_ d !! b) as [e|]; [|discriminate].
  intros [= <-]. eauto.
Qed.

Lemma update_loop_stepped input (l : list nat) d i e :
  i ∈ l →
  beam_root_ (foldl (λ d b, update_branch input b d) d l) !! i = Some e →
  total_combined e ∧ blank_continued input (blank_index_ d) e.
Proof.
  revert d. induction l as [|b l IH]; intros d Hin; simpl.
  - apply elem_of_nil in Hin as [].
  - destruct (decide (i ∈ l)) as [Hil|Hil].
    + intros He. apply (IH _ Hil) in He. exact He.
    + apply elem_of_cons in Hin as [->|?]; [|contradiction].
      rewrite update_loop_lookup_notin by exact Hil.
      intros He. apply update_branch_lookup_eq in He as (e0 & _ & ->).
      split; reflexivity.
Qed.

(** *** Step: the third loop *)

Lemma peek_bottom_run d y l :
  TopN.elements (leaves_ d) = y :: l →
  peek_bottom d = (Done (TopN.bottom_of (BeamComparer (beam_root_ d)) y l), d).
Proof. intros Hel. unfold peek_bottom, TopN.peek_bottom. rewrite Hel. reflexivity. Qed.

(** On a beam that is not empty the admission test returns, and leaves the
    decoder as it is. *)
Lemma is_candidate_run prob d :
  TopN.elements (leaves_ d) ≠ [] →
  is_candidate prob d = (Done (admissible prob d), d).
Proof.
  intros Hne. unfold is_candidate, admissible, bind, get, ret.
  destruct (fgt (BeamProbability.total prob) kLogZero); [|reflexivity].
  destruct (TopN.size (leaves_ d) <? beam_width_ d)%nat; [reflexivity|].
  destruct (TopN.elements (leaves_ d)) as [|y l] eqn:Hel; [contradiction|].
  rewrite (peek_bottom_run d y l Hel).
  unfold TopN.peek_bottom. rewrite Hel. reflexivity.
Qed.

(** The run of the loop body on an inactive child. *)
Lemma grow_child_run input b c d be ce :
  TopN.elements (leaves_ d) ≠ [] →
  beam_root_ d !! b = Some be →
  beam_root_ d !! c = Some ce →
  Active ce = false →
  let st := ExpandState (state be) (label be) (state ce) (label ce) in
  let previous :=
    if label ce =? label be then BeamProbability.blank (oldp be)
    else BeamProbability.total (oldp be) in
  let l := fadd (coeff input (label ce)) (GetStateExpansionScore st previous) in
  let p := BeamProbability.mk _ l kLogZero l in
  let d1 := update_node c (λ e, set_newp (set_state e st) p) d in
  grow_child input b c d =
  (Done tt,
   if admissible p d1 then
     let d2 := push_leaf c d1 in
     if (TopN.size (leaves_ d2) =? beam_width_ d2)%nat then
       match TopN.peek_bottom (BeamComparer (beam_root_ d1)) (leaves_ d1) with
       | Some bottom =>
         update_node bottom
           (λ e, set_newp e (BeamProbability.Reset (newp e))) d2
       | None => d2
       end
     else d2
   else
     update_node c
       (λ e, set_newp (set_oldp e (BeamProbability.Reset (oldp e)))
                (BeamProbability.Reset (newp e))) d1).
Proof.
  intros Hne Hb Hc Hact st previous l p d1.
  unfold grow_child, bind at 1, get. rewrite Hb, Hc, Hact.
  fold st. fold previous. fold l. fold p.
  unfold bind at 1, modify. fold d1.
  unfold bind at 1. rewrite is_candidate_run by exact Hne.
  destruct (admissible p d1); [|reflexivity].
  destruct (TopN.elements (leaves_ d)) as [|y l0] eqn:Hel; [contradiction|].
  unfold bind at 1. rewrite (peek_bottom_run d1 y l0) by exact Hel.
  unfold bind, modify, get, ret.
  unfold TopN.peek_bottom. change (leaves_ d1) with (leaves_ d). rewrite Hel.
  destruct (_ =? _)%nat; reflexivity.
Qed.

(** The run of the loop body on a branch. *)
Lemma grow_branch_run input b d be :
  TopN.elements (leaves_ d) ≠ [] →
  beam_root_ d !! b = Some be →
  grow_branch input b d =
  if admissible (oldp be) d then
    let d' := if HasChildren be then d
              else PopulateChildren b (num_classes_ d - 1) d in
    match beam_root_ d' !! b with
    | Some be' => for_each (grow_child input b) (children be') d'
    | None => (Done tt, d')
    end
  else (Done tt, d).
Proof.
  intros Hne Hb. unfold grow_branch, bind at 1, get. rewrite Hb.
  unfold bind at 1. rewrite is_candidate_run by exact Hne.
  destruct (admissible (oldp be) d); [|reflexivity].
  unfold bind, modify, get, ret.
  destruct (HasChildren be);
    match goal with |- context [beam_root_ ?x !! b] =>
      destruct (beam_root_ x !! b) end; reflexivity.
Qed.

Lemma returns_and {A} (m : Method A) (P P' : Dec → Prop) (Q Q' : A → Dec → Prop) :
  returns P m Q → returns (λ d, P d ∧ P' d) m Q' →
  returns (λ d, P d ∧ P' d) m (λ a d, Q a d ∧ Q' a d).
Proof.
  intros H1 H2 d [HP HP'].
  destruct (H1 d HP) as (a & d' & Heq & HQ).
  destruct (H2 d (conj HP HP')) as (a' & d'' & Heq' & HQ').
  rewrite Heq in Heq'. injection Heq' as <- <-.
  exists a, d'. auto.
Qed.

Lemma push_leaf_ready c d : beam_ready d → beam_ready (push_leaf c d).
Proof.
  intros [[Hlim Hsize] Hne]. unfold beam_ready, beam_bounded, push_leaf. simpl.
  rewrite push_limit. split; [split; [exact Hlim|]|].
  - rewrite <- Hlim. apply push_size_le. rewrite Hlim. exact Hsize.
  - intros Hnil.
    pose proof (push_size (BeamComparer (beam_root_ d)) c (leaves_ d)) as Hs.
    unfold TopN.size in *. rewrite Hnil in Hs. simpl in Hs.
    destruct (TopN.elements (leaves_ d)); [contradiction|]. simpl in *. lia.
Qed.

Lemma grow_child_ready input b c :
  returns beam_ready (grow_child input b c) (λ _, beam_ready).
Proof.
  intros d Hd. destruct Hd as [Hbd Hne].
  destruct (beam_root_ d !! b) as [be|] eqn:Hb;
    [destruct (beam_root_ d !! c) as [ce|] eqn:Hc;
       [destruct (Active ce) eqn:Hact|]|].
  2: { rewrite (grow_child_run input b c d be ce) by assumption. cbv zeta.
       eexists _, _. split; [reflexivity|].
       destruct (admissible _ _); [|split; assumption].
       match goal with |- context [Nat.eqb ?a ?b] => destruct (Nat.eqb a b) end;
         [destruct (TopN.peek_bottom _ _)|];
         apply (push_leaf_ready c (update_node c _ d)); split; assumption. }
  all: exists tt, d; split; [|split; assumption].
  all: unfold grow_child, bind, get; rewrite Hb, ?Hc, ?Hact; reflexivity.
Qed.

Lemma grow_branch_ready input b :
  returns beam_ready (grow_branch input b) (λ _, beam_ready).
Proof.
  intros d Hd.
  destruct (beam_root_ d !! b) as [be|] eqn:Hb.
  2: { exists tt, d. split; [|exact Hd].
       unfold grow_branch, bind, get. rewrite Hb. reflexivity. }
  rewrite (grow_branch_run input b d be) by (apply Hd || assumption).
  cbv zeta.
  destruct (admissible (oldp be) d); [|exists tt, d; auto].
  set (d' := if HasChildren be then d else PopulateChildren b _ d).
  assert (beam_ready d') as Hd' by (subst d'; destruct (HasChildren be); exact Hd).
  destruct (beam_root_ d' !! b) as [be'|]; [|exists tt, d'; auto].
  apply (returns_for_each (grow_child input b) beam_ready); [|exact Hd'].
  intros c _. apply grow_child_ready.
Qed.

(** The probabilities and the leaves decide whether a node is active and
    stepped. *)
Lemma Active_same e e' : newp e' = newp e → Active e' = Active e.
Proof. intros Hn. unfold Active. rewrite Hn. reflexivity. Qed.

Lemma stepped_same input bi (bs : list nat) i e e' :
  newp e' = newp e → oldp e' = oldp e →
  stepped input bi bs i e → stepped input bi bs i e'.
Proof.
  intros Hn Ho. unfold stepped, total_combined, blank_continued.
  rewrite Hn, Ho. tauto.
Qed.

Lemma PopulateChildren_lookup b L d i e' :
  beam_root_ (PopulateChildren b L d) !! i = Some e' →
  (∃ e, beam_root_ d !! i = Some e ∧ newp e' = newp e ∧ oldp e' = oldp e) ∨
  newp e' = BeamProbability.init.
Proof.
  unfold PopulateChildren. simpl. intros Hi.
  assert (∃ e1, (beam_root_ d ++ map (new_child b) (seq 0 (Z.to_nat L))) !! i
                = Some e1 ∧ newp e' = newp e1 ∧ oldp e' = oldp e1)
    as (e1 & He1 & Hn & Ho).
  { destruct (decide (i = b)) as [->|Hne].
    - rewrite list_lookup_alter_eq in Hi.
      destruct (_ !! b) as [e1|]; [|discriminate].
      injection Hi as <-. eauto.
    - rewrite list_lookup_alter_ne in Hi by congruence. eauto. }
  apply lookup_app_Some in He1 as [He1|[_ He1]].
  - left. eauto.
  - right. apply list_elem_of_lookup_2, list_elem_of_In, in_map_iff in He1
      as (k & <- & _). exact Hn.
Qed.

Lemma PopulateChildren_growing `{!LogArithLaws} input bi (bs : list nat) b L d :
  growing input bi bs d → growing input bi bs (PopulateChildren b L d).
Proof.
  intros HJ i e' Hi Hact.
  apply PopulateChildren_lookup in Hi as [(e & Hi & Hn & Ho)|Hinit].
  - rewrite (Active_same e e') in Hact by exact Hn.
    destruct (HJ i e Hi Hact) as [Hin Hst].
    split; [exact Hin|]. apply (stepped_same input bi bs i e e'); assumption.
  - rewrite Active_init in Hact by exact Hinit. discriminate.
Qed.

(** A child admitted at the limit takes the place of the bottom. *)
Lemma push_leaf_keeps `{!LogArithLaws} c d y l p i :
  beam_bounded d →
  TopN.elements (leaves_ d) = y :: l →
  key (beam_root_ d) c = BeamProbability.total p →
  admissible p d = true →
  i ∈ TopN.elements (leaves_ d) ++ [c] →
  i ∈ TopN.elements (leaves_ (push_leaf c d)) ∨
  (i = TopN.bottom_of (BeamComparer (beam_root_ d)) y l ∧
   TopN.size (leaves_ (push_leaf c d)) = beam_width_ d).
Proof.
  intros [Hlim Hsize] Hel Hkey Hadm Hin. unfold push_leaf. simpl.
  set (cmp := BeamComparer (beam_root_ d)).
  destruct (Nat.lt_ge_cases (TopN.size (leaves_ d)) (TopN.limit (leaves_ d)))
    as [Hlt|Hge].
  - left. rewrite push_below by exact Hlt. exact Hin.
  - rewrite (push_full cmp c (leaves_ d) y l) by assumption.
    assert (cmp (TopN.bottom_of cmp y l) c = false) as Hcmp.
    { unfold admissible in Hadm. apply andb_true_iff in Hadm as [_ Hadm].
      destruct (Nat.ltb_spec (TopN.size (leaves_ d)) (beam_width_ d)); [lia|].
      simpl in Hadm. unfold TopN.peek_bottom in Hadm. rewrite Hel in Hadm.
      apply fgt_asym. rewrite Hkey. exact Hadm. }
    rewrite bottom_of_snoc, Hcmp.
    destruct (decide (i = TopN.bottom_of cmp y l)) as [->|Hne].
    + right. split; [reflexivity|]. rewrite push_size by lia. lia.
    + left. apply remove_first_other; [|exact Hne].
      rewrite Hel in Hin. exact Hin.
Qed.

(** The loop over the children keeps the active nodes in the beam, with the
    probabilities of this [Step]. *)
Lemma grow_child_growing `{!LogArithLaws} input bi (bs : list nat) b c :
  returns (λ d, beam_ready d ∧ growing input bi bs d) (grow_child input b c)
    (λ _ d, growing input bi bs d).
Proof.
  intros d [[Hbd Hne] HJ].
  destruct (beam_root_ d !! b) as [be|] eqn:Hb;
    [destruct (beam_root_ d !! c) as [ce|] eqn:Hc;
       [destruct (Active ce) eqn:Hact|]|].
  1,3,4: exists tt, d; split; [|exact HJ];
    unfold grow_child, bind, get; rewrite Hb, ?Hc, ?Hact; reflexivity.
  rewrite (grow_child_run input b c d be ce) by assumption. cbv zeta.
  set (st := ExpandState (state be) (label be) (state ce) (label ce)).
  set (l := fadd (coeff input (label ce)) _).
  set (p := BeamProbability.mk _ l kLogZero l).
  set (d1 := update_node c (λ e, set_newp (set_state e st) p) d).
  eexists _, _. split; [reflexivity|].
  assert (beam_root_ d1 !! c = Some (set_newp (set_state ce st) p)) as Hc1.
  { subst d1. rewrite lookup_update_node_eq, Hc. reflexivity. }
  assert (∀ i, i ≠ c → beam_root_ d1 !! i = beam_root_ d !! i) as Hother.
  { intros i Hi. subst d1. apply lookup_update_node_ne, Hi. }
  assert (key (beam_root_ d1) c = BeamProbability.total p) as Hkey.
  { unfold key. rewrite Hc1. reflexivity. }
  assert (∀ i e, beam_root_ d1 !! i = Some e → Active e = true →
            i ∈ TopN.elements (leaves_ d) ++ [c] ∧ stepped input bi bs i e)
    as HJ1.
  { intros i e Hi Hact'. destruct (decide (i = c)) as [->|Hic].
    - rewrite Hc1 in Hi. injection Hi as <-. split.
      + apply elem_of_app. right. apply list_elem_of_here.
      + split; [|right; reflexivity].
        unfold total_combined. simpl. symmetry. apply LogSumExp_kLogZero_l.
    - rewrite Hother in Hi by exact Hic.
      destruct (HJ i e Hi Hact') as [Hin Hst]. split; [|exact Hst].
      apply elem_of_app. left. exact Hin. }
  destruct (admissible p d1) eqn:Hadm.
  - destruct (TopN.elements (leaves_ d)) as [|y l0] eqn:Hel; [contradiction|].
    assert (∀ i, i ∈ (y :: l0) ++ [c] →
      i ∈ TopN.elements (leaves_ (push_leaf c d1)) ∨
      (i = TopN.bottom_of (BeamComparer (beam_root_ d1)) y l0 ∧
       TopN.size (leaves_ (push_leaf c d1)) = beam_width_ d1)) as Hkeep.
    { intros i Hi. apply (push_leaf_keeps c d1 y l0 p);
        [exact Hbd|exact Hel|exact Hkey|exact Hadm|].
      change (leaves_ d1) with (leaves_ d). rewrite Hel. exact Hi. }
    unfold TopN.peek_bottom. change (leaves_ d1) with (leaves_ d). rewrite Hel.
    set (bottom := TopN.bottom_of (BeamComparer (beam_root_ d1)) y l0) in *.
    destruct (_ =? _)%nat eqn:Hsz.
    + intros i e Hi Hact'.
      destruct (decide (i = bottom)) as [->|Hib].
      * rewrite lookup_update_node_eq in Hi.
        destruct (beam_root_ (push_leaf c d1) !! bottom) as [e0|];
          [|discriminate].
        injection Hi as <-. rewrite Active_Reset_newp in Hact'. discriminate.
      * rewrite lookup_update_node_ne in Hi by exact Hib.
        destruct (HJ1 i e Hi Hact') as [Hin Hst]. split; [|exact Hst].
        destruct (Hkeep i Hin) as [Hk|[Hk _]]; [exact Hk|contradiction].
    + intros i e Hi Hact'.
      destruct (HJ1 i e Hi Hact') as [Hin Hst]. split; [|exact Hst].
      destruct (Hkeep i Hin) as [Hk|[_ Hk]]; [exact Hk|].
      apply Nat.eqb_neq in Hsz. contradiction.
  - intros i e Hi Hact'.
    destruct (decide (i = c)) as [->|Hic].
    + rewrite lookup_update_node_eq, Hc1 in Hi.
      injection Hi as <-. rewrite Active_Reset_newp in Hact'. discriminate.
    + rewrite lookup_update_node_ne, Hother in Hi by exact Hic.
      apply (HJ i e Hi Hact').
Qed.

Lemma grow_branch_growing `{!LogArithLaws} input bi (bs : list nat) b :
  returns (λ d, beam_ready d ∧ growing input bi bs d) (grow_branch input b)
    (λ _ d, beam_ready d ∧ growing input bi bs d).
Proof.
  apply returns_and; [apply grow_branch_ready|].
  intros d [Hd HJ].
  destruct (beam_root_ d !! b) as [be|] eqn:Hb.
  2: { exists tt, d. split; [|exact HJ].
       unfold grow_branch, bind, get. rewrite Hb. reflexivity. }
  rewrite (grow_branch_run input b d be) by (apply Hd || assumption).
  cbv zeta.
  destruct (admissible (oldp be) d); [|exists tt, d; auto].
  set (d' := if HasChildren be then d else PopulateChildren b _ d).
  assert (beam_ready d') as Hd' by (subst d'; destruct (HasChildren be); exact Hd).
  assert (growing input bi bs d') as HJ'.
  { subst d'. destruct (HasChildren be); [exact HJ|].
    apply PopulateChildren_growing, HJ. }
  destruct (beam_root_ d' !! b) as [be'|]; [|exists tt, d'; auto].
  destruct (returns_for_each (grow_child input b)
              (λ d, beam_ready d ∧ growing input bi bs d) (children be'))
    with (d := d') as (u & d'' & Heq & _ & HJ''); [|auto|].
  - intros c _. apply returns_and; [apply grow_child_ready|].
    apply grow_child_growing.
  - exists u, d''. auto.
Qed.

(** *** Step as a whole *)

(** After the second loop the leaves are the extracted branches again. *)
Lemma second_loop_leaves input d :
  beam_bounded d →
  let branches := TopN.Extract (BeamComparer (beam_root_ d)) (leaves_ d) in
  let d2 := foldl (λ d b, update_branch input b d)
              (foldl (λ d b, shift_probabilities b d)
                 (set_leaves d (TopN.Reset (leaves_ d))) branches) branches in
  TopN.elements (leaves_ d2) = branches ∧ beam_bounded d2.
Proof.
  intros [Hlim Hsize] branches d2.
  assert (length branches = TopN.size (leaves_ d)) as Hlen
    by apply Extract_length.
  assert (TopN.elements (leaves_ d2) = branches) as Hel.
  { subst d2. rewrite update_loop_elements; rewrite shift_loop_leaves; simpl.
    - reflexivity.
    - unfold TopN.size. simpl. lia. }
  split; [exact Hel|]. split.
  - subst d2. rewrite update_loop_limit, shift_loop_leaves,
      update_loop_beam_width, shift_loop_beam_width. exact Hlim.
  - unfold TopN.size. rewrite Hel. subst d2.
    rewrite update_loop_beam_width, shift_loop_beam_width. simpl. lia.
Qed.

(** After the second loop the active nodes are the branches, with the
    probabilities of this [Step]. *)
Lemma second_loop_growing input d :
  beam_bounded d → active_in_beam d →
  let branches := TopN.Extract (BeamComparer (beam_root_ d)) (leaves_ d) in
  let d2 := foldl (λ d b, update_branch input b d)
              (foldl (λ d b, shift_probabilities b d)
                 (set_leaves d (TopN.Reset (leaves_ d))) branches) branches in
  growing input (blank_index_ d) branches d2.
Proof.
  intros Hbd Hact branches d2 i e Hi Hacti.
  destruct (second_loop_leaves input d Hbd) as [Hel _]. fold branches d2 in Hel.
  rewrite Hel.
  destruct (decide (i ∈ branches)) as [Hin|Hnotin].
  - split; [exact Hin|].
    apply update_loop_stepped in Hi as [Htot Hbl]; [|exact Hin].
    rewrite shift_loop_blank_index in Hbl. simpl in Hbl.
    split; [exact Htot|]. left. split; assumption.
  - exfalso. apply Hnotin. apply Extract_elem.
    subst d2. rewrite update_loop_lookup_notin, shift_loop_lookup_notin in Hi
      by exact Hnotin.
    apply (Hact i e Hi Hacti).
Qed.

(** A [Step] on an input of the right size returns; it keeps the beam
    bounded, and the active nodes in the beam with the probabilities of the
    [Step]. *)
Lemma Step_invariant `{!LogArithLaws} (raw_input : Vector) d :
  beam_bounded d → active_in_beam d →
  num_classes_ d = Z.of_nat (length raw_input) →
  ∃ d', Step raw_input d = (Done tt, d') ∧ beam_bounded d' ∧
    growing (remove_max raw_input) (blank_index_ d)
      (TopN.Extract (BeamComparer (beam_root_ d)) (leaves_ d)) d'.
Proof.
  intros Hbd Hact Hsize. rewrite Step_run, Hsize, Z.eqb_refl. cbv zeta.
  pose proof (second_loop_leaves (remove_max raw_input) d Hbd) as [Hel Hbd2].
  pose proof (second_loop_growing (remove_max raw_input) d Hbd Hact) as HJ.
  cbv zeta in Hel, Hbd2, HJ.
  set (branches := TopN.Extract _ _) in *.
  set (d2 := foldl _ _ _) in *.
  destruct branches as [|b0 bs] eqn:Hbs.
  { exists d2. simpl. auto. }
  rewrite <- Hbs in *.
  destruct (returns_for_each (grow_branch (remove_max raw_input))
              (λ d', beam_ready d' ∧
                 growing (remove_max raw_input) (blank_index_ d) branches d')
              branches)
    with (d := d2) as (u & d' & Heq & [Hbd' _] & HJ').
  - intros b _. apply grow_branch_growing.
  - split; [split; [exact Hbd2|]|exact HJ]. rewrite Hel, Hbs. discriminate.
  - exists d'. destruct u. auto.
Qed.

Lemma growing_active_in_beam input bi (bs : list nat) d :
  growing input bi bs d → active_in_beam d.
Proof. intros HJ i e Hi Hact. apply (HJ i e Hi Hact). Qed.

Lemma Step_Done_size (raw_input : Vector) d d' :
  Step raw_input d = (Done tt, d') →
  num_classes_ d = Z.of_nat (length raw_input).
Proof.
  rewrite Step_run. destruct (Z.eqb_spec (num_classes_ d) (Z.of_nat (length raw_input)));
    [auto|discriminate].
Qed.

(** In a decoder in use the beam is bounded and holds every active node. *)
Lemma reachable_invariant `{!LogArithLaws} d :
  reachable d → beam_bounded d ∧ active_in_beam d.
Proof.
  induction 1 as [d d' Hlim Hpos Hreset|raw d d' _ [Hbd Hact] Hstep].
  - apply (Reset_invariant d d'); assumption.
  - destruct (Step_invariant raw d Hbd Hact (Step_Done_size _ _ _ Hstep))
      as (d'' & Heq & Hbd' & HJ).
    rewrite Hstep in Heq. injection Heq as <-.
    split; [exact Hbd'|]. eapply growing_active_in_beam, HJ.
Qed.

(** *** The shape of the tree *)

Lemma label_walk_fuel (nodes : list Entry) merge_repeated n m c prev_label :
  tree_ordered nodes → (c < n)%nat → (c < m)%nat →
  label_walk nodes merge_repeated n c prev_label =
  label_walk nodes merge_repeated m c prev_label.
Proof.
  intros Hord. revert m c prev_label.
  induction n as [|n IH]; intros m c prev_label Hn Hm; [lia|].
  destruct m as [|m]; [lia|]. simpl.
  destruct (nodes !! c) as [e|] eqn:He; [|reflexivity].
  destruct (parent e) as [p|] eqn:Hp; [|reflexivity].
  pose proof (Hord c e p He Hp). f_equal. apply IH; lia.
Qed.

Lemma tree_ordered_alter (f : Entry → Entry) b (nodes : list Entry) :
  (∀ e, parent (f e) = parent e) →
  tree_ordered nodes → tree_ordered (alter f b nodes).
Proof.
  intros Hf Hord i e' p Hi Hp.
  destruct (decide (i = b)) as [->|Hne].
  - rewrite list_lookup_alter_eq in Hi.
    destruct (nodes !! b) as [e|] eqn:He; [|discriminate].
    injection Hi as <-. rewrite Hf in Hp. apply (Hord b e p He Hp).
  - rewrite list_lookup_alter_ne in Hi by congruence. apply (Hord i e' p Hi Hp).
Qed.

Lemma tree_ordered_PopulateChildren b L d :
  (b < length (beam_root_ d))%nat →
  tree_ordered (beam_root_ d) →
  tree_ordered (beam_root_ (PopulateChildren b L d)).
Proof.
  intros Hb Hord. unfold PopulateChildren. simpl.
  apply tree_ordered_alter; [reflexivity|].
  intros i e p Hi Hp. apply lookup_app_Some in Hi as [Hi|[Hlen Hi]].
  - apply (Hord i e p Hi Hp).
  - apply list_elem_of_lookup_2, list_elem_of_In, in_map_iff in Hi
      as (k & <- & _).
    simpl in Hp. injection Hp as <-. lia.
Qed.

Lemma for_each_keeps {A} (f : A → Method unit) (Inv : Dec → Prop) (l : list A) :
  (∀ x d d', Inv d → f x d = (Done tt, d') → Inv d') →
  ∀ d d', Inv d → for_each f l d = (Done tt, d') → Inv d'.
Proof.
  intros Hf. induction l as [|x l IH]; intros d d' HI; simpl.
  - intros [= <-]. exact HI.
  - unfold bind. destruct (f x d) as [[[]|c] d1] eqn:Hx; [|discriminate].
    apply IH. apply (Hf x d d1 HI Hx).
Qed.

Lemma fold_keeps (f : nat → Dec → Dec) (Inv : Dec → Prop) (l : list nat) :
  (∀ b d, Inv d → Inv (f b d)) →
  ∀ d, Inv d → Inv (foldl (λ d b, f b d) d l).
Proof.
  intros Hf. induction l as [|b l IH]; intros d HI; simpl; [exact HI|].
  apply IH, Hf, HI.
Qed.

Lemma grow_child_ordered input b c d d' :
  tree_ordered (beam_root_ d) →
  grow_child input b c d = (Done tt, d') →
  tree_ordered (beam_root_ d').
Proof.
  intros Hord. unfold grow_child, bind at 1, get.
  destruct (beam_root_ d !! b) as [be|]; [|intros [= <-]; exact Hord].
  destruct (beam_root_ d !! c) as [ce|]; [|intros [= <-]; exact Hord].
  destruct (Active ce); [intros [= <-]; exact Hord|].
  unfold bind at 1, modify.
  set (d1 := update_node c _ d).
  assert (tree_ordered (beam_root_ d1)) as Hord1
    by (apply tree_ordered_alter; [reflexivity|exact Hord]).
  clearbody d1. clear Hord.
  unfold bind at 1, is_candidate, bind at 1, get.
  destruct (fgt _ kLogZero).
  - destruct (Nat.ltb _ _).
    + unfold ret at 1. unfold bind at 1, peek_bottom.
      destruct (TopN.peek_bottom _ _) as [bot|]; [|discriminate].
      unfold bind, modify, get, ret.
      destruct (Nat.eqb _ _); intros [= <-]; simpl;
        try (apply tree_ordered_alter; [reflexivity|]); exact Hord1.
    + unfold bind at 1, peek_bottom.
      destruct (TopN.peek_bottom _ _) as [bot|]; [|discriminate].
      unfold ret at 1. destruct (fgt _ _).
      * unfold bind at 1.
        unfold bind, modify, get, ret.
        destruct (TopN.peek_bottom _ _) as [bot'|]; [|discriminate].
        destruct (Nat.eqb _ _); intros [= <-]; simpl;
          try (apply tree_ordered_alter; [reflexivity|]); exact Hord1.
      * unfold modify. intros [= <-].
        apply tree_ordered_alter; [reflexivity|]; exact Hord1.
  - unfold ret, modify. intros [= <-].
    apply tree_ordered_alter; [reflexivity|]; exact Hord1.
Qed.

Lemma is_candidate_state prob d r d' :
  is_candidate prob d = (Done r, d') → d' = d.
Proof.
  unfold is_candidate, bind, get, ret, peek_bottom.
  destruct (fgt _ kLogZero); [|congruence].
  destruct (Nat.ltb _ _); [congruence|].
  destruct (TopN.peek_bottom _ _); [congruence|discriminate].
Qed.

Lemma grow_branch_ordered input b d d' :
  tree_ordered (beam_root_ d) →
  grow_branch input b d = (Done tt, d') →
  tree_ordered (beam_root_ d').
Proof.
  intros Hord. unfold grow_branch, bind at 1, get.
  destruct (beam_root_ d !! b) as [be|] eqn:Hb; [|intros [= <-]; exact Hord].
  unfold bind at 1.
  destruct (is_candidate (oldp be) d) as [[cand|c] d1] eqn:Hcand; [|discriminate].
  apply is_candidate_state in Hcand as ->.
  destruct cand; [|intros [= <-]; exact Hord].
  unfold bind at 1.
  set (m := if HasChildren be then _ else _).
  assert (∃ d2, m d = (Done tt, d2) ∧ tree_ordered (beam_root_ d2))
    as (d2 & -> & Hord2).
  { subst m. destruct (HasChildren be).
    - exists d. auto.
    - eexists. split; [reflexivity|].
      apply tree_ordered_PopulateChildren; [|exact Hord].
      apply lookup_lt_Some in Hb. exact Hb. }
  unfold bind at 1, get.
  destruct (beam_root_ d2 !! b) as [be'|]; [|intros [= <-]; exact Hord2].
  apply (for_each_keeps (grow_child input b)
           (λ d, tree_ordered (beam_root_ d))); [|exact Hord2].
  intros c. apply grow_child_ordered.
Qed.

Lemma Step_ordered (raw_input : Vector) d d' :
  tree_ordered (beam_root_ d) →
  Step raw_input d = (Done tt, d') →
  tree_ordered (beam_root_ d').
Proof.
  intros Hord. rewrite Step_run.
  destruct (_ =? _); [|discriminate]. cbv zeta.
  apply (for_each_keeps (grow_branch (remove_max raw_input))
           (λ d, tree_ordered (beam_root_ d))).
  - intros b. apply grow_branch_ordered.
  - apply (fold_keeps (update_branch (remove_max raw_input))
             (λ d, tree_ordered (beam_root_ d))).
    { intros b d0 H0. unfold update_branch. simpl.
      apply tree_ordered_alter; [reflexivity|exact H0]. }
    apply (fold_keeps shift_probabilities (λ d, tree_ordered (beam_root_ d))).
    { intros b d0 H0. apply tree_ordered_alter; [reflexivity|exact H0]. }
    exact Hord.
Qed.

Lemma reachable_ordered d : reachable d → tree_ordered (beam_root_ d).
Proof.
  induction 1 as [d d' _ _ Hreset|raw d d' _ Hord Hstep].
  - rewrite Reset_run in Hreset. injection Hreset as <-. simpl.
    intros [|i] e p; [|discriminate]. intros [= <-]. discriminate.
  - apply (Step_ordered raw d d' Hord Hstep).
Qed.

(** In a decoder in use the walk of [LabelSeq] from a node of the tree ends
    at the root before its bound is reached: a larger bound gives the same
    label sequence. *)
Lemma LabelSeq_bound d c merge_repeated n :
  reachable d → (c < length (beam_root_ d))%nat →
  (length (beam_root_ d) ≤ n)%nat →
  rev (label_walk (beam_root_ d) merge_repeated n c (-1)) =
  LabelSeq (beam_root_ d) c merge_repeated.
Proof.
  intros Hreach Hc Hn. unfold LabelSeq. f_equal.
  apply label_walk_fuel; [apply reachable_ordered, Hreach|lia..].
Qed.

(** *** The claims about [Step] *)

(** C1: in the second loop of [Step] (lines 184-210), an entry [b] of the
    extracted branches that is not the root and whose parent is active when
    [b] is reached gets as [newp.label] the [LogSumExp] of its current value
    and the scorer's expansion score, plus the log-probability of its own
    label; the previous probability given to the scorer is the parent's
    [oldp.blank] when [b] repeats the parent's label and the parent's
    [oldp.total] otherwise.  With an inactive parent the log-probability of
    the label alone is added, and the root keeps its [newp.label].  [pre]
    are the branches before [b], [post] the ones after it, [d] the decoder
    after the first loop. *)
Theorem Step_label_recurrence input (pre post : list nat) b d e :
  b ∉ post →
  let d_b := foldl (λ d b, update_branch input b d) d pre in
  beam_root_ d_b !! b = Some e →
  ∃ e', beam_root_ (foldl (λ d b, update_branch input b d) d (pre ++ b :: post))
          !! b = Some e' ∧
    match parent e with
    | None =>
      BeamProbability.label (newp e') = BeamProbability.label (newp e)
    | Some p =>
      ∀ pe, beam_root_ d_b !! p = Some pe →
        let previous :=
          if label e =? label pe then BeamProbability.blank (oldp pe)
          else BeamProbability.total (oldp pe) in
        (Active pe = true →
         BeamProbability.label (newp e') =
         fadd (LogSumExp (BeamProbability.label (newp e))
                 (GetStateExpansionScore (state e) previous))
           (coeff input (label e))) ∧
        (Active pe = false →
         BeamProbability.label (newp e') =
         fadd (BeamProbability.label (newp e)) (coeff input (label e)))
    end.
Proof.
  intros Hpost d_b He.
  rewrite foldl_app. simpl. fold d_b.
  rewrite update_loop_lookup_notin by exact Hpost.
  unfold update_branch. simpl. rewrite list_lookup_alter_eq, He. simpl.
  eexists. split; [reflexivity|]. simpl. unfold updated_label.
  destruct (parent e) as [p|]; [|reflexivity].
  intros pe Hpe. rewrite Hpe. split; intros ->; reflexivity.
Qed.

(** C8: [Step] checks the size of the input before it touches the decoder:
    on an input whose length is not [num_classes_] it stops at the check
    with the decoder as it was, and on an input of the right length it runs
    to the end. *)
Theorem Step_checks_size_first (raw_input : Vector) d :
  beam_bounded d →
  (num_classes_ d ≠ Z.of_nat (length raw_input) →
   Step raw_input d = (Fatal CHECK_EQ_num_classes_input_size, d)) ∧
  (num_classes_ d = Z.of_nat (length raw_input) →
   ∃ d', Step raw_input d = (Done tt, d')).
Proof.
  intros Hbd. rewrite Step_run. split; intros Hsize.
  - destruct (Z.eqb_spec (num_classes_ d) (Z.of_nat (length raw_input)));
      [contradiction|reflexivity].
  - rewrite Hsize, Z.eqb_refl. cbv zeta.
    pose proof (second_loop_leaves (remove_max raw_input) d Hbd) as [Hel Hbd2].
    cbv zeta in Hel, Hbd2.
    set (branches := TopN.Extract _ _) in *.
    set (d2 := foldl _ _ _) in *.
    destruct branches as [|b0 bs] eqn:Hbs.
    { exists d2. reflexivity. }
    rewrite <- Hbs in *.
    destruct (returns_for_each (grow_branch (remove_max raw_input)) beam_ready
                branches) with (d := d2) as (u & d' & Heq & _).
    + intros b _. apply grow_branch_ready.
    + split; [exact Hbd2|]. rewrite Hel, Hbs. discriminate.
    + exists d'. destruct u. exact Heq.
Qed.

(** C9: [Reset] leaves a tree that is a fresh root alone, with the label
    -1, [newp.total] and [newp.blank] equal to 0 and the state initialised
    by the scorer, and a beam whose only member is the root (the beam being
    built with a positive width). *)
Theorem Reset_fresh_root d :
  (0 < TopN.limit (leaves_ d))%nat →
  ∃ root d', Reset d = (Done tt, d') ∧
    beam_root_ d' = [root] ∧
    parent root = None ∧ label root = -1 ∧ children root = [] ∧
    BeamProbability.total (newp root) = fzero ∧
    BeamProbability.blank (newp root) = fzero ∧
    state root = InitializeState default_state ∧
    TopN.elements (leaves_ d') = [0%nat].
Proof.
  intros Hpos. rewrite Reset_run. eexists _, _. split; [reflexivity|].
  simpl. repeat split.
  rewrite push_below by (unfold TopN.size; simpl; lia). reflexivity.
Qed.

(** The admission test in words: the total is above the sentinel, and the
    beam is not full or the total is above the [newp.total] of the bottom. *)
Lemma admissible_true prob d :
  admissible prob d = true ↔
  fgt (BeamProbability.total prob) kLogZero = true ∧
  ((TopN.size (leaves_ d) < beam_width_ d)%nat ∨
   ∃ bottom,
     TopN.peek_bottom (BeamComparer (beam_root_ d)) (leaves_ d) = Some bottom ∧
     fgt (BeamProbability.total prob) (key (beam_root_ d) bottom) = true).
Proof.
  unfold admissible. rewrite andb_true_iff, orb_true_iff, Nat.ltb_lt.
  destruct (TopN.peek_bottom _ _) as [bottom|].
  - split; intros [H1 [H2|H2]]; split; auto.
    + right. eauto.
    + destruct H2 as (b' & [= <-] & H2). auto.
  - split; intros [H1 [H2|H2]]; split; auto.
    + discriminate.
    + destruct H2 as (b' & [=] & _).
Qed.

(** C4: in the third loop of [Step] (lines 218-267), on a beam that is not
    empty, (1) the admission test of a probability pair is that its total is
    above the sentinel and either the beam holds fewer than [beam_width_]
    entries or the total is above the [newp.total] of the current bottom;
    (2) a branch whose [oldp] fails the test is skipped, the decoder staying
    as it is; (3) a branch whose [oldp] passes gets its children when it has
    none, and every child is examined; (4) an active child is left alone,
    and an inactive child is pushed into the beam when its fresh [newp]
    passes the test, and otherwise has both probability pairs reset. *)
Theorem grow_branch_admission input b d be :
  TopN.elements (leaves_ d) ≠ [] →
  beam_root_ d !! b = Some be →
  (∀ prob,
     is_candidate prob d = (Done (admissible prob d), d) ∧
     (admissible prob d = true ↔
      fgt (BeamProbability.total prob) kLogZero = true ∧
      ((TopN.size (leaves_ d) < beam_width_ d)%nat ∨
       ∃ bottom,
         TopN.peek_bottom (BeamComparer (beam_root_ d)) (leaves_ d)
         = Some bottom ∧
         fgt (BeamProbability.total prob) (key (beam_root_ d) bottom)
         = true))) ∧
  (admissible (oldp be) d = false → grow_branch input b d = (Done tt, d)) ∧
  (admissible (oldp be) d = true →
   let d' := if HasChildren be then d
             else PopulateChildren b (num_classes_ d - 1) d in
   ∃ be', beam_root_ d' !! b = Some be' ∧
     (HasChildren be = false →
      children be' =
      seq (length (beam_root_ d)) (Z.to_nat (num_classes_ d - 1))) ∧
     grow_branch input b d = for_each (grow_child input b) (children be') d') ∧
  (∀ c ce, beam_root_ d !! c = Some ce →
     (Active ce = true → grow_child input b c d = (Done tt, d)) ∧
     (Active ce = false →
      let st := ExpandState (state be) (label be) (state ce) (label ce) in
      let previous :=
        if label ce =? label be then BeamProbability.blank (oldp be)
        else BeamProbability.total (oldp be) in
      let l := fadd (coeff input (label ce))
                 (GetStateExpansionScore st previous) in
      let p := BeamProbability.mk _ l kLogZero l in
      let d1 := update_node c (λ e, set_newp (set_state e st) p) d in
      ∃ d', grow_child input b c d = (Done tt, d') ∧
        if admissible p d1 then
          leaves_ d' = TopN.push (BeamComparer (beam_root_ d1)) c (leaves_ d)
        else
          leaves_ d' = leaves_ d ∧
          beam_root_ d' !! c =
          Some (mkBeamEntry (parent ce) (label ce) (children ce)
                  BeamProbability.init BeamProbability.init st))).
Proof.
  intros Hne Hb. split; [|split; [|split]].
  - intros prob. split; [apply is_candidate_run, Hne|apply admissible_true].
  - intros Hadm. rewrite (grow_branch_run input b d be), Hadm by assumption.
    reflexivity.
  - intros Hadm d'.
    rewrite (grow_branch_run input b d be), Hadm by assumption.
    cbv zeta. fold d'. subst d'.
    destruct (HasChildren be) eqn:Hhas.
    + exists be. rewrite Hb. split; [reflexivity|]. split; [discriminate|reflexivity].
    + unfold PopulateChildren at 1 3. simpl.
      rewrite list_lookup_alter_eq, (lookup_app_l_Some _ _ _ _ Hb). simpl.
      eexists. split; [reflexivity|]. split; reflexivity.
  - intros c ce Hc. split; intros Hact.
    + unfold grow_child, bind, get. rewrite Hb, Hc, Hact. reflexivity.
    + intros st previous l p d1.
      rewrite (grow_child_run input b c d be ce) by assumption. cbv zeta.
      fold st previous l p d1.
      eexists. split; [reflexivity|].
      destruct (admissible p d1).
      * destruct (_ =? _)%nat; [destruct (TopN.peek_bottom _ _)|]; reflexivity.
      * split; [reflexivity|].
        rewrite lookup_update_node_eq. subst d1.
        rewrite lookup_update_node_eq, Hc. reflexivity.
Qed.

(** *** TopPaths and Decode *)

Lemma lookup_map {A B} (f : A → B) (l : list A) i :
  map f l !! i = f <$> l !! i.
Proof.
  revert i. induction l as [|x l IH]; intros [|i]; simpl; auto.
Qed.

Lemma Sorted_adjacent {A} (R : A → A → Prop) (l : list A) i a b :
  Sorted R l → l !! i = Some a → l !! S i = Some b → R a b.
Proof.
  intros Hs. revert i. induction Hs as [|x l Hs IH Hhd]; intros i Ha Hb.
  - discriminate.
  - destruct i as [|i]; simpl in *.
    + injection Ha as <-. destruct Hhd as [|y l Hxy]; [discriminate|].
      simpl in Hb. injection Hb as <-. exact Hxy.
    + apply (IH i); assumption.
Qed.

(** The run of [TopPaths]: the two checks, then the [n] best leaves in
    descending order; the decoder stays as it is. *)
Lemma TopPaths_run n merge_repeated d :
  TopPaths n merge_repeated d =
  if (n <=? beam_width_ d)%nat then
    if (n <=? TopN.size (leaves_ d))%nat then
      let cmp := BeamComparer (beam_root_ d) in
      let branches :=
        take n (TopN.Extract cmp
                  (foldl (λ q b, TopN.push cmp b q) (TopN.mk n [])
                     (TopN.elements (leaves_ d)))) in
      (Done (map (λ b, LabelSeq (beam_root_ d) b merge_repeated) branches,
             map (key (beam_root_ d)) branches), d)
    else (Fatal CHECK_LE_n_leaves_size, d)
  else (Fatal CHECK_LE_n_beam_width, d).
Proof.
  unfold TopPaths, bind, get, CHECK.
  destruct (n <=? beam_width_ d)%nat; [|reflexivity].
  destruct (n <=? TopN.size (leaves_ d))%nat; reflexivity.
Qed.

(** The [n] best leaves are [n] leaves of the beam. *)
Lemma top_branches_leaves n d :
  (n ≤ TopN.size (leaves_ d))%nat →
  let cmp := BeamComparer (beam_root_ d) in
  let branches :=
    take n (TopN.Extract cmp
              (foldl (λ q b, TopN.push cmp b q) (TopN.mk n [])
                 (TopN.elements (leaves_ d)))) in
  length branches = n ∧ ∀ b, b ∈ branches → b ∈ TopN.elements (leaves_ d).
Proof.
  intros Hle cmp branches. subst branches. set (top := foldl _ _ _). split.
  - rewrite length_take, Extract_length. subst top.
    rewrite push_all_size by (unfold TopN.size; simpl; lia).
    unfold TopN.size in *. simpl. lia.
  - intros b Hb. apply list_elem_of_lookup in Hb as [i Hb].
    apply lookup_take_Some in Hb as [Hb _].
    apply list_elem_of_lookup_2, Extract_elem in Hb. subst top.
    apply push_all_elem in Hb as [Hb|Hb]; [exact Hb|].
    simpl in Hb. apply elem_of_nil in Hb as [].
Qed.

(** C7: [TopPaths] stops at a check, the decoder being as it was, when [n]
    exceeds the beam width or the number of leaves, as does [TopPaths(2, ...)]
    with a beam width of 1; otherwise it returns [n] label sequences and
    [n] log-probabilities, those of [n] leaves of the beam, in descending
    order of [newp.total], and leaves the decoder as it was. *)
Theorem TopPaths_checked `{!LogArithLaws} n merge_repeated d :
  ((beam_width_ d < n)%nat →
   TopPaths n merge_repeated d = (Fatal CHECK_LE_n_beam_width, d)) ∧
  ((n ≤ beam_width_ d)%nat → (TopN.size (leaves_ d) < n)%nat →
   TopPaths n merge_repeated d = (Fatal CHECK_LE_n_leaves_size, d)) ∧
  (beam_width_ d = 1%nat →
   TopPaths 2 merge_repeated d = (Fatal CHECK_LE_n_beam_width, d)) ∧
  ((n ≤ beam_width_ d)%nat → (n ≤ TopN.size (leaves_ d))%nat →
   ∃ branches,
     TopPaths n merge_repeated d =
     (Done (map (λ b, LabelSeq (beam_root_ d) b merge_repeated) branches,
            map (key (beam_root_ d)) branches), d) ∧
     length branches = n ∧
     (∀ b, b ∈ branches → b ∈ TopN.elements (leaves_ d)) ∧
     descending (map (key (beam_root_ d)) branches)).
Proof.
  rewrite !TopPaths_run. split; [|split; [|split]].
  - intros Hlt. destruct (Nat.leb_spec n (beam_width_ d)); [lia|reflexivity].
  - intros Hle Hlt. destruct (Nat.leb_spec n (beam_width_ d)); [|lia].
    destruct (Nat.leb_spec n (TopN.size (leaves_ d))); [lia|reflexivity].
  - intros ->. reflexivity.
  - intros Hle Hle'. destruct (Nat.leb_spec n (beam_width_ d)); [|lia].
    destruct (Nat.leb_spec n (TopN.size (leaves_ d))); [|lia].
    cbv zeta. set (cmp := BeamComparer (beam_root_ d)).
    set (top := foldl _ _ _).
    exists (take n (TopN.Extract cmp top)). split; [reflexivity|].
    split; [|split].
    + apply (top_branches_leaves n d). assumption.
    + apply (top_branches_leaves n d). assumption.
    + intros i x y. rewrite !lookup_map.
      destruct (take n _ !! i) as [a|] eqn:Ha; [|discriminate].
      destruct (take n _ !! S i) as [b|] eqn:Hb; [|discriminate].
      intros [= <-] [= <-].
      apply lookup_take_Some in Ha as [Ha _].
      apply lookup_take_Some in Hb as [Hb _].
      apply (Sorted_adjacent (λ a b, cmp b a = false)
               (TopN.Extract cmp top) i a b); [|assumption..].
      apply Extract_sorted. intros a' b'. apply BeamComparer_asym.
Qed.

Lemma zip_map_map {A B C} (f : A → B) (g : A → C) (l : list A) :
  zip (map f l) (map g l) = map (λ x, (f x, g x)) l.
Proof. induction l as [|x l IH]; simpl; [|rewrite IH]; reflexivity. Qed.

(** One sequence of the batch: every returned pair is the label sequence of
    a leaf of the final beam and the negation of its final [newp.total]. *)
Lemma decode_sequence_scores seq_len_b (rows : list Vector) top_n d out d' :
  decode_sequence seq_len_b rows top_n d = (Done out, d') →
  ∃ branches,
    length branches = top_n ∧
    (∀ b, b ∈ branches → b ∈ TopN.elements (leaves_ d')) ∧
    out = map (λ b, (LabelSeq (beam_root_ d') b (merge_repeated_ d'),
                     fneg (key (beam_root_ d') b))) branches.
Proof.
  unfold decode_sequence. unfold bind at 1. rewrite Reset_run.
  unfold bind at 1.
  destruct (for_each _ _ _) as [[[]|c] d2]; [|discriminate].
  unfold bind at 1, extract_leaves. unfold bind at 1, modify.
  unfold bind at 1, get.
  set (d3 := foldl _ _ _).
  unfold bind at 1. rewrite TopPaths_run.
  destruct (top_n <=? beam_width_ d3)%nat; [|discriminate].
  destruct (Nat.leb_spec top_n (TopN.size (leaves_ d3))) as [Hle|_];
    [|discriminate].
  destruct (top_branches_leaves top_n d3 Hle) as [Hlen Hin].
  cbv zeta in Hlen, Hin |- *. set (branches := take top_n _) in *.
  unfold bind, CHECK, ret, fatal.
  destruct (_ =? _)%nat; [|discriminate].
  destruct (_ =? _)%nat; [|discriminate].
  intros [= <- <-]. exists branches. split; [exact Hlen|]. split; [exact Hin|].
  rewrite map_map. apply zip_map_map.
Qed.

(** C6, as amended: for every sequence of the batch decoded by [Decode] and
    every returned path, the score is the negation of the final
    [newp.total] of the leaf whose label sequence is the path (nothing is
    said of the sign of the score). *)
Theorem Decode_scores (seq_len : list nat) (input : list (list Vector))
    top_n d outs d' :
  Decode seq_len input top_n d = (Done outs, d') →
  Forall (λ out, ∃ seq_len_b rows d0 dk branches,
            decode_sequence seq_len_b rows top_n d0 = (Done out, dk) ∧
            length branches = top_n ∧
            (∀ b, b ∈ branches → b ∈ TopN.elements (leaves_ dk)) ∧
            out = map (λ b, (LabelSeq (beam_root_ dk) b (merge_repeated_ dk),
                             fneg (key (beam_root_ dk) b))) branches) outs.
Proof.
  unfold Decode, bind at 1, get.
  generalize (seq 0 (batch_size_ d)) as bs. intros bs.
  revert d outs. induction bs as [|b bs IH]; intros d outs; simpl.
  - intros [= <- <-]. constructor.
  - unfold bind at 1.
    destruct (decode_sequence _ _ _ _) as [[out|c] d1] eqn:Hseq; [|discriminate].
    unfold bind at 1.
    destruct (decode_batch _ _ _ _ _) as [[outs'|c] d2] eqn:Hbatch;
      [|discriminate].
    intros [= <- <-]. constructor; [|apply (IH d1), Hbatch].
    destruct (decode_sequence_scores _ _ _ _ _ _ Hseq) as (branches & Hb).
    exists (nth b seq_len 0%nat), (map (λ m, nth b m []) input), d, d1, branches.
    split; [exact Hseq|exact Hb].
Qed.

(** *** Shifts of the input *)

Lemma maxCoeff_shift_aux (v rest : Vector) (c m : float) :
  shift_exact v c → m ∈ v → (∀ y, y ∈ rest → y ∈ v) →
  foldl (λ m y, if fgt y m then y else m) (fadd m c) (shift rest c) =
  fadd (foldl (λ m y, if fgt y m then y else m) m rest) c ∧
  foldl (λ m y, if fgt y m then y else m) m rest ∈ v.
Proof.
  intros Hex. revert m. induction rest as [|y rest IH]; intros m Hm Hrest; simpl.
  - auto.
  - assert (y ∈ v) as Hy by apply Hrest, list_elem_of_here.
    destruct (Hex y m Hy Hm) as [_ ->].
    destruct (fgt y m); apply IH; try assumption;
      intros z Hz; apply Hrest, list_elem_of_further, Hz.
Qed.

Lemma remove_max_shift (v : Vector) (c : float) :
  shift_exact v c → remove_max (shift v c) = remove_max v.
Proof.
  intros Hex. unfold remove_max.
  destruct v as [|x rest] eqn:Hv; [reflexivity|]. rewrite <- Hv in *.
  assert (maxCoeff (shift v c) = fadd (maxCoeff v) c ∧ maxCoeff v ∈ v)
    as [-> Hmax].
  { rewrite Hv. unfold maxCoeff. simpl. rewrite <- Hv.
    apply maxCoeff_shift_aux; [exact Hex|rewrite Hv; apply list_elem_of_here|].
    intros y Hy. rewrite Hv. apply list_elem_of_further, Hy. }
  unfold shift. rewrite map_map. apply map_ext_in.
  intros y Hy. apply list_elem_of_In in Hy.
  apply (Hex y (maxCoeff v) Hy Hmax).
Qed.

(** C10, as amended: [Step] subtracts the maximum coefficient from every
    coefficient of its input before it uses it, so [Step] on [v + c] and
    [Step] on [v] run alike, to the same decoder, whenever adding [c] to [v]
    loses nothing (the differences and the comparisons of the coefficients
    are the same before and after the shift). *)
Theorem Step_shift (v : Vector) (c : float) d :
  shift_exact v c → Step (shift v c) d = Step v d.
Proof.
  intros Hex. unfold Step. rewrite (remove_max_shift v c Hex). reflexivity.
Qed.
End Decoder_facts.

(** ** The examples, evaluated *)

(** Exact arithmetic has the laws the proofs use. *)
Lemma ExactLog_laws : @LogArithLaws ExactLog.
Proof.
  split.
  - intros x y. simpl. rewrite !negb_true_iff, !negb_false_iff.
    intros Hxy. apply Qle_bool_iff.
    destruct (Qlt_le_dec x y) as [Hlt|Hle]; [|exact Hle].
    apply Qlt_le_weak, Qle_bool_iff in Hlt. congruence.
  - intros x. reflexivity.
Qed.

(** On floats, [x < y] gives [y > x]. *)
Lemma SFcompare_Lt_Gt (x y : spec_float) :
  SFcompare x y = Some Lt → SFcompare y x = Some Gt.
Proof.
  destruct x as [sx|sx| |sx mx ex], y as [sy|sy| |sy my ey]; simpl;
    try discriminate;
    try (destruct sx; discriminate || reflexivity);
    try (destruct sy; discriminate || reflexivity);
    try (destruct sx, sy; discriminate || reflexivity).
  rewrite (Z.compare_antisym ex ey), !Pos.compare_cont_spec.
  rewrite (Pos.compare_antisym mx my). simpl.
  destruct sx, sy; try discriminate; try reflexivity;
    destruct (ex ?= ey); simpl; try discriminate; try reflexivity;
    destruct (mx ?= my)%positive; simpl; try discriminate; reflexivity.
Qed.

(** Binary32 has the laws too, once [LogSumExp] leaves its second operand
    as it is when the first is minus infinity. *)
Lemma Binary32_laws lse :
  (∀ x, lse (S754_infinity true) x = x) → @LogArithLaws (Binary32 lse).
Proof.
  intros Hlse. split; [|exact Hlse].
  intros x y. simpl. unfold SFltb.
  destruct (SFcompare y x) as [[| |]|] eqn:Hc; try discriminate.
  intros _. rewrite (SFcompare_Lt_Gt _ _ Hc). reflexivity.
Qed.

(** The decoder of the readmission example is a decoder in use. *)
Lemma readmission_reachable :
  @reachable ExactLog unit BaseBeamScorer ReadmissionExample.d3.
Proof.
  assert (@reachable ExactLog unit BaseBeamScorer ReadmissionExample.d0) as H0.
  { apply (reachable_Reset (@CTCBeamSearchDecoder4 ExactLog unit 3 2 1 false));
      [reflexivity|simpl; lia|reflexivity]. }
  assert (@reachable ExactLog unit BaseBeamScorer ReadmissionExample.d1) as H1.
  { apply (reachable_Step (nth 0 ReadmissionExample.rows []) _ _ H0).
    vm_compute. reflexivity. }
  assert (@reachable ExactLog unit BaseBeamScorer ReadmissionExample.d2) as H2.
  { apply (reachable_Step (nth 1 ReadmissionExample.rows []) _ _ H1).
    vm_compute. reflexivity. }
  apply (reachable_Step (nth 2 ReadmissionExample.rows []) _ _ H2).
  vm_compute. reflexivity.
Qed.

(** C1, at an example: in the second [Step] of Graves's example the node of
    the sequence [a] is reached after the root, which is active. *)
Lemma Step_label_recurrence_witness :
  ∃ e', beam_root_
          (foldl (λ d b, @update_branch ExactLog unit BaseBeamScorer
                           (@remove_max ExactLog GravesExample.P1) b d)
             GravesExample.in_second_step [0%nat; 1%nat])
        !! 1%nat = Some e' ∧
    BeamProbability.label (newp e') = (20 # 21)%Q.
Proof.
  destruct (@Step_label_recurrence ExactLog unit BaseBeamScorer
              (@remove_max ExactLog GravesExample.P1) [0%nat] [] 1%nat
              GravesExample.in_second_step
              (mkBeamEntry (Some 0%nat) 0 []
                 (BeamProbability.mk ExactLog (3 # 7) 0 (3 # 7))%Q
                 (BeamProbability.mk ExactLog (3 # 7) 0 (3 # 7))%Q tt))
    as (e' & He' & Hlabel).
  - apply not_elem_of_nil.
  - vm_compute. reflexivity.
  - exists e'. split; [exact He'|].
    destruct (Hlabel (mkBeamEntry None (-1) [1%nat]
                        (BeamProbability.mk ExactLog 1 1 0)%Q
                        (BeamProbability.mk ExactLog 1 1 0)%Q tt))
      as [Hactive _]; [vm_compute; reflexivity|].
    rewrite Hactive; vm_compute; reflexivity.
Defined.


(** C3, where the code departs from it: with two classes and a beam of
    width 2, the first [Step] after [Reset] pushes the child into a beam
    that holds the root alone; the beam is full after the push, the root,
    which was the bottom, has its [newp] reset and stays in the beam. *)
Lemma Step_resets_bottom_in_beam :
  let d := GravesExample.after_first_step 2 in
  (bind (@Reset ExactLog unit BaseBeamScorer) (λ _,
     @Step ExactLog unit BaseBeamScorer GravesExample.P0)
     (GravesExample.decoder 2)).1 = Done tt ∧
  TopN.elements (leaves_ d) = [0%nat; 1%nat] ∧
  @Active ExactLog unit <$> beam_root_ d !! 0%nat = Some false ∧
  ¬ beam_active d.
Proof.
  split; [vm_compute; reflexivity|]. split; [vm_compute; reflexivity|].
  split; [vm_compute; reflexivity|].
  intros Hact. destruct (Hact 0%nat) as (e & He & Hacte).
  - vm_compute. apply list_elem_of_here.
  - vm_compute in He. injection He as <-. vm_compute in Hacte. discriminate.
Qed.

(** C4, at an example: the root of Graves's example after the first [Step]. *)
Lemma grow_branch_admission_witness :
  @is_candidate ExactLog unit (BeamProbability.mk ExactLog 1 1 0)%Q
    (GravesExample.after_first_step 3) =
  (Done (admissible (BeamProbability.mk ExactLog 1 1 0)%Q
           (GravesExample.after_first_step 3)),
   GravesExample.after_first_step 3).
Proof.
  destruct (@grow_branch_admission ExactLog unit BaseBeamScorer
              (remove_max GravesExample.P1) 0%nat
              (GravesExample.after_first_step 3)
              (mkBeamEntry None (-1) [1%nat]
                 (BeamProbability.mk ExactLog 1 1 0)%Q
                 (BeamProbability.mk ExactLog 1 1 0)%Q tt)) as [Htest _].
  - vm_compute. discriminate.
  - vm_compute. reflexivity.
  - apply Htest.
Defined.

(** C5, as stated, fails: on Graves's example, with a beam of width 3, the
    log-probabilities returned for [a] and for the empty sequence are those
    of 29/21 and of 1, not those of 0.58 and of 0.42. *)
Lemma graves_probabilities_not_recovered :
  GravesExample.top_paths 3 = Done ([[0]; []], [29 # 21; 1]%Q) ∧
  GravesExample.top_paths 3 ≠ Done ([[0]; []], [58 # 100; 42 # 100]%Q) ∧
  GravesExample.top_paths 3 ≠ Done ([[0]; []], [29 # 50; 21 # 50]%Q).
Proof. split; [|split]; vm_compute; [reflexivity|discriminate..]. Qed.

(** C5, as amended: on Graves's example, with a beam of width 3 or more and
    the no-op scorer, the decoder ranks [a] above the empty sequence, and
    the log-probabilities it returns are those of 0.58 and of 0.42 divided
    by 0.7 * 0.6, the product of the maxima that [Step] subtracted: 29/21
    for [a] and 1 for the empty sequence. *)
Theorem graves_relative_probabilities (beam_width : nat) :
  (3 ≤ beam_width)%nat →
  GravesExample.top_paths beam_width = Done ([[0]; []], [29 # 21; 1]%Q) ∧
  (29 # 21 == (58 # 100) / ((7 # 10) * (6 # 10)))%Q ∧
  (1 == (42 # 100) / ((7 # 10) * (6 # 10)))%Q ∧
  @fgt ExactLog (29 # 21)%Q 1%Q = true.
Proof.
  intros Hbw. destruct beam_width as [|[|[|k]]]; try lia.
  repeat split; vm_compute; reflexivity.
Qed.

Lemma graves_relative_probabilities_witness :
  GravesExample.top_paths 3 = Done ([[0]; []], [29 # 21; 1]%Q).
Proof. apply (graves_relative_probabilities 3). lia. Defined.

(** C6, as stated, fails: on Graves's example [Decode] writes for the path
    [a] the score of 21/29, which is below 0, the score of 1. *)
Lemma Decode_negative_score :
  GravesExample.decoded 3 = Done [[([0], (21 # 29)%Q); ([], 1%Q)]] ∧
  @fgt ExactLog fzero (21 # 29)%Q = true.
Proof. split; vm_compute; reflexivity. Qed.

(** C6, at an example: [Decode] on Graves's example. *)
Lemma Decode_scores_witness :
  Forall (λ out, ∃ seq_len_b rows d0 dk branches,
            @decode_sequence ExactLog unit BaseBeamScorer seq_len_b rows 2 d0
            = (Done out, dk) ∧
            length branches = 2%nat ∧
            (∀ b, b ∈ branches → b ∈ TopN.elements (leaves_ dk)) ∧
            out = map (λ b, (LabelSeq (beam_root_ dk) b (merge_repeated_ dk),
                             fneg (key (beam_root_ dk) b))) branches)
    [[([0], (21 # 29)%Q); ([], 1%Q)]].
Proof.
  apply (@Decode_scores ExactLog unit BaseBeamScorer [2%nat]
           [[GravesExample.P0]; [GravesExample.P1]] 2
           (GravesExample.decoder 3) _
           (@Decode ExactLog unit BaseBeamScorer [2%nat]
              [[GravesExample.P0]; [GravesExample.P1]] 2
              (GravesExample.decoder 3)).2).
  vm_compute. reflexivity.
Defined.

(** C7, at an example: the two paths of Graves's example after one [Step]. *)
Lemma TopPaths_checked_witness :
  ∃ branches,
    @TopPaths ExactLog unit 2 false (GravesExample.after_first_step 3) =
    (Done (map (λ b, LabelSeq (beam_root_ (GravesExample.after_first_step 3))
                       b false) branches,
           map (key (beam_root_ (GravesExample.after_first_step 3))) branches),
     GravesExample.after_first_step 3) ∧
    length branches = 2%nat ∧
    (∀ b, b ∈ branches →
       b ∈ TopN.elements (leaves_ (GravesExample.after_first_step 3))) ∧
    descending
      (map (key (beam_root_ (GravesExample.after_first_step 3))) branches).
Proof.
  apply (@TopPaths_checked ExactLog unit ExactLog_laws 2 false
           (GravesExample.after_first_step 3)).
  - vm_compute. lia.
  - vm_compute. lia.
Defined.

(** C8, at an example: the decoder of Graves's example after [Reset]. *)
Lemma Step_checks_size_first_witness :
  let d := (@Reset ExactLog unit BaseBeamScorer (GravesExample.decoder 3)).2 in
  @Step ExactLog unit BaseBeamScorer [1%Q] d
  = (Fatal CHECK_EQ_num_classes_input_size, d) ∧
  ∃ d', @Step ExactLog unit BaseBeamScorer GravesExample.P0 d = (Done tt, d').
Proof.
  intros d.
  assert (beam_bounded d) as Hbd by (split; [reflexivity|vm_compute; lia]).
  split.
  - apply (proj1 (@Step_checks_size_first ExactLog unit BaseBeamScorer
                    [1%Q] d Hbd)).
    vm_compute. discriminate.
  - apply (proj2 (@Step_checks_size_first ExactLog unit BaseBeamScorer
                    GravesExample.P0 d Hbd)).
    reflexivity.
Defined.

(** C9, at an example: [Reset] of the decoder of Graves's example. *)
Lemma Reset_fresh_root_witness :
  ∃ root d',
    @Reset ExactLog unit BaseBeamScorer (GravesExample.decoder 3)
    = (Done tt, d') ∧
    beam_root_ d' = [root] ∧
    parent root = None ∧ label root = -1 ∧ children root = [] ∧
    BeamProbability.total (newp root) = 1%Q ∧
    BeamProbability.blank (newp root) = 1%Q ∧
    state root = tt ∧
    TopN.elements (leaves_ d') = [0%nat].
Proof.
  apply (@Reset_fresh_root ExactLog unit BaseBeamScorer
           (GravesExample.decoder 3)).
  simpl. lia.
Defined.

(** C10, as stated, fails on binary32, whatever [LogSumExp] is: the sum
    -1 + 2^25 is rounded to 2^25, so that [Step] on [0, -1] shifted by 2^25
    sees the input [0, 0] after the subtraction of the maximum, and gives
    the root a [newp.blank] of 0 and not of -1. *)
Lemma Step_shift_rounding :
  ¬ (∃ lse, ∀ (d : @Decoder (Binary32 lse) unit) (v : @Vector (Binary32 lse))
       (c : @float (Binary32 lse)),
       @Step (Binary32 lse) unit BaseBeamScorer (shift v c) d =
       @Step (Binary32 lse) unit BaseBeamScorer v d).
Proof.
  intros [lse Hall].
  specialize (Hall (RoundingExample.decoder lse) (RoundingExample.v lse)
                (RoundingExample.c lse)).
  apply (f_equal (λ r, BeamProbability.blank <$>
                         (newp <$> beam_root_ r.2 !! 0%nat))) in Hall.
  vm_compute in Hall. discriminate Hall.
Qed.

(** C10, at an example: doubling the probabilities of the first row of
    Graves's example, on exact arithmetic. *)
Lemma Step_shift_witness :
  let d := (@Reset ExactLog unit BaseBeamScorer (GravesExample.decoder 3)).2 in
  @Step ExactLog unit BaseBeamScorer
    (@shift ExactLog GravesExample.P0 (2 # 1)%Q) d =
  @Step ExactLog unit BaseBeamScorer GravesExample.P0 d.
Proof.
  intros d.
  apply (@Step_shift ExactLog unit BaseBeamScorer GravesExample.P0 (2 # 1)%Q d).
  intros x y Hx Hy.
  apply elem_of_cons in Hx as [->|Hx];
    [|apply list_elem_of_singleton in Hx as ->];
    (apply elem_of_cons in Hy as [->|Hy];
       [|apply list_elem_of_singleton in Hy as ->]);
    split; vm_compute; reflexivity.
Defined.

(** ** More facts about the decoder *)

Section Decoder_invariants.
Context `{LogArith} {CTCBeamState : Type} `{!BeamScorer CTCBeamState}.

Abbreviation Entry := (BeamEntry CTCBeamState).
Abbreviation Dec := (Decoder CTCBeamState).
Abbreviation Method := (@M _ CTCBeamState).
Implicit Types (d : Dec) (e : Entry) (input : Vector).

Lemma for_each_always {A} (f : A → Method unit) (Inv : Dec → Prop) (l : list A) :
  (∀ x r d d', x ∈ l → Inv d → f x d = (r, d') → Inv d') →
  ∀ r d d', Inv d → for_each f l d = (r, d') → Inv d'.
Proof.
  induction l as [|x l IH]; intros Hf r d d' HI; simpl.
  - intros [= <- <-]. exact HI.
  - unfold bind. destruct (f x d) as [[[]|c] d1] eqn:Hx.
    + apply IH; [|apply (Hf x _ d d1 (list_elem_of_here _ _) HI Hx)].
      intros y r0 e0 e1 Hy. apply Hf, list_elem_of_further, Hy.
    + intros [= <- <-]. apply (Hf x _ d d1 (list_elem_of_here _ _) HI Hx).
Qed.

Lemma fold_keeps_in (f : nat → Dec → Dec) (Inv : Dec → Prop) (l : list nat) :
  (∀ b d, b ∈ l → Inv d → Inv (f b d)) →
  ∀ d, Inv d → Inv (foldl (λ d b, f b d) d l).
Proof.
  induction l as [|b l IH]; intros Hf d HI; simpl; [exact HI|].
  apply IH.
  - intros b' d' Hb'. apply Hf, list_elem_of_further, Hb'.
  - apply Hf; [apply list_elem_of_here|exact HI].
Qed.

Lemma length_update_node b f d :
  length (beam_root_ (update_node b f d)) = length (beam_root_ d).
Proof. apply length_alter. Qed.

(** What the body of the third loop does to the decoder is made of three
    operations: an assignment to a node that keeps its place in the tree,
    a push of a node of the tree on the beam, and the creation of the
    children of the branch when it has none.  A property kept by the three
    is kept by the loop, whether it runs to its end or stops at a failed
    [CHECK]. *)
Lemma grow_child_always (Inv : Dec → Prop) input b c :
  (∀ i f d, keeps_shape f → Inv d → Inv (update_node i f d)) →
  (∀ i d, (i < length (beam_root_ d))%nat → Inv d → Inv (push_leaf i d)) →
  ∀ r d d', Inv d → grow_child input b c d = (r, d') → Inv d'.
Proof.
  intros Hupd Hpush r d d' HI. unfold grow_child, bind at 1, get.
  destruct (beam_root_ d !! b) as [be|]; [|intros [= <- <-]; exact HI].
  destruct (beam_root_ d !! c) as [ce|] eqn:Hc; [|intros [= <- <-]; exact HI].
  destruct (Active ce); [intros [= <- <-]; exact HI|].
  unfold bind at 1, modify.
  set (d1 := update_node c _ d).
  assert (Inv d1) as HI1 by (apply Hupd; [intros e; auto|exact HI]).
  assert (c < length (beam_root_ d1))%nat as Hc1.
  { unfold d1. rewrite length_update_node. apply lookup_lt_Some in Hc. exact Hc. }
  clearbody d1. clear HI Hc.
  assert (∀ bot, Inv (update_node bot
            (λ e, set_newp e (BeamProbability.Reset (newp e))) (push_leaf c d1)))
    as Hreset.
  { intros bot. apply Hupd; [intros e; auto|]. apply Hpush; assumption. }
  assert (Inv (update_node c (λ e,
            set_newp (set_oldp e (BeamProbability.Reset (oldp e)))
              (BeamProbability.Reset (newp e))) d1)) as Hdrop
    by (apply Hupd; [intros e; auto|exact HI1]).
  unfold bind at 1, is_candidate, bind at 1, get.
  destruct (fgt _ kLogZero).
  - destruct (Nat.ltb _ _).
    + unfold ret at 1. unfold bind at 1, peek_bottom.
      destruct (TopN.peek_bottom _ _) as [bot|]; [|intros [= <- <-]; exact HI1].
      unfold bind, modify, get, ret.
      destruct (Nat.eqb _ _); intros [= <- <-];
        [apply Hreset|apply Hpush; assumption].
    + unfold bind at 1, peek_bottom.
      destruct (TopN.peek_bottom _ _) as [bot|]; [|intros [= <- <-]; exact HI1].
      unfold ret at 1. destruct (fgt _ _).
      * unfold bind at 1.
        unfold bind, modify, get, ret.
        destruct (TopN.peek_bottom _ _) as [bot'|]; [|intros [= <- <-]; exact HI1].
        destruct (Nat.eqb _ _); intros [= <- <-];
          [apply Hreset|apply Hpush; assumption].
      * unfold modify. intros [= <- <-]. exact Hdrop.
  - unfold ret, modify. intros [= <- <-]. exact Hdrop.
Qed.

Lemma is_candidate_always prob d r d' :
  is_candidate prob d = (r, d') → d' = d.
Proof.
  unfold is_candidate, bind, get, ret, peek_bottom.
  destruct (fgt _ kLogZero); [|congruence].
  destruct (Nat.ltb _ _); [congruence|].
  destruct (TopN.peek_bottom _ _); congruence.
Qed.

Lemma grow_branch_always (Inv : Dec → Prop) input b :
  (∀ i f d, keeps_shape f → Inv d → Inv (update_node i f d)) →
  (∀ i d, (i < length (beam_root_ d))%nat → Inv d → Inv (push_leaf i d)) →
  (∀ d be, beam_root_ d !! b = Some be → children be = [] → Inv d →
     Inv (PopulateChildren b (num_classes_ d - 1) d)) →
  ∀ r d d', Inv d → grow_branch input b d = (r, d') → Inv d'.
Proof.
  intros Hupd Hpush Hpop r d d' HI. unfold grow_branch, bind at 1, get.
  destruct (beam_root_ d !! b) as [be|] eqn:Hb; [|intros [= <- <-]; exact HI].
  unfold bind at 1.
  destruct (is_candidate (oldp be) d) as [[cand|c] d1] eqn:Hcand;
    apply is_candidate_always in Hcand as ->; [|intros [= <- <-]; exact HI].
  destruct cand; [|intros [= <- <-]; exact HI].
  unfold bind at 1.
  set (m := if HasChildren be then _ else _).
  assert (∃ d2, m d = (Done tt, d2) ∧ Inv d2) as (d2 & -> & HI2).
  { subst m. unfold HasChildren. destruct (children be) eqn:Hch.
    - eexists. split; [reflexivity|]. apply (Hpop d be Hb Hch HI).
    - exists d. auto. }
  unfold bind at 1, get.
  destruct (beam_root_ d2 !! b) as [be'|]; [|intros [= <- <-]; exact HI2].
  apply (for_each_always (grow_child input b) Inv); [|exact HI2].
  intros c r0 e0 e1 _. apply grow_child_always; assumption.
Qed.

(** The same for a whole [Step]: with an assignment that keeps the shape,
    a push of a node of the tree, the clearing of the beam and the creation
    of the children of a branch of the beam. *)
Lemma Step_always (Inv : Dec → Prop) (raw_input : Vector) :
  (∀ i f d, keeps_shape f → Inv d → Inv (update_node i f d)) →
  (∀ i d, Inv d → Inv (push_leaf i d)) →
  (∀ d, Inv d → Inv (set_leaves d (TopN.Reset (leaves_ d)))) →
  (∀ b d be, beam_root_ d !! b = Some be → children be = [] → Inv d →
     Inv (PopulateChildren b (num_classes_ d - 1) d)) →
  ∀ r d d', Inv d → Step raw_input d = (r, d') → Inv d'.
Proof.
  intros Hupd Hpush Hclear Hpop r d d' HI. rewrite Step_run.
  destruct (_ =? _); [|intros [= <- <-]; exact HI]. cbv zeta.
  apply (for_each_always (grow_branch (remove_max raw_input)) Inv).
  - intros b r0 e0 e1 _. apply grow_branch_always;
      [exact Hupd|intros i d0 _; apply Hpush|apply Hpop].
  - apply (fold_keeps (update_branch (remove_max raw_input)) Inv).
    { intros b d0 H0. unfold update_branch. apply Hpush, Hupd; [|exact H0].
      intros e; auto. }
    apply (fold_keeps shift_probabilities Inv).
    { intros b d0 H0. apply Hupd; [intros e; auto|exact H0]. }
    apply Hclear, HI.
Qed.


(** *** The configuration *)

Lemma same_config_refl d : same_config d d.
Proof. repeat split. Qed.

Lemma same_config_trans d1 d2 d3 :
  same_config d1 d2 → same_config d2 d3 → same_config d1 d3.
Proof.
  intros (?&?&?&?&?&?) (?&?&?&?&?&?). repeat split; congruence.
Qed.

Lemma same_config_update_node d0 i f d :
  same_config d0 d → same_config d0 (update_node i f d).
Proof. intros Hc. exact Hc. Qed.

Lemma same_config_push_leaf d0 i d :
  same_config d0 d → same_config d0 (push_leaf i d).
Proof.
  intros (?&?&?&?&?&Hl). repeat split; try assumption.
  unfold push_leaf. simpl. rewrite push_limit. exact Hl.
Qed.

Lemma Step_same_config (raw_input : Vector) r d d' :
  Step raw_input d = (r, d') → same_config d d'.
Proof.
  apply (Step_always (same_config d)).
  - intros i f d0 _. apply same_config_update_node.
  - intros i d0. apply same_config_push_leaf.
  - intros d0 Hc. exact Hc.
  - intros b d0 be _ _ Hc. exact Hc.
  - apply same_config_refl.
Qed.

Lemma Reset_same_config d : same_config d (Reset d).2.
Proof.
  rewrite Reset_run. repeat split. cbn [snd leaves_]. rewrite push_limit.
  reflexivity.
Qed.

Lemma TopPaths_state n merge_repeated d : (TopPaths n merge_repeated d).2 = d.
Proof.
  rewrite TopPaths_run. destruct (_ <=? _)%nat; [|reflexivity].
  destruct (_ <=? _)%nat; reflexivity.
Qed.

Lemma finish_loop_same_config (l : list nat) d0 d :
  same_config d0 d → same_config d0 (foldl (λ d b, finish_branch b d) d l).
Proof.
  apply (fold_keeps finish_branch (same_config d0)).
  intros b d1 Hc. unfold finish_branch. cbv zeta.
  apply same_config_push_leaf. exact Hc.
Qed.

Lemma steps_same_config (rows : nat → Vector) (l : list nat) r d d' :
  for_each (λ t, Step (rows t)) l d = (r, d') → same_config d d'.
Proof.
  apply (for_each_always (λ t, Step (rows t)) (same_config d));
    [|apply same_config_refl].
  intros t r0 d1 d2 _ Hc Hstep.
  apply (same_config_trans _ _ _ Hc), (Step_same_config _ _ _ _ Hstep).
Qed.

Lemma decode_sequence_same_config seq_len_b (rows : list Vector) top_n r d d' :
  decode_sequence seq_len_b rows top_n d = (r, d') → same_config d d'.
Proof.
  unfold decode_sequence, bind at 1.
  pose proof (Reset_same_config d) as HR.
  destruct (Reset d) as [[[]|c] dR] eqn:HRd; [|intros [= <- <-]; exact HR].
  cbn [snd] in HR. unfold bind at 1.
  destruct (for_each _ _ dR) as [[[]|c] dS] eqn:HS;
    apply steps_same_config in HS;
    pose proof (same_config_trans _ _ _ HR HS) as HRS;
    [|intros [= <- <-]; exact HRS].
  unfold bind at 1, extract_leaves. unfold bind at 1, modify.
  set (dF := foldl _ _ _).
  assert (same_config d dF) as HF.
  { apply finish_loop_same_config. exact HRS. }
  clearbody dF. unfold bind at 1, get. unfold bind at 1.
  pose proof (TopPaths_state top_n (merge_repeated_ dF) dF) as HT.
  destruct (TopPaths _ _ dF) as [[[beams probs]|c] dT]; cbn [snd] in HT;
    subst dT; [|intros [= <- <-]; exact HF].
  unfold bind, CHECK, ret, fatal.
  destruct (_ =? _)%nat; [|intros [= <- <-]; exact HF].
  destruct (_ =? _)%nat; intros [= <- <-]; exact HF.
Qed.

Lemma decode_batch_same_config (seq_len : list nat) (input : list (list Vector))
    top_n (bs : list nat) r d d' :
  decode_batch seq_len input top_n bs d = (r, d') → same_config d d'.
Proof.
  revert r d d'. induction bs as [|b bs IH]; intros r d d'; simpl.
  - intros [= <- <-]. apply same_config_refl.
  - unfold bind at 1.
    destruct (decode_sequence _ _ _ d) as [[out|c] d1] eqn:H1;
      apply decode_sequence_same_config in H1;
      [|intros [= <- <-]; exact H1].
    unfold bind at 1.
    destruct (decode_batch _ _ _ bs d1) as [[outs|c] d2] eqn:H2;
      apply IH in H2; intros [= <- <-];
      apply (same_config_trans _ _ _ H1 H2).
Qed.

(** X6: the methods never change the configuration of the decoder (the number
    of classes, the batch size, the merge flag, the blank index, the beam
    width and the limit of the best-N list), whether they return or stop at
    a failed [CHECK]. *)
Theorem methods_keep_configuration d :
  same_config d (Reset d).2 ∧
  (∀ raw_input : Vector, same_config d (Step raw_input d).2) ∧
  (∀ n merge_repeated, (TopPaths n merge_repeated d).2 = d) ∧
  (∀ seq_len (input : list (list Vector)) top_n,
     same_config d (Decode seq_len input top_n d).2).
Proof.
  split; [apply Reset_same_config|]. split; [|split].
  - intros raw. destruct (Step raw d) as [r d'] eqn:Hs.
    apply (Step_same_config _ _ _ _ Hs).
  - intros n merge_repeated. apply TopPaths_state.
  - intros seq_len input top_n. unfold Decode, bind, get.
    destruct (decode_batch _ _ _ _ d) as [r d'] eqn:Hd.
    apply (decode_batch_same_config _ _ _ _ _ _ _ Hd).
Qed.

(** *** The tree only grows *)

Lemma tree_extends_refl (nodes : list Entry) : tree_extends nodes nodes.
Proof. intros i e Hi. exists e. auto. Qed.

Lemma tree_extends_alter (nodes0 nodes : list Entry) f b :
  keeps_shape f → tree_extends nodes0 nodes →
  tree_extends nodes0 (alter f b nodes).
Proof.
  intros Hf Hext i e Hi. destruct (Hext i e Hi) as (e' & Hi' & Hp & Hl & Hc).
  destruct (decide (i = b)) as [->|Hne].
  - exists (f e'). rewrite list_lookup_alter_eq, Hi'.
    destruct (Hf e') as (-> & -> & ->). auto.
  - exists e'. rewrite list_lookup_alter_ne by congruence. auto.
Qed.

Lemma tree_extends_PopulateChildren (nodes0 : list Entry) b L d be :
  beam_root_ d !! b = Some be → children be = [] →
  tree_extends nodes0 (beam_root_ d) →
  tree_extends nodes0 (beam_root_ (PopulateChildren b L d)).
Proof.
  intros Hb Hch Hext i e Hi. destruct (Hext i e Hi) as (e' & Hi' & Hp & Hl & Hc).
  unfold PopulateChildren. cbn [beam_root_ set_nodes].
  destruct (decide (i = b)) as [->|Hne].
  - rewrite Hb in Hi'. injection Hi' as <-.
    exists (set_children be (seq (length (beam_root_ d)) (Z.to_nat L))).
    rewrite list_lookup_alter_eq, lookup_app_l by (eapply lookup_lt_Some, Hb).
    rewrite Hb. repeat split; try assumption.
    intros Hne. specialize (Hc Hne). congruence.
  - exists e'. rewrite list_lookup_alter_ne by congruence.
    rewrite lookup_app_l by (eapply lookup_lt_Some, Hi'). auto.
Qed.

(** X4: [Step] never removes a node from the tree and never moves one: every
    node is found at the same place afterwards, with the same parent and
    label, and with the same children if it had some, whether [Step]
    returns or stops at a failed [CHECK]. *)
Theorem Step_keeps_tree (raw_input : Vector) d :
  tree_extends (beam_root_ d) (beam_root_ (Step raw_input d).2).
Proof.
  destruct (Step raw_input d) as [r d'] eqn:Hs. cbn [snd]. revert Hs.
  apply (Step_always (λ d', tree_extends (beam_root_ d) (beam_root_ d'))).
  - intros i f d0 Hf. apply tree_extends_alter, Hf.
  - intros i d0 Hext. exact Hext.
  - intros d0 Hext. exact Hext.
  - intros b d0 be. apply tree_extends_PopulateChildren.
  - apply tree_extends_refl.
Qed.

(** *** Labels *)

Lemma labels_in_range_update_node i f d :
  (∀ e, parent (f e) = parent e ∧ label (f e) = label e) →
  labels_in_range d → labels_in_range (update_node i f d).
Proof.
  intros Hf Hr j e' p Hj Hp. unfold update_node in Hj. cbn in Hj.
  destruct (decide (j = i)) as [->|Hne].
  - rewrite list_lookup_alter_eq in Hj.
    destruct (beam_root_ d !! i) as [e|] eqn:He; [|discriminate].
    injection Hj as <-. destruct (Hf e) as (Hpe & ->). rewrite Hpe in Hp.
    apply (Hr i e p He Hp).
  - rewrite list_lookup_alter_ne in Hj by congruence. apply (Hr j e' p Hj Hp).
Qed.

Lemma labels_in_range_PopulateChildren b d :
  labels_in_range d →
  labels_in_range (PopulateChildren b (num_classes_ d - 1) d).
Proof.
  intros Hr. unfold PopulateChildren. cbv zeta.
  apply (labels_in_range_update_node b _
           (set_nodes d (beam_root_ d ++ map (new_child b)
                           (seq 0 (Z.to_nat (num_classes_ d - 1)))))).
  { intros e. auto. }
  intros j e p Hj Hp. cbn in Hj |- *.
  apply lookup_app_Some in Hj as [Hj|[_ Hj]]; [apply (Hr j e p Hj Hp)|].
  apply list_elem_of_lookup_2, list_elem_of_In, in_map_iff in Hj
    as (k & <- & Hk).
  apply in_seq in Hk. cbn. lia.
Qed.

Lemma Step_labels_in_range (raw_input : Vector) r d d' :
  labels_in_range d → Step raw_input d = (r, d') → labels_in_range d'.
Proof.
  apply (Step_always labels_in_range).
  - intros i f d0 Hf. apply labels_in_range_update_node.
    intros e. destruct (Hf e) as (? & ? & _). auto.
  - intros i d0 Hr. exact Hr.
  - intros d0 Hr. exact Hr.
  - intros b d0 be _ _. apply labels_in_range_PopulateChildren.
Qed.

(** X5: in a decoder in use every node but the root has a label that is
    not negative and below [num_classes_ - 1]: what [Step] reads with
    [input(label)] is a coefficient of the row, whose size it has checked to
    be [num_classes_]. *)
Theorem labels_within_row d i e p :
  reachable d →
  beam_root_ d !! i = Some e → parent e = Some p →
  0 ≤ label e < num_classes_ d - 1.
Proof.
  intros Hreach. revert i e p. change (labels_in_range d).
  induction Hreach as [d d' _ _ Hreset|raw d d' _ IH Hstep].
  - rewrite Reset_run in Hreset. injection Hreset as <-.
    intros [|i] e p; [|discriminate]. intros [= <-]. discriminate.
  - apply (Step_labels_in_range raw _ d d' IH Hstep).
Qed.

(** *** The beam *)

Lemma beam_valid_update_node i f d :
  beam_valid d → beam_valid (update_node i f d).
Proof. intros Hv j Hj. rewrite length_update_node. apply Hv, Hj. Qed.

Lemma beam_valid_push_leaf i d :
  (i < length (beam_root_ d))%nat → beam_valid d → beam_valid (push_leaf i d).
Proof.
  intros Hi Hv j Hj. unfold push_leaf in Hj. cbn in Hj.
  apply push_elem in Hj as [->|Hj]; [exact Hi|apply Hv, Hj].
Qed.

Lemma beam_valid_PopulateChildren b L d :
  beam_valid d → beam_valid (PopulateChildren b L d).
Proof.
  intros Hv j Hj. unfold PopulateChildren. cbn.
  rewrite length_alter, length_app. specialize (Hv j Hj). lia.
Qed.

Lemma Step_beam_valid (raw_input : Vector) r d d' :
  beam_valid d → Step raw_input d = (r, d') → beam_valid d'.
Proof.
  intros Hv. rewrite Step_run.
  destruct (_ =? _); [|intros [= <- <-]; exact Hv]. cbv zeta.
  apply (for_each_always (grow_branch (remove_max raw_input)) beam_valid).
  { intros b r0 d0 d1 _. apply grow_branch_always.
    - intros i f d2 _. apply beam_valid_update_node.
    - apply beam_valid_push_leaf.
    - intros d2 be _ _. apply beam_valid_PopulateChildren. }
  set (branches := TopN.Extract _ _).
  apply (fold_keeps_in (update_branch (remove_max raw_input))
           (λ d', beam_valid d' ∧ length (beam_root_ d') = length (beam_root_ d))).
  { intros b d0 Hb [Hv0 Hlen]. unfold update_branch. split.
    - apply beam_valid_push_leaf, beam_valid_update_node, Hv0.
      rewrite length_update_node, Hlen. apply Hv.
      apply Extract_elem in Hb. exact Hb.
    - cbn. rewrite length_alter. exact Hlen. }
  apply (fold_keeps shift_probabilities
           (λ d', beam_valid d' ∧ length (beam_root_ d') = length (beam_root_ d))).
  { intros b d0 [Hv0 Hlen]. split; [apply beam_valid_update_node, Hv0|].
    unfold shift_probabilities. rewrite length_update_node. exact Hlen. }
  split; [|reflexivity]. intros j Hj. cbn in Hj. apply elem_of_nil in Hj as [].
Qed.

Lemma reachable_beam_valid d : reachable d → beam_valid d.
Proof.
  induction 1 as [d d' Hlim Hpos Hreset|raw d d' _ IH Hstep].
  - rewrite Reset_run in Hreset. injection Hreset as <-.
    intros j Hj. cbn in Hj. apply push_elem in Hj as [->|Hj]; [cbn; lia|].
    cbn in Hj. apply elem_of_nil in Hj as [].
  - apply (Step_beam_valid raw _ d d' IH Hstep).
Qed.

(** X2: in a decoder in use (after [Reset] and any number of [Step]s)
    every active node of the tree is a leaf of the beam, and every reference
    of the beam points to a node of the tree. *)
Theorem reachable_beam `{!LogArithLaws} d :
  reachable d → active_in_beam d ∧ beam_valid d.
Proof.
  intros Hreach. split.
  - apply reachable_invariant, Hreach.
  - apply reachable_beam_valid, Hreach.
Qed.


(** *** Decode *)

Lemma Reset_same d1 d2 : same_config d1 d2 → Reset d1 = Reset d2.
Proof.
  intros (Hn & Hb & Hm & Hi & Hw & Hl). rewrite !Reset_run.
  rewrite Hn, Hb, Hm, Hi, Hw, Hl. reflexivity.
Qed.

Lemma decode_sequence_same seq_len_b (rows : list Vector) top_n d1 d2 :
  same_config d1 d2 →
  decode_sequence seq_len_b rows top_n d1 =
  decode_sequence seq_len_b rows top_n d2.
Proof.
  intros Hc. unfold decode_sequence, bind at 1. symmetry. unfold bind at 1.
  rewrite (Reset_same d1 d2 Hc). reflexivity.
Qed.

(** X7: [Decode] starts every sequence with [Reset]: what it returns depends
    on the configuration of the decoder only, not on the tree and the beam
    that earlier calls have left. *)
Theorem Decode_forgets_history (seq_len : list nat)
    (input : list (list Vector)) top_n d1 d2 :
  same_config d1 d2 →
  (Decode seq_len input top_n d1).1 = (Decode seq_len input top_n d2).1.
Proof.
  intros Hc. unfold Decode, bind at 1, get. symmetry. unfold bind at 1, get.
  destruct Hc as (Hn & Hb & Hrest). rewrite Hb.
  destruct (seq 0 (batch_size_ d1)) as [|b bs]; [reflexivity|].
  cbn [decode_batch]. unfold bind at 1. symmetry. unfold bind at 1.
  rewrite (decode_sequence_same _ _ _ d1 d2) by (split; [|split]; assumption).
  reflexivity.
Qed.

Lemma decode_sequence_top_n seq_len_b (rows : list Vector) top_n d :
  (beam_width_ d < top_n)%nat →
  ∃ c d', decode_sequence seq_len_b rows top_n d = (Fatal c, d').
Proof.
  intros Hlt. unfold decode_sequence, bind at 1.
  pose proof (Reset_same_config d) as HR.
  destruct (Reset d) as [[[]|c] dR] eqn:HRd; [|eauto].
  cbn [snd] in HR. unfold bind at 1.
  destruct (for_each _ _ dR) as [[[]|c] dS] eqn:HS; [|eauto].
  apply steps_same_config in HS.
  pose proof (same_config_trans _ _ _ HR HS) as HRS.
  unfold bind at 1, extract_leaves. unfold bind at 1, modify.
  set (dF := foldl _ _ _).
  assert (same_config d dF) as HF.
  { apply finish_loop_same_config. exact HRS. }
  clearbody dF. unfold bind at 1, get. unfold bind at 1.
  rewrite TopPaths_run. destruct HF as (_ & _ & _ & _ & Hw & _).
  rewrite Hw. destruct (Nat.leb_spec top_n (beam_width_ d)); [lia|eauto].
Qed.

(** X11: [Decode] asked for more paths than the beam width, on a batch that is
    not empty, does not return: it stops at a failed [CHECK]. *)
Theorem Decode_more_than_beam_width (seq_len : list nat)
    (input : list (list Vector)) top_n d :
  (beam_width_ d < top_n)%nat → (0 < batch_size_ d)%nat →
  ∃ c d', Decode seq_len input top_n d = (Fatal c, d').
Proof.
  intros Hlt Hbs. unfold Decode, bind at 1, get.
  destruct (batch_size_ d) as [|n]; [lia|]. cbn [seq decode_batch].
  unfold bind at 1.
  destruct (decode_sequence_top_n (nth 0%nat seq_len 0%nat)
              (map (λ m, nth 0%nat m []) input) top_n d Hlt) as (c & d' & ->).
  eauto.
Qed.

(** X10: a sequence of length 0: [Decode]'s round for it gives, asked for one
    path, the empty label sequence with the score of the root after the
    end-of-sequence adjustment, asked for none, nothing, and stops at a
    failed [CHECK] when asked for more. *)
Theorem decode_empty_sequence (rows : list Vector) d :
  TopN.limit (leaves_ d) = beam_width_ d → (0 < beam_width_ d)%nat →
  (decode_sequence 0 rows 0 d).1 = Done [] ∧
  (decode_sequence 0 rows 1 d).1 =
    Done [([], fneg (fadd fzero
                 (GetStateEndExpansionScore
                    (ExpandStateEnd (InitializeState default_state)))))] ∧
  (∀ n, ∃ c, (decode_sequence 0 rows (S (S n)) d).1 = Fatal c).
Proof.
  intros Hlim Hpos.
  destruct d as [nc bs mr bi bw [lim els] nodes]. cbn in Hlim, Hpos. subst lim.
  destruct bw as [|bw]; [lia|].
  split; [reflexivity|]. split; [reflexivity|].
  intros n. unfold decode_sequence, bind at 1. rewrite Reset_run.
  cbn [for_each seq]. unfold bind at 1, ret at 1.
  unfold bind at 1, extract_leaves. unfold bind at 1, modify.
  unfold bind at 1, get. unfold bind at 1. rewrite TopPaths_run.
  destruct (_ <=? _)%nat; [|eauto]. cbn. eauto.
Qed.

(** *** Before the first [Reset] *)

(** X9: the four-argument constructor does not call [Reset]: the decoder it
    builds has no tree and an empty beam.  On it [Step] checks the size of
    the row and does nothing else, and [TopPaths] stops at a failed [CHECK]
    unless it is asked for no path. *)
Theorem Step_before_Reset num_classes beam_width batch_size merge_repeated
    (raw_input : Vector) n merge :
  let d : Dec := CTCBeamSearchDecoder4 num_classes beam_width batch_size
                   merge_repeated in
  Step raw_input d =
    (if num_classes =? Z.of_nat (length raw_input) then Done tt
     else Fatal CHECK_EQ_num_classes_input_size, d) ∧
  TopPaths 0 merge d = (Done ([], []), d) ∧
  TopPaths (S n) merge d =
    (Fatal (if (S n <=? beam_width)%nat then CHECK_LE_n_leaves_size
            else CHECK_LE_n_beam_width), d).
Proof.
  intros d. split; [|split].
  - rewrite Step_run. cbn. destruct (_ =? _); reflexivity.
  - reflexivity.
  - rewrite TopPaths_run. cbn [beam_width_ d CTCBeamSearchDecoder4 leaves_].
    destruct (_ <=? _)%nat; reflexivity.
Qed.

(** *** Eviction *)

(** X8: an inactive child that passes the admission test on a full beam takes
    the place of the bottom of the beam: the beam afterwards is the beam
    before without the bottom and with the child, the bottom has its [newp]
    reset, and no other node is touched after the child's own update. *)
Theorem grow_child_evicts_bottom `{!LogArithLaws} input b c d be ce y l :
  TopN.limit (leaves_ d) = beam_width_ d →
  TopN.elements (leaves_ d) = y :: l →
  length (y :: l) = beam_width_ d →
  beam_root_ d !! b = Some be →
  beam_root_ d !! c = Some ce →
  Active ce = false →
  let st := ExpandState (state be) (label be) (state ce) (label ce) in
  let previous :=
    if label ce =? label be then BeamProbability.blank (oldp be)
    else BeamProbability.total (oldp be) in
  let lp := fadd (coeff input (label ce)) (GetStateExpansionScore st previous) in
  let p := BeamProbability.mk _ lp kLogZero lp in
  let d1 := update_node c (λ e, set_newp (set_state e st) p) d in
  let bottom := TopN.bottom_of (BeamComparer (beam_root_ d1)) y l in
  fgt lp kLogZero = true →
  fgt lp (key (beam_root_ d1) bottom) = true →
  ∃ d', grow_child input b c d = (Done tt, d') ∧
    TopN.elements (leaves_ d') = TopN.remove_first bottom (y :: l ++ [c]) ∧
    TopN.size (leaves_ d') = beam_width_ d ∧
    (∀ e, beam_root_ d' !! bottom = Some e → newp e = BeamProbability.init) ∧
    (∀ i, i ≠ bottom → beam_root_ d' !! i = beam_root_ d1 !! i).
Proof.
  intros Hlim Hel Hfull Hb Hc Hact st previous lp p d1 bottom Hpos Hgt.
  assert (TopN.elements (leaves_ d) ≠ []) as Hne by (rewrite Hel; discriminate).
  assert (TopN.peek_bottom (BeamComparer (beam_root_ d1)) (leaves_ d1)
          = Some bottom) as Hpeek.
  { unfold TopN.peek_bottom. change (leaves_ d1) with (leaves_ d).
    rewrite Hel. reflexivity. }
  assert (admissible p d1 = true) as Hadm.
  { unfold admissible. change (BeamProbability.total p) with lp.
    rewrite Hpos, Hpeek, Hgt. apply orb_true_r. }
  assert (key (beam_root_ d1) c = lp) as Hkey.
  { unfold d1. rewrite (key_update_node_eq c _ d ce Hc). reflexivity. }
  assert (TopN.elements (leaves_ (push_leaf c d1))
          = TopN.remove_first bottom (y :: l ++ [c])) as Hpush.
  { unfold push_leaf. cbn [leaves_ set_leaves].
    change (leaves_ d1) with (leaves_ d).
    rewrite (push_full _ c (leaves_ d) y l);
      [|unfold TopN.size; rewrite Hel, Hlim, Hfull; lia|exact Hel].
    rewrite bottom_of_snoc. fold bottom.
    assert (BeamComparer (beam_root_ d1) bottom c = false) as ->; [|reflexivity].
    apply BeamComparer_asym. unfold BeamComparer. rewrite Hkey. exact Hgt. }
  assert (TopN.size (leaves_ (push_leaf c d1)) = beam_width_ d) as Hsize.
  { unfold TopN.size. rewrite Hpush.
    assert (bottom ∈ y :: l ++ [c]) as Hin.
    { change (y :: l ++ [c]) with ((y :: l) ++ [c]).
      apply elem_of_app. left. apply bottom_of_elem. }
    pose proof (remove_first_length bottom _ Hin) as Hlen.
    cbn [length] in Hlen, Hfull |- *. rewrite length_app in Hlen.
    cbn [length] in Hlen. lia. }
  pose proof (grow_child_run input b c d be ce Hne Hb Hc Hact) as Hrun.
  cbv zeta in Hrun. fold st previous lp p d1 in Hrun.
  rewrite Hadm, Hpeek in Hrun.
  change (beam_width_ (push_leaf c d1)) with (beam_width_ d) in Hrun.
  rewrite Hsize, Nat.eqb_refl in Hrun.
  eexists. split; [exact Hrun|]. split; [exact Hpush|]. split; [exact Hsize|].
  split.
  - intros e. rewrite lookup_update_node_eq.
    destruct (beam_root_ (push_leaf c d1) !! bottom) as [e0|]; [|discriminate].
    intros [= <-]. reflexivity.
  - intros i Hi. rewrite lookup_update_node_ne by exact Hi. reflexivity.
Qed.


(** *** The length of the label sequences *)

Lemma label_walk_unmerged_prev (nodes : list Entry) n c prev prev' :
  label_walk nodes false n c prev = label_walk nodes false n c prev'.
Proof.
  destruct n as [|n]; [reflexivity|]. simpl.
  destruct (nodes !! c) as [e|]; [|reflexivity].
  destruct (parent e); reflexivity.
Qed.

Lemma label_walk_merged_le (nodes : list Entry) merge_repeated n c prev prev' :
  (length (label_walk nodes merge_repeated n c prev) ≤
   length (label_walk nodes false n c prev'))%nat.
Proof.
  revert c prev prev'. induction n as [|n IH]; intros c prev prev'; simpl; [lia|].
  destruct (nodes !! c) as [e|]; [|simpl; lia].
  destruct (parent e) as [p|]; [|simpl; lia].
  rewrite !length_app. specialize (IH p (label e) (label e)).
  destruct (negb merge_repeated || negb (label e =? prev)); simpl; lia.
Qed.

Lemma label_walk_alter (f : Entry → Entry) b (nodes : list Entry)
    merge_repeated n c prev :
  (∀ e, parent (f e) = parent e ∧ label (f e) = label e) →
  label_walk (alter f b nodes) merge_repeated n c prev =
  label_walk nodes merge_repeated n c prev.
Proof.
  intros Hf. revert c prev. induction n as [|n IH]; intros c prev; simpl;
    [reflexivity|].
  destruct (decide (c = b)) as [->|Hne].
  - rewrite list_lookup_alter_eq.
    destruct (nodes !! b) as [e|]; [|reflexivity]. simpl.
    destruct (Hf e) as [-> ->]. destruct (parent e); [|reflexivity].
    rewrite IH. reflexivity.
  - rewrite list_lookup_alter_ne by congruence.
    destruct (nodes !! c) as [e|]; [|reflexivity].
    destruct (parent e); [|reflexivity]. rewrite IH. reflexivity.
Qed.

Lemma label_walk_app (nodes ext : list Entry) merge_repeated n c prev :
  tree_ordered nodes → (c < length nodes)%nat →
  label_walk (nodes ++ ext) merge_repeated n c prev =
  label_walk nodes merge_repeated n c prev.
Proof.
  intros Hord. revert c prev. induction n as [|n IH]; intros c prev Hc; simpl;
    [reflexivity|].
  rewrite lookup_app_l by exact Hc.
  destruct (nodes !! c) as [e|] eqn:He; [|reflexivity].
  destruct (parent e) as [p|] eqn:Hp; [|reflexivity].
  pose proof (Hord c e p He Hp). rewrite IH by lia. reflexivity.
Qed.

Lemma depth_le_mono k k' (nodes : list Entry) :
  (k ≤ k')%nat → depth_le k nodes → depth_le k' nodes.
Proof. intros Hk Hd c. specialize (Hd c). lia. Qed.

(** The property kept by the third loop of a [Step] that began with a
    tree of [n0] nodes of depth at most [k]: these nodes still have depth at
    most [k], and the new ones at most [S k]. *)
Lemma deepens_update_node n0 k i f d :
  keeps_shape f →
  tree_ordered (beam_root_ d) ∧ (n0 ≤ length (beam_root_ d))%nat ∧
    (∀ c, (c < n0)%nat →
       (length (label_walk (beam_root_ d) false (length (beam_root_ d)) c (-1))
        ≤ k)%nat) ∧
    depth_le (S k) (beam_root_ d) →
  let d' := update_node i f d in
  tree_ordered (beam_root_ d') ∧ (n0 ≤ length (beam_root_ d'))%nat ∧
    (∀ c, (c < n0)%nat →
       (length (label_walk (beam_root_ d') false (length (beam_root_ d')) c (-1))
        ≤ k)%nat) ∧
    depth_le (S k) (beam_root_ d').
Proof.
  intros Hf (Hord & Hn0 & Hold & Hall) d'.
  assert (∀ e, parent (f e) = parent e ∧ label (f e) = label e) as Hf'
    by (intros e; destruct (Hf e) as (? & ? & _); auto).
  subst d'. unfold update_node. cbn [beam_root_ set_nodes].
  split; [apply tree_ordered_alter; [intros e; apply Hf'|exact Hord]|].
  rewrite length_alter. split; [exact Hn0|]. split.
  - intros c Hc. rewrite label_walk_alter by exact Hf'. apply Hold, Hc.
  - intros c. rewrite length_alter, label_walk_alter by exact Hf'. apply Hall.
Qed.

Lemma deepens_PopulateChildren n0 k b L d :
  (b < n0)%nat →
  tree_ordered (beam_root_ d) ∧ (n0 ≤ length (beam_root_ d))%nat ∧
    (∀ c, (c < n0)%nat →
       (length (label_walk (beam_root_ d) false (length (beam_root_ d)) c (-1))
        ≤ k)%nat) ∧
    depth_le (S k) (beam_root_ d) →
  let d' := PopulateChildren b L d in
  tree_ordered (beam_root_ d') ∧ (n0 ≤ length (beam_root_ d'))%nat ∧
    (∀ c, (c < n0)%nat →
       (length (label_walk (beam_root_ d') false (length (beam_root_ d')) c (-1))
        ≤ k)%nat) ∧
    depth_le (S k) (beam_root_ d').
Proof.
  intros Hb (Hord & Hn0 & Hold & Hall) d'.
  assert (tree_ordered (beam_root_ d')) as Hord'
    by (apply tree_ordered_PopulateChildren; [lia|exact Hord]).
  split; [exact Hord'|].
  set (nodes := beam_root_ d) in *.
  set (ext := map (new_child b) (seq 0 (Z.to_nat L))).
  assert (beam_root_ d' =
          alter (λ e, set_children e (seq (length nodes) (Z.to_nat L))) b
            (nodes ++ ext)) as Hd' by reflexivity.
  assert (length (beam_root_ d') = (length nodes + length ext)%nat) as Hlen
    by (rewrite Hd', length_alter, length_app; reflexivity).
  assert (∀ c n, (c < length nodes)%nat → (c < n)%nat →
            label_walk (beam_root_ d') false n c (-1) =
            label_walk nodes false (length nodes) c (-1)) as Hsame.
  { intros c n Hc Hn. rewrite Hd', label_walk_alter by (intros e; auto).
    rewrite label_walk_app by assumption.
    apply label_walk_fuel; assumption. }
  split; [lia|]. split.
  - intros c Hc. rewrite Hsame by lia. apply Hold, Hc.
  - intros c. destruct (Nat.lt_ge_cases c (length nodes)) as [Hc|Hc].
    + rewrite Hsame by lia. apply Hall.
    + destruct (length (beam_root_ d')) as [|n] eqn:Hn; [simpl; lia|].
      cbn [label_walk].
      destruct (beam_root_ d' !! c) as [e|] eqn:He; [|simpl; lia].
      rewrite Hd', list_lookup_alter_ne in He by lia.
      rewrite lookup_app_r in He by exact Hc.
      pose proof (lookup_lt_Some _ _ _ He) as Hext.
      apply list_elem_of_lookup_2, list_elem_of_In, in_map_iff in He
        as (ci & <- & _).
      cbn [parent label new_child negb orb length app].
      rewrite (label_walk_unmerged_prev _ _ _ _ (-1)), Hsame by lia.
      specialize (Hold b Hb). lia.
Qed.

Lemma Step_deepens (raw_input : Vector) k r d d' :
  tree_ordered (beam_root_ d) → beam_valid d → depth_le k (beam_root_ d) →
  Step raw_input d = (r, d') →
  tree_ordered (beam_root_ d') ∧ depth_le (S k) (beam_root_ d').
Proof.
  intros Hord Hv Hdep Hstep.
  set (n0 := length (beam_root_ d)).
  set (J := λ d' : Dec,
    tree_ordered (beam_root_ d') ∧ (n0 ≤ length (beam_root_ d'))%nat ∧
    (∀ c, (c < n0)%nat →
       (length (label_walk (beam_root_ d') false (length (beam_root_ d')) c (-1))
        ≤ k)%nat) ∧
    depth_le (S k) (beam_root_ d')).
  assert (J d) as HJ.
  { split; [exact Hord|]. split; [unfold n0; lia|]. split.
    - intros c _. apply Hdep.
    - apply (depth_le_mono k); [lia|exact Hdep]. }
  assert (J d') as (Hord' & _ & _ & Hall); [|split; assumption].
  revert Hstep. rewrite Step_run.
  destruct (_ =? _); [|intros [= <- <-]; exact HJ]. cbv zeta.
  set (branches := TopN.Extract _ _).
  apply (for_each_always (grow_branch (remove_max raw_input)) J).
  { intros b r0 d0 d1 Hb. apply grow_branch_always.
    - intros i f d2 Hf. apply (deepens_update_node n0 k i f d2 Hf).
    - intros i d2 _ H2. exact H2.
    - intros d2 be _ _. apply deepens_PopulateChildren.
      apply Hv. apply Extract_elem in Hb. exact Hb. }
  apply (fold_keeps (update_branch (remove_max raw_input)) J).
  { intros b d0 H0. unfold update_branch.
    apply (deepens_update_node n0 k b _ d0); [intros e; auto|exact H0]. }
  apply (fold_keeps shift_probabilities J).
  { intros b d0 H0.
    apply (deepens_update_node n0 k b _ d0); [intros e; auto|exact H0]. }
  exact HJ.
Qed.

Lemma steps_deepen (rows : nat → Vector) (l : list nat) k r d d' :
  tree_ordered (beam_root_ d) → beam_valid d → depth_le k (beam_root_ d) →
  for_each (λ t, Step (rows t)) l d = (r, d') →
  depth_le (k + length l) (beam_root_ d').
Proof.
  revert k d. induction l as [|t l IH]; intros k d Hord Hv Hdep; simpl.
  - intros [= <- <-]. apply (depth_le_mono k); [lia|exact Hdep].
  - unfold bind. destruct (Step (rows t) d) as [[[]|c] d1] eqn:Hs;
      destruct (Step_deepens _ k _ d d1 Hord Hv Hdep Hs) as [Hord1 Hdep1].
    + intros Hrest. replace (k + S (length l))%nat with (S k + length l)%nat by lia.
      apply (IH (S k) d1); try assumption.
      apply (Step_beam_valid _ _ d d1 Hv Hs).
    + intros [= <- <-]. apply (depth_le_mono (S k)); [lia|exact Hdep1].
Qed.

Lemma finish_loop_depth (l : list nat) k d :
  depth_le k (beam_root_ d) →
  depth_le k (beam_root_ (foldl (λ d b, finish_branch b d) d l)).
Proof.
  apply (fold_keeps finish_branch (λ d, depth_le k (beam_root_ d))).
  intros b d0 H0 c. unfold finish_branch. cbn.
  rewrite !length_alter, !label_walk_alter by (intros e; auto). apply H0.
Qed.

Lemma decode_sequence_depth seq_len_b (rows : list Vector) top_n r d d' :
  decode_sequence seq_len_b rows top_n d = (r, d') →
  depth_le seq_len_b (beam_root_ d').
Proof.
  unfold decode_sequence. unfold bind at 1. rewrite Reset_run.
  set (dR := mkDecoder _ _ _ _ _ _ _).
  assert (tree_ordered (beam_root_ dR)) as Hord.
  { intros [|i] e p; [|discriminate]. intros [= <-]. discriminate. }
  assert (beam_valid dR) as Hv.
  { intros j Hj. cbn in Hj. apply push_elem in Hj as [->|Hj]; [cbn; lia|].
    cbn in Hj. apply elem_of_nil in Hj as []. }
  assert (depth_le 0 (beam_root_ dR)) as Hdep.
  { intros c. unfold dR. cbn [beam_root_ length label_walk].
    destruct c as [|c]; simpl; lia. }
  clearbody dR. unfold bind at 1.
  destruct (for_each _ _ dR) as [r1 dS] eqn:HS.
  apply (steps_deepen (λ t, nth t rows []) _ 0 r1 dR dS Hord Hv Hdep) in HS.
  rewrite length_seq in HS. cbn in HS.
  destruct r1 as [[]|c]; [|intros [= <- <-]; exact HS].
  unfold bind at 1, extract_leaves. unfold bind at 1, modify.
  set (dF := foldl _ _ _).
  assert (depth_le seq_len_b (beam_root_ dF)) as HF
    by (apply finish_loop_depth; exact HS).
  clearbody dF. unfold bind at 1, get. unfold bind at 1.
  pose proof (TopPaths_state top_n (merge_repeated_ dF) dF) as HT.
  destruct (TopPaths _ _ dF) as [[[beams probs]|c] dT]; cbn [snd] in HT;
    subst dT; [|intros [= <- <-]; exact HF].
  unfold bind, CHECK, ret, fatal.
  destruct (_ =? _)%nat; [|intros [= <- <-]; exact HF].
  destruct (_ =? _)%nat; intros [= <- <-]; exact HF.
Qed.

Lemma decode_sequence_path_length seq_len_b (rows : list Vector) top_n d out d'
    path score :
  decode_sequence seq_len_b rows top_n d = (Done out, d') →
  (path, score) ∈ out → (length path ≤ seq_len_b)%nat.
Proof.
  intros Hdec Hin.
  pose proof (decode_sequence_depth _ _ _ _ _ _ Hdec) as Hdep.
  destruct (decode_sequence_scores _ _ _ _ _ _ Hdec) as (branches & _ & _ & ->).
  apply list_elem_of_In, in_map_iff in Hin as (b & [= <- _] & _).
  unfold LabelSeq. rewrite length_rev.
  etransitivity; [apply (label_walk_merged_le _ _ _ _ _ (-1))|apply Hdep].
Qed.

Lemma decode_batch_path_length (seq_len : list nat) (input : list (list Vector))
    top_n (bs : list nat) d outs d' i b out path score :
  decode_batch seq_len input top_n bs d = (Done outs, d') →
  bs !! i = Some b → outs !! i = Some out → (path, score) ∈ out →
  (length path ≤ nth b seq_len 0)%nat.
Proof.
  revert d outs i. induction bs as [|b0 bs IH]; intros d outs i; simpl.
  - intros _ Hb. discriminate.
  - unfold bind at 1.
    destruct (decode_sequence _ _ _ d) as [[out0|c] d1] eqn:H1; [|discriminate].
    unfold bind at 1.
    destruct (decode_batch _ _ _ bs d1) as [[outs'|c] d2] eqn:H2; [|discriminate].
    intros [= <- <-]. destruct i as [|i]; simpl.
    + intros [= <-] [= <-] Hin.
      apply (decode_sequence_path_length _ _ _ _ _ _ _ _ H1 Hin).
    + intros Hb Ho Hin. apply (IH d1 outs' i H2 Hb Ho Hin).
Qed.

(** X12: no label sequence returned by [Decode] is longer than the sequence it
    was decoded from: the paths of the [b]-th sequence of the batch have at
    most [seq_len[b]] labels. *)
Theorem Decode_path_length (seq_len : list nat) (input : list (list Vector))
    top_n d outs d' b out path score :
  Decode seq_len input top_n d = (Done outs, d') →
  outs !! b = Some out → (path, score) ∈ out →
  (length path ≤ nth b seq_len 0)%nat.
Proof.
  unfold Decode, bind, get. intros Hdec Ho Hin.
  assert (seq 0 (batch_size_ d) !! b = Some b) as Hb.
  { assert (b < length (seq 0 (batch_size_ d)))%nat as Hlt.
    { destruct (seq 0 (batch_size_ d) !! b) as [x|] eqn:Hx.
      - apply lookup_lt_Some in Hx. exact Hx.
      - exfalso. revert Hdec Ho Hx. generalize (seq 0 (batch_size_ d)).
        intros bs. revert d outs b. clear.
        induction bs as [|b0 bs IH]; intros d outs b; simpl.
        + intros [= <- <-]. discriminate.
        + unfold bind at 1.
          destruct (decode_sequence _ _ _ d) as [[out0|c] d1]; [|discriminate].
          unfold bind at 1.
          destruct (decode_batch _ _ _ bs d1) as [[outs'|c] d2] eqn:H2;
            [|discriminate].
          intros [= <- <-]. destruct b as [|b]; simpl; [discriminate|].
          apply (IH d1 outs' b H2). }
    rewrite length_seq in Hlt. rewrite lookup_seq_lt by exact Hlt. reflexivity. }
  apply (decode_batch_path_length _ _ _ _ _ _ _ _ _ _ _ _ Hdec Hb Ho Hin).
Qed.


(** *** The size of the beam *)

Lemma Step_beam_size (raw_input : Vector) r d d' :
  beam_bounded d → Step raw_input d = (r, d') →
  beam_bounded d' ∧ (TopN.size (leaves_ d) ≤ TopN.size (leaves_ d'))%nat.
Proof.
  intros Hbd. rewrite Step_run.
  destruct (_ =? _); [|intros [= <- <-]; split; [exact Hbd|lia]]. cbv zeta.
  destruct (second_loop_leaves (remove_max raw_input) d Hbd) as [Hel Hbd2].
  cbv zeta in Hel, Hbd2.
  set (branches := TopN.Extract _ _) in *.
  set (d2 := foldl _ (foldl _ _ branches) branches) in *.
  set (Inv := λ d' : Dec,
    beam_bounded d' ∧ (TopN.size (leaves_ d) ≤ TopN.size (leaves_ d'))%nat).
  apply (for_each_always (grow_branch (remove_max raw_input)) Inv).
  - intros b r0 d0 d1 _. apply grow_branch_always.
    + intros i f d3 _ HI. exact HI.
    + intros i d3 _ [[Hlim Hsz] Hge]. unfold push_leaf. split; [split|].
      * cbn. rewrite push_limit. exact Hlim.
      * cbn [leaves_ set_leaves beam_width_]. rewrite <- Hlim.
        apply push_size_le. rewrite Hlim. exact Hsz.
      * cbn [leaves_ set_leaves]. rewrite push_size by (rewrite Hlim; exact Hsz).
        lia.
    + intros d3 be _ _ HI. exact HI.
  - split; [exact Hbd2|]. unfold TopN.size at 2. rewrite Hel.
    unfold branches. rewrite Extract_length. lia.
Qed.

(** X1: a [Step] on a decoder whose beam is bounded, with any arithmetic
    and any scorer, leaves the beam bounded (it holds at most [beam_width_]
    leaves) and with no fewer leaves than it had, whether [Step] returns or
    stops at a failed [CHECK]. *)
Theorem Step_keeps_beam_bounded (raw_input : Vector) d :
  beam_bounded d →
  beam_bounded (Step raw_input d).2 ∧
  (TopN.size (leaves_ d) ≤ TopN.size (leaves_ (Step raw_input d).2))%nat.
Proof.
  intros Hbd. destruct (Step raw_input d) as [r d'] eqn:Hs.
  apply (Step_beam_size raw_input r d d' Hbd Hs).
Qed.

Lemma reachable_not_empty d :
  reachable d →
  beam_bounded d ∧ (0 < beam_width_ d)%nat ∧ (0 < TopN.size (leaves_ d))%nat.
Proof.
  induction 1 as [d d' Hlim Hpos Hreset|raw d d' _ (Hbd & Hpos & Hsz) Hstep].
  - rewrite Reset_run in Hreset. injection Hreset as <-.
    unfold beam_bounded, TopN.size. cbn [leaves_ beam_width_].
    rewrite push_limit, push_below by (cbn; lia). cbn. lia.
  - destruct (Step_beam_size raw _ d d' Hbd Hstep) as [Hbd' Hge].
    destruct (Step_same_config raw _ d d' Hstep) as (_ & _ & _ & _ & Hw & _).
    split; [exact Hbd'|]. split; lia.
Qed.

(** X3: in a decoder in use the beam is never empty: [TopPaths] asked for
    one path returns the label sequence and the log-probability of a leaf
    of the beam, and leaves the decoder as it is. *)
Theorem reachable_TopPaths_one d merge_repeated :
  reachable d →
  ∃ b, b ∈ TopN.elements (leaves_ d) ∧
    TopPaths 1 merge_repeated d =
    (Done ([LabelSeq (beam_root_ d) b merge_repeated], [key (beam_root_ d) b]),
     d).
Proof.
  intros Hreach. destruct (reachable_not_empty d Hreach) as (_ & Hpos & Hsz).
  rewrite TopPaths_run.
  destruct (Nat.leb_spec 1 (beam_width_ d)) as [_|?]; [|lia].
  destruct (Nat.leb_spec 1 (TopN.size (leaves_ d))) as [Hle|?]; [|lia].
  destruct (top_branches_leaves 1 d Hle) as [Hlen Hin]. cbv zeta in Hlen, Hin |- *.
  destruct (take 1 _) as [|b [|b' bs]]; try discriminate.
  exists b. split; [apply Hin, list_elem_of_here|reflexivity].
Qed.

(** *** The shape of the result of [Decode] *)

Lemma decode_batch_shape (seq_len : list nat) (input : list (list Vector))
    top_n (bs : list nat) d outs d' :
  decode_batch seq_len input top_n bs d = (Done outs, d') →
  length outs = length bs ∧ Forall (λ out, length out = top_n) outs.
Proof.
  revert d outs. induction bs as [|b bs IH]; intros d outs; simpl.
  - intros [= <- <-]. split; [reflexivity|constructor].
  - unfold bind at 1.
    destruct (decode_sequence _ _ _ d) as [[out|c] d1] eqn:H1; [|discriminate].
    unfold bind at 1.
    destruct (decode_batch _ _ _ bs d1) as [[outs'|c] d2] eqn:H2; [|discriminate].
    intros [= <- <-]. destruct (IH d1 outs' H2) as [Hlen Hall].
    split; [simpl; congruence|]. constructor; [|exact Hall].
    destruct (decode_sequence_scores _ _ _ _ _ _ H1) as (branches & Hb & _ & ->).
    rewrite length_map. exact Hb.
Qed.

(** X13: when [Decode] returns, its result has one entry for every sequence
    of the batch, and every entry holds [top_n] paths with their scores. *)
Theorem Decode_shape (seq_len : list nat) (input : list (list Vector))
    top_n d outs d' :
  Decode seq_len input top_n d = (Done outs, d') →
  length outs = batch_size_ d ∧ Forall (λ out, length out = top_n) outs.
Proof.
  unfold Decode, bind, get. intros Hdec.
  destruct (decode_batch_shape _ _ _ _ _ _ _ Hdec) as [Hlen Hall].
  rewrite length_seq in Hlen. auto.
Qed.

End Decoder_invariants.

Section Decoder_returns.
Context `{LogArith} {CTCBeamState : Type} `{!BeamScorer CTCBeamState}.

Abbreviation Entry := (BeamEntry CTCBeamState).
Abbreviation Dec := (Decoder CTCBeamState).
Abbreviation Method := (@M _ CTCBeamState).
Implicit Types (d : Dec) (e : Entry) (input : Vector).

(** *** [Decode] for the best path *)

Lemma Step_returns (raw_input : Vector) d :
  beam_bounded d → num_classes_ d = Z.of_nat (length raw_input) →
  ∃ d', Step raw_input d = (Done tt, d').
Proof.
  intros Hbd Hsize. rewrite Step_run, Hsize, Z.eqb_refl. cbv zeta.
  pose proof (second_loop_leaves (remove_max raw_input) d Hbd) as [Hel Hbd2].
  cbv zeta in Hel, Hbd2.
  set (branches := TopN.Extract _ _) in *.
  set (d2 := foldl _ _ _) in *.
  destruct branches as [|b0 bs] eqn:Hbs.
  { exists d2. reflexivity. }
  rewrite <- Hbs in *.
  destruct (returns_for_each (grow_branch (remove_max raw_input)) beam_ready
              branches) with (d := d2) as (u & d' & Heq & _).
  - intros b _. apply grow_branch_ready.
  - split; [exact Hbd2|]. rewrite Hel, Hbs. discriminate.
  - exists d'. destruct u. exact Heq.
Qed.

Lemma steps_return (rows : nat → Vector) (l : list nat) d :
  beam_bounded d → (0 < TopN.size (leaves_ d))%nat →
  (∀ t, t ∈ l → num_classes_ d = Z.of_nat (length (rows t))) →
  ∃ d', for_each (λ t, Step (rows t)) l d = (Done tt, d') ∧
    beam_bounded d' ∧ (0 < TopN.size (leaves_ d'))%nat.
Proof.
  revert d. induction l as [|t l IH]; intros d Hbd Hpos Hrows; simpl.
  - exists d. auto.
  - destruct (Step_returns (rows t) d Hbd) as [d1 Hs];
      [apply Hrows, list_elem_of_here|].
    unfold bind. rewrite Hs.
    destruct (Step_beam_size (rows t) _ d d1 Hbd Hs) as [Hbd1 Hge].
    destruct (Step_same_config (rows t) _ d d1 Hs) as (Hn & _).
    apply IH; [exact Hbd1|lia|].
    intros t' Ht'. rewrite Hn. apply Hrows, list_elem_of_further, Ht'.
Qed.

Lemma finish_loop_elements (l : list nat) d :
  (TopN.size (leaves_ d) + length l ≤ TopN.limit (leaves_ d))%nat →
  TopN.elements (leaves_ (foldl (λ d b, finish_branch b d) d l)) =
  TopN.elements (leaves_ d) ++ l.
Proof.
  revert d. induction l as [|b l IH]; intros d; simpl; intros Hle.
  - rewrite app_nil_r. reflexivity.
  - rewrite IH.
    + unfold finish_branch. cbn [leaves_ push_leaf set_leaves update_node set_nodes].
      rewrite push_below by (simpl; lia).
      rewrite <- app_assoc. reflexivity.
    + unfold finish_branch. cbn [leaves_ push_leaf set_leaves update_node set_nodes].
      rewrite push_limit. unfold TopN.size in *.
      rewrite push_below by (unfold TopN.size; simpl; lia).
      rewrite length_app. simpl in *. lia.
Qed.

Lemma decode_sequence_returns seq_len_b (rows : list Vector) d :
  TopN.limit (leaves_ d) = beam_width_ d → (0 < beam_width_ d)%nat →
  (∀ t, (t < seq_len_b)%nat →
     num_classes_ d = Z.of_nat (length (nth t rows []))) →
  ∃ out d', decode_sequence seq_len_b rows 1 d = (Done out, d').
Proof.
  intros Hlim Hpos Hrows. unfold decode_sequence, bind at 1.
  rewrite Reset_run. set (dR := mkDecoder _ _ _ _ _ _ _).
  assert (beam_bounded dR ∧ (0 < TopN.size (leaves_ dR))%nat) as [HbdR HposR].
  { unfold beam_bounded, TopN.size, dR. cbn [leaves_ beam_width_].
    rewrite push_limit, push_below by (cbn; lia). cbn. lia. }
  destruct (steps_return (λ t, nth t rows []) (seq 0 seq_len_b) dR HbdR HposR)
    as (dS & HS & [HlimS HszS] & HposS).
  { intros t Ht. apply elem_of_seq in Ht. apply Hrows. lia. }
  clearbody dR. unfold bind at 1. rewrite HS.
  unfold bind at 1, extract_leaves. unfold bind at 1, modify.
  set (branches := TopN.Extract _ _).
  set (dF := foldl _ _ branches).
  assert (TopN.elements (leaves_ dF) = branches) as Hel.
  { unfold dF. rewrite finish_loop_elements; [reflexivity|].
    cbn. unfold branches. rewrite Extract_length. lia. }
  assert (beam_width_ dF = beam_width_ dS) as Hw.
  { destruct (finish_loop_same_config branches
                (set_leaves dS (TopN.Reset (leaves_ dS)))
                (set_leaves dS (TopN.Reset (leaves_ dS))))
      as (_ & _ & _ & _ & Hw & _); [apply same_config_refl|exact Hw]. }
  assert (0 < beam_width_ dS)%nat as HposW by lia.
  assert (TopN.size (leaves_ dF) = TopN.size (leaves_ dS)) as Hsz.
  { unfold TopN.size at 1. rewrite Hel. apply Extract_length. }
  clearbody dF. unfold bind at 1, get. unfold bind at 1.
  rewrite TopPaths_run, Hw.
  destruct (Nat.leb_spec 1 (beam_width_ dS)) as [_|?]; [|lia].
  destruct (Nat.leb_spec 1 (TopN.size (leaves_ dF))) as [Hle|?]; [|lia].
  destruct (top_branches_leaves 1 dF Hle) as [Hlen _].
  cbv zeta in Hlen |- *.
  destruct (take 1 _) as [|b [|b' bs]]; try discriminate.
  cbn. eauto.
Qed.

Lemma decode_batch_returns (seq_len : list nat) (input : list (list Vector))
    (bs : list nat) d :
  TopN.limit (leaves_ d) = beam_width_ d → (0 < beam_width_ d)%nat →
  (∀ b t, b ∈ bs → (t < nth b seq_len 0)%nat →
     num_classes_ d =
     Z.of_nat (length (nth t (map (λ m, nth b m []) input) []))) →
  ∃ outs d', decode_batch seq_len input 1 bs d = (Done outs, d').
Proof.
  revert d. induction bs as [|b bs IH]; intros d Hlim Hpos Hrows; simpl.
  - eexists _, _. reflexivity.
  - destruct (decode_sequence_returns (nth b seq_len 0%nat)
                (map (λ m, nth b m []) input) d Hlim Hpos) as (out & d1 & H1).
    { intros t Ht. apply Hrows; [apply list_elem_of_here|exact Ht]. }
    unfold bind at 1. rewrite H1.
    destruct (decode_sequence_same_config _ _ _ _ _ _ H1)
      as (Hn & _ & _ & _ & Hw & Hl).
    destruct (IH d1) as (outs & d2 & H2).
    + congruence.
    + lia.
    + intros b' t Hb' Ht. rewrite Hn. apply Hrows; [|exact Ht].
      apply list_elem_of_further, Hb'.
    + unfold bind. rewrite H2. eexists _, _. reflexivity.
Qed.

(** X24: [Decode] asked for the best path alone returns, for every float
    arithmetic and scorer, on a decoder built with a positive beam width,
    when every row that it reads has [num_classes_] coefficients: no
    [CHECK] fails. *)
Theorem Decode_best_path_returns (seq_len : list nat)
    (input : list (list Vector)) d :
  TopN.limit (leaves_ d) = beam_width_ d → (0 < beam_width_ d)%nat →
  (∀ b t, (b < batch_size_ d)%nat → (t < nth b seq_len 0)%nat →
     num_classes_ d =
     Z.of_nat (length (nth t (map (λ m, nth b m []) input) []))) →
  ∃ outs d', Decode seq_len input 1 d = (Done outs, d').
Proof.
  intros Hlim Hpos Hrows. unfold Decode, bind at 1, get.
  apply decode_batch_returns; [exact Hlim|exact Hpos|].
  intros b t Hb. apply Hrows. apply elem_of_seq in Hb. lia.
Qed.

End Decoder_returns.

(** ** The probabilities after a [Step] *)

Section Step_cases_facts.
Context `{LogArith} {CTCBeamState : Type} `{!BeamScorer CTCBeamState}.

Abbreviation Entry := (BeamEntry CTCBeamState).
Abbreviation Dec := (Decoder CTCBeamState).
Abbreviation Method := (@M _ CTCBeamState).
Implicit Types (d : Dec) (e : Entry) (input : Vector).

(** *** Children point back to their parent *)




(** *** The first two loops *)



(** *** The possible results of the body of the loop over the children *)



(** *** The third loop keeps [stepping] *)







End Step_cases_facts.

(** ** The best-N list keeps the best *)

Section TopN_best.
Context (cmp : nat → nat → bool) (ranked : nat → Prop).
Context (cmp_asym : ∀ a b, cmp a b = true → cmp b a = false).
Context (cmp_negtrans : ∀ a b c, ranked a → ranked b → ranked c →
                          cmp a b = false → cmp b c = false → cmp a c = false).

Lemma cmp_irrefl a : cmp a a = false.
Proof.
  destruct (cmp a a) eqn:Ha; [|reflexivity].
  pose proof (cmp_asym _ _ Ha). congruence.
Qed.

Lemma bottom_of_min m l y :
  (∀ a, a ∈ m :: l → ranked a) →
  y ∈ m :: l → cmp (TopN.bottom_of cmp m l) y = false.
Proof.
  revert m y. induction l as [|x l IH]; intros m y HP Hy; cbn [TopN.bottom_of].
  - apply list_elem_of_singleton in Hy as ->. apply cmp_irrefl.
  - set (m' := if cmp m x then x else m).
    assert (m' ∈ m :: x :: l) as Hin.
    { unfold m'. destruct (cmp m x);
        [apply list_elem_of_further, list_elem_of_here|apply list_elem_of_here]. }
    assert (∀ a, a ∈ m' :: l → ranked a) as HP'.
    { intros a Ha. apply elem_of_cons in Ha as [->|Ha]; [apply HP, Hin|].
      apply HP. do 2 apply list_elem_of_further. exact Ha. }
    assert (cmp (TopN.bottom_of cmp m' l) m' = false) as Hm'
      by (apply IH; [exact HP'|apply list_elem_of_here]).
    assert (ranked (TopN.bottom_of cmp m' l)) as Hb
      by apply HP', bottom_of_elem.
    assert (cmp m' m = false ∧ cmp m' x = false) as [Hm Hx].
    { unfold m'. destruct (cmp m x) eqn:Hmx.
      - split; [apply cmp_asym, Hmx|apply cmp_irrefl].
      - split; [apply cmp_irrefl|exact Hmx]. }
    apply elem_of_cons in Hy as [->|Hy].
    { apply (cmp_negtrans _ m'); try assumption; [apply HP, Hin|].
      apply HP, list_elem_of_here. }
    apply elem_of_cons in Hy as [->|Hy].
    { apply (cmp_negtrans _ m'); try assumption; [apply HP, Hin|].
      apply HP, list_elem_of_further, list_elem_of_here. }
    apply IH; [exact HP'|]. apply list_elem_of_further, Hy.
Qed.

Lemma remove_first_Permutation x l :
  x ∈ l → l ≡ₚ x :: TopN.remove_first x l.
Proof.
  induction l as [|z l IH]; intros Hin; cbn [TopN.remove_first].
  - apply elem_of_nil in Hin as [].
  - destruct (Nat.eqb_spec x z) as [->|Hne]; [reflexivity|].
    apply elem_of_cons in Hin as [?|Hin]; [contradiction|].
    rewrite (IH Hin) at 1. apply perm_swap.
Qed.

Lemma remove_first_snoc_elem x l y :
  y ∈ TopN.remove_first x (l ++ [x]) → y ∈ l.
Proof.
  induction l as [|z l IH]; cbn [app TopN.remove_first].
  - rewrite Nat.eqb_refl. intros Hy. exact Hy.
  - destruct (Nat.eqb_spec x z) as [->|Hne].
    + intros Hy. apply elem_of_app in Hy as [Hy|Hy].
      * apply list_elem_of_further, Hy.
      * apply list_elem_of_singleton in Hy as ->. apply list_elem_of_here.
    + intros Hy. apply elem_of_cons in Hy as [->|Hy].
      * apply list_elem_of_here.
      * apply list_elem_of_further, IH, Hy.
Qed.

(** One [push]: with the members that were evicted so far in [dropped],
    none of which ranks above a member of the list, the list after the push
    and the evicted members are again so. *)
Lemma push_best x q (dropped : list nat) :
  (∀ a, a ∈ TopN.elements q ++ dropped ++ [x] → ranked a) →
  (TopN.size q ≤ TopN.limit q)%nat →
  dropped = [] ∨ TopN.size q = TopN.limit q →
  (∀ a y, a ∈ dropped → y ∈ TopN.elements q → cmp a y = false) →
  ∃ dropped',
    (dropped' = [] ∨
     TopN.size (TopN.push cmp x q) = TopN.limit (TopN.push cmp x q)) ∧
    TopN.elements q ++ dropped ++ [x] ≡ₚ
      TopN.elements (TopN.push cmp x q) ++ dropped' ∧
    (∀ a y, a ∈ dropped' → y ∈ TopN.elements (TopN.push cmp x q) →
       cmp a y = false).
Proof.
  intros HP Hle Hfull Hord.
  destruct (Nat.lt_ge_cases (TopN.size q) (TopN.limit q)) as [Hlt|Hge].
  - destruct Hfull as [->|?]; [|lia]. exists [].
    rewrite push_below by exact Hlt.
    split; [auto|]. split; [rewrite !app_nil_r; reflexivity|].
    intros a y Ha. apply elem_of_nil in Ha as [].
  - assert (TopN.size (TopN.push cmp x q) = TopN.limit (TopN.push cmp x q))
      as Hsz by (rewrite push_size, push_limit by exact Hle; lia).
    destruct (TopN.elements q) as [|y0 l0] eqn:Hel.
    + exists (x :: dropped). split; [auto|].
      assert (TopN.elements (TopN.push cmp x q) = []) as ->.
      { unfold TopN.push. rewrite Hel. unfold TopN.size in Hge.
        rewrite Hel in Hge. cbn in Hge.
        assert (TopN.limit q = 0%nat) as -> by lia.
        cbn. rewrite Nat.eqb_refl. reflexivity. }
      split.
      * cbn. rewrite <- Permutation_cons_append. reflexivity.
      * intros a y _ Hy. apply elem_of_nil in Hy as [].
    + set (m := TopN.bottom_of cmp y0 (l0 ++ [x])).
      exists (m :: dropped). split; [auto|].
      rewrite (push_full cmp x q y0 l0 Hge Hel). fold m.
      assert (m ∈ y0 :: l0 ++ [x]) as Hm by apply bottom_of_elem.
      assert (∀ a, a ∈ y0 :: l0 ++ [x] → ranked a) as HP1.
      { intros a Ha. apply HP.
        change (y0 :: l0 ++ [x]) with ((y0 :: l0) ++ [x]) in Ha.
        apply elem_of_app in Ha as [Ha|Ha].
        - apply elem_of_app. left. exact Ha.
        - apply elem_of_app. right. apply elem_of_app. right. exact Ha. }
      assert (∀ a, a ∈ dropped → ranked a) as HP2.
      { intros a Ha. apply HP, elem_of_app. right.
        apply elem_of_app. left. exact Ha. }
      split.
      * etransitivity; [|apply Permutation_middle].
        change (m :: TopN.remove_first m (y0 :: l0 ++ [x]) ++ dropped)
          with ((m :: TopN.remove_first m (y0 :: l0 ++ [x])) ++ dropped).
        rewrite <- (remove_first_Permutation m _ Hm).
        rewrite (Permutation_app_comm dropped [x]). cbn.
        rewrite <- app_assoc. reflexivity.
      * intros a y Ha Hy.
        assert (y ∈ y0 :: l0 ++ [x]) as Hy'
          by (apply (remove_first_elem cmp m), Hy).
        assert (cmp m y = false) as Hmy
          by (apply bottom_of_min; [exact HP1|exact Hy']).
        apply elem_of_cons in Ha as [->|Ha]; [exact Hmy|].
        change (y0 :: l0 ++ [x]) with ((y0 :: l0) ++ [x]) in Hm, Hy.
        apply elem_of_app in Hm as [Hm'|Hm'].
        -- apply (cmp_negtrans _ m);
             [apply HP2, Ha|apply HP1, bottom_of_elem|apply HP1, Hy'| |exact Hmy].
           apply Hord; assumption.
        -- apply list_elem_of_singleton in Hm'. rewrite Hm' in Hy.
           apply remove_first_snoc_elem in Hy. apply Hord; assumption.
Qed.

Lemma push_all_best (l : list nat) q (dropped : list nat) :
  (∀ a, a ∈ TopN.elements q ++ dropped ++ l → ranked a) →
  (TopN.size q ≤ TopN.limit q)%nat →
  dropped = [] ∨ TopN.size q = TopN.limit q →
  (∀ a y, a ∈ dropped → y ∈ TopN.elements q → cmp a y = false) →
  ∃ dropped',
    TopN.elements q ++ dropped ++ l ≡ₚ
      TopN.elements (foldl (λ q b, TopN.push cmp b q) q l) ++ dropped' ∧
    (∀ a y, a ∈ dropped' →
       y ∈ TopN.elements (foldl (λ q b, TopN.push cmp b q) q l) →
       cmp a y = false).
Proof.
  revert q dropped.
  induction l as [|x l IH]; intros q dropped HP Hle Hfull Hord; cbn [foldl].
  - exists dropped. rewrite app_nil_r. split; [reflexivity|exact Hord].
  - destruct (push_best x q dropped) as (dropped1 & Hfull1 & Hperm1 & Hord1);
      [|exact Hle|exact Hfull|exact Hord|].
    { intros a Ha. apply HP. rewrite !elem_of_app in Ha |- *.
      destruct Ha as [Ha|[Ha|Ha]]; [auto|auto|].
      apply list_elem_of_singleton in Ha as ->.
      right. right. apply list_elem_of_here. }
    destruct (IH (TopN.push cmp x q) dropped1) as (dropped' & Hperm & Hord');
      [|rewrite push_limit; apply push_size_le, Hle|exact Hfull1|exact Hord1|].
    { intros a Ha. apply HP. rewrite app_assoc in Ha.
      apply elem_of_app in Ha as [Ha|Ha].
      - rewrite <- Hperm1 in Ha. rewrite !elem_of_app in Ha |- *.
        destruct Ha as [Ha|[Ha|Ha]]; [auto|auto|].
        apply list_elem_of_singleton in Ha as ->.
        right. right. apply list_elem_of_here.
      - rewrite !elem_of_app. right. right. apply list_elem_of_further, Ha. }
    exists dropped'. split; [|exact Hord'].
    etransitivity; [|exact Hperm].
    rewrite (app_assoc (TopN.elements (TopN.push cmp x q)) dropped1 l).
    rewrite <- Hperm1, <- !app_assoc. reflexivity.
Qed.

Lemma insert_desc_Permutation x l : TopN.insert_desc cmp x l ≡ₚ x :: l.
Proof.
  induction l as [|y l IH]; cbn [TopN.insert_desc]; [reflexivity|].
  destruct (cmp y x); [|reflexivity]. rewrite IH. apply perm_swap.
Qed.

Lemma Extract_Permutation q : TopN.Extract cmp q ≡ₚ TopN.elements q.
Proof.
  unfold TopN.Extract. induction (TopN.elements q) as [|x l IH]; cbn [foldr];
    [reflexivity|].
  rewrite insert_desc_Permutation, IH. reflexivity.
Qed.
End TopN_best.

Section TopPaths_ranking.
Context `{LogArith} {CTCBeamState : Type} `{!BeamScorer CTCBeamState}.

Abbreviation Entry := (BeamEntry CTCBeamState).
Abbreviation Dec := (Decoder CTCBeamState).
Implicit Types (d : Dec) (e : Entry).

(** X25: [TopPaths] returns the [n] best leaves of the beam: the leaves
    are the ones it returns and the rest, and no leaf of the rest has a
    greater [newp.total] than a returned one; for an order [>] that is
    asymmetric and, on the [newp.total]s of the leaves of the beam, has a
    transitive complement, as it has on floats when none of these totals is
    NaN. *)
Theorem TopPaths_best `{!LogArithLaws} n merge_repeated d :
  keys_ranked d →
  (n ≤ beam_width_ d)%nat → (n ≤ TopN.size (leaves_ d))%nat →
  ∃ branches rest,
    TopPaths n merge_repeated d =
    (Done (map (λ b, LabelSeq (beam_root_ d) b merge_repeated) branches,
           map (key (beam_root_ d)) branches), d) ∧
    length branches = n ∧
    TopN.elements (leaves_ d) ≡ₚ branches ++ rest ∧
    ∀ x y, x ∈ rest → y ∈ branches →
      fgt (key (beam_root_ d) x) (key (beam_root_ d) y) = false.
Proof.
  intros Hneg Hw Hsz. rewrite TopPaths_run.
  destruct (Nat.leb_spec n (beam_width_ d)) as [_|?]; [|lia].
  destruct (Nat.leb_spec n (TopN.size (leaves_ d))) as [_|?]; [|lia].
  cbv zeta. set (cmp := BeamComparer (beam_root_ d)).
  set (top := foldl (λ q b, TopN.push cmp b q) (TopN.mk n [])
                (TopN.elements (leaves_ d))).
  assert (∀ a b, cmp a b = true → cmp b a = false) as Hasym
    by (intros a b; apply BeamComparer_asym).
  destruct (push_all_best cmp (λ a, a ∈ TopN.elements (leaves_ d)) Hasym Hneg
              (TopN.elements (leaves_ d)) (TopN.mk n []) [])
    as (rest & Hperm & Hord).
  { intros a Ha. exact Ha. }
  { cbn. lia. }
  { auto. }
  { intros a y Ha. apply elem_of_nil in Ha as []. }
  fold top in Hperm, Hord. cbn [TopN.elements app] in Hperm.
  assert (length (TopN.Extract cmp top) = n) as Hlen.
  { rewrite Extract_length. unfold top. rewrite push_all_size by (cbn; lia).
    cbn. unfold TopN.size in Hsz. lia. }
  rewrite take_ge by lia.
  exists (TopN.Extract cmp top), rest.
  split; [reflexivity|]. split; [exact Hlen|]. split.
  - rewrite Hperm, (Extract_Permutation cmp top). reflexivity.
  - intros x y Hx Hy. apply (Hord x y Hx). apply Extract_elem in Hy. exact Hy.
Qed.
End TopPaths_ranking.

(** *** On binary32 the leaves can be ranked when no total is NaN *)

Lemma SFltb_rank (x y : spec_float) :
  x ≠ S754_nan → y ≠ S754_nan →
  SFltb x y = true ↔ rank_lt (float_rank x) (float_rank y).
Proof.
  intros Hx Hy. unfold SFltb, rank_lt.
  destruct x as [[]|[]| |[] mx ex], y as [[]|[]| |[] my ey];
    try contradiction; cbn [SFcompare float_rank fst snd];
    try (split; intros Hlt; [discriminate Hlt || lia|reflexivity || lia]).
  - rewrite Pos.compare_cont_spec. cbn [Pos.switch_Eq].
    destruct (Z.compare_spec ex ey) as [->|Hlt|Hgt];
      [destruct (Pos.compare_spec mx my) as [->|Hlt|Hgt]; cbn [CompOpp]|..];
      split; intros Hr; discriminate Hr || lia || reflexivity.
  - rewrite Pos.compare_cont_spec. cbn [Pos.switch_Eq].
    destruct (Z.compare_spec ex ey) as [->|Hlt|Hgt];
      [destruct (Pos.compare_spec mx my) as [->|Hlt|Hgt]|..];
      split; intros Hr; discriminate Hr || lia || reflexivity.
Qed.

Lemma SFltb_negtrans (x y z : spec_float) :
  x ≠ S754_nan → y ≠ S754_nan → z ≠ S754_nan →
  SFltb y x = false → SFltb z y = false → SFltb z x = false.
Proof.
  intros Hx Hy Hz Hyx Hzy.
  destruct (SFltb z x) eqn:Hzx; [|reflexivity].
  apply SFltb_rank in Hzx; [|assumption..].
  assert (¬ rank_lt (float_rank y) (float_rank x)) as Hn1
    by (rewrite <- SFltb_rank by assumption; congruence).
  assert (¬ rank_lt (float_rank z) (float_rank y)) as Hn2
    by (rewrite <- SFltb_rank by assumption; congruence).
  unfold rank_lt in *.
  destruct (float_rank x) as [[x1 x2] x3], (float_rank y) as [[y1 y2] y3],
    (float_rank z) as [[z1 z2] z3]. cbn [fst snd] in *. lia.
Qed.

(** On binary32, whatever [LogSumExp] is, the leaves of a beam none of
    whose [newp.total]s is NaN can be ranked. *)
Lemma Binary32_keys_ranked (lse : spec_float → spec_float → spec_float)
    {CTCBeamState : Type} (d : @Decoder (Binary32 lse) CTCBeamState) :
  (∀ x, x ∈ TopN.elements (leaves_ d) → key (beam_root_ d) x ≠ S754_nan) →
  keys_ranked d.
Proof.
  intros Hnan x y z Hx Hy Hz. cbn [fgt Binary32].
  apply SFltb_negtrans; apply Hnan; assumption.
Qed.

(** ** More examples, evaluated *)



(** At an example: the node of the label 0 in the readmission example. *)
Lemma labels_within_row_witness :
  ∃ e p, beam_root_ ReadmissionExample.d3 !! 1%nat = Some e ∧
    parent e = Some p ∧
    0 ≤ label e < num_classes_ ReadmissionExample.d3 - 1.
Proof.
  eexists _, _. split; [vm_compute; reflexivity|]. split; [reflexivity|].
  eapply (@labels_within_row ExactLog unit BaseBeamScorer
            ReadmissionExample.d3 1%nat _ 0%nat readmission_reachable).
  - vm_compute. reflexivity.
  - reflexivity.
Defined.

(** At an example: the first [Step] of the readmission example, on a beam
    of width 2 that holds the root. *)
Lemma Step_keeps_beam_bounded_witness :
  beam_bounded (@Step ExactLog unit BaseBeamScorer
                  (nth 0 ReadmissionExample.rows [])
                  ReadmissionExample.d0).2 ∧
  (TopN.size (leaves_ ReadmissionExample.d0) ≤
   TopN.size (leaves_ (@Step ExactLog unit BaseBeamScorer
                         (nth 0 ReadmissionExample.rows [])
                         ReadmissionExample.d0).2))%nat.
Proof.
  apply (@Step_keeps_beam_bounded ExactLog unit BaseBeamScorer).
  split; [reflexivity|]. vm_compute. lia.
Defined.

(** At an example: the decoder of the readmission example after three
    [Step]s. *)
Lemma reachable_beam_witness :
  active_in_beam ReadmissionExample.d3 ∧ beam_valid ReadmissionExample.d3.
Proof.
  apply (@reachable_beam ExactLog unit BaseBeamScorer ExactLog_laws).
  exact readmission_reachable.
Defined.

(** At an example: the first row of the readmission example decoded by a
    fresh decoder and by one that has taken three [Step]s. *)
Lemma Decode_forgets_history_witness :
  (@Decode ExactLog unit BaseBeamScorer [1%nat]
     [[nth 0 ReadmissionExample.rows []]] 1 ReadmissionExample.d3).1 =
  (@Decode ExactLog unit BaseBeamScorer [1%nat]
     [[nth 0 ReadmissionExample.rows []]] 1 ReadmissionExample.d0).1.
Proof.
  apply (@Decode_forgets_history ExactLog unit BaseBeamScorer).
  repeat split; vm_compute; reflexivity.
Defined.

(** At an example: two paths asked of Graves's decoder of width 1. *)
Lemma Decode_more_than_beam_width_witness :
  ∃ c d', @Decode ExactLog unit BaseBeamScorer [2%nat]
            [[GravesExample.P0]; [GravesExample.P1]] 2
            (GravesExample.decoder 1) = (Fatal c, d').
Proof.
  apply (@Decode_more_than_beam_width ExactLog unit BaseBeamScorer).
  - simpl. lia.
  - simpl. lia.
Defined.

(** At an example: Graves's decoder of width 1 on an empty sequence. *)
Lemma decode_empty_sequence_witness :
  (@decode_sequence ExactLog unit BaseBeamScorer 0 [] 0
     (GravesExample.decoder 1)).1 = Done [] ∧
  (@decode_sequence ExactLog unit BaseBeamScorer 0 [] 1
     (GravesExample.decoder 1)).1 = Done [([], 1%Q)] ∧
  (∀ n, ∃ c, (@decode_sequence ExactLog unit BaseBeamScorer 0 [] (S (S n))
                (GravesExample.decoder 1)).1 = Fatal c).
Proof.
  apply (@decode_empty_sequence ExactLog unit BaseBeamScorer []
           (GravesExample.decoder 1)).
  - reflexivity.
  - simpl. lia.
Defined.

(** At an example: the child of the label 0 takes the place of the root in
    a beam of width 1. *)
Lemma grow_child_evicts_bottom_witness :
  ∃ d', @grow_child ExactLog unit BaseBeamScorer
          (@remove_max ExactLog EvictionExample.row) 0 1
          EvictionExample.before_child = (Done tt, d') ∧
    TopN.elements (leaves_ d') = [1%nat] ∧
    (∀ e, beam_root_ d' !! 0%nat = Some e → newp e = BeamProbability.init).
Proof.
  destruct (@grow_child_evicts_bottom ExactLog unit BaseBeamScorer ExactLog_laws
              (@remove_max ExactLog EvictionExample.row) 0 1
              EvictionExample.before_child
              (mkBeamEntry None (-1) [1%nat]
                 (BeamProbability.mk ExactLog 1%Q 1%Q 0%Q)
                 (BeamProbability.mk ExactLog (3 # 7)%Q (3 # 7)%Q 0%Q) tt)
              (mkBeamEntry (Some 0%nat) 0 [] BeamProbability.init
                 BeamProbability.init tt)
              0%nat [])
    as (d' & Hrun & Hel & _ & Hbottom & _);
    try reflexivity.
  exists d'. split; [exact Hrun|]. split; [exact Hel|]. exact Hbottom.
Defined.

(** At an example: the paths of Graves's example, of length 2. *)
Lemma Decode_path_length_witness :
  ∃ outs d',
    @Decode ExactLog unit BaseBeamScorer [2%nat]
      [[GravesExample.P0]; [GravesExample.P1]] 2 (GravesExample.decoder 3)
    = (Done outs, d') ∧
    ∀ b out path score, outs !! b = Some out → (path, score) ∈ out →
      (length path ≤ nth b [2%nat] 0)%nat.
Proof.
  eexists _, _. split; [vm_compute; reflexivity|].
  intros b out path score Hout Hin.
  eapply (@Decode_path_length ExactLog unit BaseBeamScorer [2%nat]
            [[GravesExample.P0]; [GravesExample.P1]] 2
            (GravesExample.decoder 3)).
  - vm_compute. reflexivity.
  - exact Hout.
  - exact Hin.
Defined.

(** At an example: the best path of the readmission example after three
    [Step]s. *)
Lemma reachable_TopPaths_one_witness :
  ∃ b, b ∈ TopN.elements (leaves_ ReadmissionExample.d3) ∧
    @TopPaths ExactLog unit 1 false ReadmissionExample.d3 =
    (Done ([LabelSeq (beam_root_ ReadmissionExample.d3) b false],
           [key (beam_root_ ReadmissionExample.d3) b]),
     ReadmissionExample.d3).
Proof.
  apply (@reachable_TopPaths_one ExactLog unit BaseBeamScorer).
  exact readmission_reachable.
Defined.

(** At an example: [Decode] on Graves's example, asked for two paths. *)
Lemma Decode_shape_witness :
  ∃ outs d',
    @Decode ExactLog unit BaseBeamScorer [2%nat]
      [[GravesExample.P0]; [GravesExample.P1]] 2 (GravesExample.decoder 3)
    = (Done outs, d') ∧
    length outs = batch_size_ (GravesExample.decoder 3) ∧
    Forall (λ out, length out = 2%nat) outs.
Proof.
  eexists _, _. split; [vm_compute; reflexivity|].
  eapply (@Decode_shape ExactLog unit BaseBeamScorer [2%nat]
            [[GravesExample.P0]; [GravesExample.P1]] 2
            (GravesExample.decoder 3)).
  vm_compute. reflexivity.
Defined.

(** At an example: Graves's example decoded for the best path, with a beam
    of width 1. *)
Lemma Decode_best_path_returns_witness :
  ∃ outs d',
    @Decode ExactLog unit BaseBeamScorer [2%nat]
      [[GravesExample.P0]; [GravesExample.P1]] 1 (GravesExample.decoder 1)
    = (Done outs, d').
Proof.
  apply (@Decode_best_path_returns ExactLog unit BaseBeamScorer).
  - reflexivity.
  - simpl. lia.
  - intros b t Hb Ht. cbn in Hb. assert (b = 0%nat) as -> by lia.
    cbn in Ht. destruct t as [|[|t]]; [reflexivity|reflexivity|lia].
Defined.

Lemma FloatExample_laws : @LogArithLaws (Binary32 FloatExample.lse).
Proof. apply Binary32_laws. intros x. reflexivity. Qed.

(** At an example, on binary32: the two best of the three leaves after one
    [Step] on the log-probabilities -1, -2 and 0, whose totals are -1, -2
    and 0. *)
Lemma TopPaths_best_witness :
  let d := FloatExample.after_step in
  map (key (beam_root_ d)) (TopN.elements (leaves_ d)) =
    [S754_zero false; S754_finite true 8388608 (-23);
     S754_finite true 8388608 (-22)] ∧
  ∃ branches rest,
    @TopPaths (Binary32 FloatExample.lse) unit 2 false d =
    (Done (map (λ b, LabelSeq (beam_root_ d) b false) branches,
           map (key (beam_root_ d)) branches), d) ∧
    length branches = 2%nat ∧
    TopN.elements (leaves_ d) ≡ₚ branches ++ rest ∧
    ∀ x y, x ∈ rest → y ∈ branches →
      fgt (key (beam_root_ d) x) (key (beam_root_ d) y) = false.
Proof.
  cbv zeta. split; [vm_compute; reflexivity|].
  apply (@TopPaths_best (Binary32 FloatExample.lse) unit FloatExample_laws).
  - apply Binary32_keys_ranked. intros x Hx.
    assert (TopN.elements (leaves_ FloatExample.after_step)
            = [0%nat; 1%nat; 2%nat]) as Hel by (vm_compute; reflexivity).
    rewrite Hel in Hx. apply list_elem_of_In in Hx. simpl in Hx.
    destruct Hx as [<-|[<-|[<-|[]]]]; vm_compute; discriminate.
  - vm_compute. lia.
  - vm_compute. lia.
Defined.

(** ** Facts about the kernel registry *)

Section OpKernel_facts.
Import OpKernel.
Context `{Framework}.

(** *** MatchSignatureHelper *)

Lemma slice_mismatch_false (expected actual : list DataType) :
  length actual = length expected →
  slice_mismatch expected actual = false ↔
  Forall2 (λ e a, TypesCompatible e a = true) expected actual.
Proof.
  intros Hlen. unfold slice_mismatch. rewrite Forall2_same_length_lookup.
  split.
  - intros Hex. split; [congruence|]. intros i e a He Ha.
    destruct (TypesCompatible e a) eqn:Hc; [reflexivity|].
    assert (existsb (λ i, match expected !! i, actual !! i with
                          | Some e, Some a => negb (TypesCompatible e a)
                          | _, _ => false
                          end) (seq 0 (length actual)) = true) as Htrue.
    { apply existsb_exists. exists i. split.
      - apply in_seq. apply lookup_lt_Some in Ha. lia.
      - rewrite He, Ha, Hc. reflexivity. }
    congruence.
  - intros [_ Hall]. apply not_true_iff_false. intros Hex.
    apply existsb_exists in Hex as (i & _ & Hi).
    destruct (expected !! i) as [e|] eqn:He; [|discriminate].
    destruct (actual !! i) as [a|] eqn:Ha; [|discriminate].
    rewrite (Hall i e a He Ha) in Hi. discriminate.
Qed.

(** X14: [MatchSignatureHelper] returns OK exactly when the input types and the
    output types have the expected lengths and are compatible with the
    expected types position by position; any other result is an
    invalid-argument error. *)
Theorem MatchSignatureHelper_OK (expected_inputs expected_outputs
    inputs outputs : list DataType) :
  (MatchSignatureHelper expected_inputs expected_outputs inputs outputs = OK ↔
   Forall2 (λ e a, TypesCompatible e a = true) expected_inputs inputs ∧
   Forall2 (λ e a, TypesCompatible e a = true) expected_outputs outputs) ∧
  (MatchSignatureHelper expected_inputs expected_outputs inputs outputs = OK ∨
   ∃ message,
     MatchSignatureHelper expected_inputs expected_outputs inputs outputs
     = Error INVALID_ARGUMENT message).
Proof.
  unfold MatchSignatureHelper. cbv zeta.
  destruct (Nat.eqb_spec (length inputs) (length expected_inputs)) as [Hi|Hi];
    destruct (Nat.eqb_spec (length outputs) (length expected_outputs)) as [Ho|Ho];
    cbn [negb orb];
    destruct (slice_mismatch expected_inputs inputs) eqn:Hsi;
    destruct (slice_mismatch expected_outputs outputs) eqn:Hso; cbn [orb];
    try (split; [split; [discriminate|]|right; eexists; reflexivity];
         intros [Hfi Hfo];
         pose proof (Forall2_length _ _ _ Hfi);
         pose proof (Forall2_length _ _ _ Hfo);
         try congruence;
         try (apply (slice_mismatch_false _ _ Hi) in Hfi; congruence);
         try (apply (slice_mismatch_false _ _ Ho) in Hfo; congruence)).
  split; [|left; reflexivity]. split; [intros _|reflexivity].
  split; apply slice_mismatch_false; assumption.
Qed.

(** *** AttrsMatch *)

Lemma InTypeList_elem (dt : DataType) (type_list : AttrValue) :
  InTypeList dt type_list = true ↔ dt ∈ AttrValue_list_type type_list.
Proof.
  unfold InTypeList. rewrite existsb_exists, list_elem_of_In. split.
  - intros (x & Hx & Heq). apply Z.eqb_eq in Heq. subst x. exact Hx.
  - intros Hin. exists dt. split; [exact Hin|apply Z.eqb_refl].
Qed.

Lemma AttrsMatch_loop_true node_def kernel_def constraints :
  AttrsMatch_loop node_def kernel_def constraints = (OK, true) ↔
  Forall (constraint_satisfied node_def) constraints.
Proof.
  induction constraints as [|c rest IH]; cbn [AttrsMatch_loop].
  { split; [constructor|reflexivity]. }
  cbv zeta. rewrite Forall_cons. unfold constraint_satisfied at 1. cbv zeta.
  set (allowed := AttrConstraint_allowed_values c).
  assert (∀ t, InTypeList t allowed = true ↔ t ∈ AttrValue_list_type allowed)
    as Hin by (intros t; apply InTypeList_elem).
  destruct (Nat.eqb_spec (length (AttrValue_list_type allowed)) 0) as [Hlen|Hlen].
  { split; [discriminate|]. intros [[Hne _] _].
    destruct (AttrValue_list_type allowed); [congruence|discriminate]. }
  assert (AttrValue_list_type allowed ≠ []) as Hne
    by (intros Hnil; rewrite Hnil in Hlen; contradiction).
  destruct (AttrSlice_Find node_def (AttrConstraint_name c)) as [found|];
    [|split; [discriminate|]; intros [(_ & found & Hf & _) _]; discriminate].
  destruct (Z.eqb_spec (AttrValue_type found) DT_INVALID) as [Hinv|Hinv];
    cbn [negb].
  - destruct (ok (AttrValueHasType found "list(type)")) eqn:Hok; cbn [negb].
    + destruct (forallb _ _) eqn:Hall.
      * rewrite IH. split; [|tauto]. intros Hrest. split; [|exact Hrest].
        split; [exact Hne|]. exists found. split; [reflexivity|].
        destruct (decide _) as [_|?]; [|contradiction].
        split; [exact Hok|]. intros t Ht.
        rewrite forallb_forall in Hall.
        apply Hin, Hall, list_elem_of_In, Ht.
      * split; [discriminate|].
        intros [(_ & found' & [= <-] & Hsat) _].
        destruct (decide _) as [_|?]; [|contradiction].
        destruct Hsat as [_ Hsat].
        assert (forallb (λ t, InTypeList t allowed) (AttrValue_list_type found)
                = true) as Htrue; [|congruence].
        apply forallb_forall. intros t Ht.
        apply Hin, Hsat, list_elem_of_In, Ht.
    + split; [discriminate|].
      intros [(_ & found' & [= <-] & Hsat) _].
      destruct (decide _) as [_|?]; [|contradiction].
      destruct Hsat as [Hsat _]. congruence.
  - destruct (InTypeList (AttrValue_type found) allowed) eqn:Hfound; cbn [negb].
    + rewrite IH. split; [|tauto]. intros Hrest. split; [|exact Hrest].
      split; [exact Hne|]. exists found. split; [reflexivity|].
      destruct (decide _) as [?|_]; [contradiction|].
      apply Hin, Hfound.
    + split; [discriminate|].
      intros [(_ & found' & [= <-] & Hsat) _].
      destruct (decide _) as [?|_]; [contradiction|].
      apply Hin in Hsat. congruence.
Qed.

Lemma AttrsMatch_loop_match_OK node_def kernel_def constraints :
  (AttrsMatch_loop node_def kernel_def constraints).2 = true →
  (AttrsMatch_loop node_def kernel_def constraints).1 = OK.
Proof.
  induction constraints as [|c rest IH]; cbn [AttrsMatch_loop]; [reflexivity|].
  cbv zeta. destruct (_ =? _)%nat; [discriminate|].
  destruct (AttrSlice_Find _ _) as [found|]; [|discriminate].
  destruct (negb (AttrValue_type found =? DT_INVALID)).
  - destruct (negb _); [discriminate|exact IH].
  - destruct (negb _); [discriminate|].
    destruct (forallb _ _); [exact IH|discriminate].
Qed.

(** X15: [AttrsMatch] reports a match together with OK only, and exactly when
    every constraint of the kernel is satisfied by the attributes of the
    node: the list of allowed types is not empty, the attribute is in the
    node, and its type, or every type of its list, is allowed. *)
Theorem AttrsMatch_match node_def kernel_def :
  (AttrsMatch node_def kernel_def = (OK, true) ↔
   Forall (constraint_satisfied node_def) (KernelDef_constraint kernel_def)) ∧
  ((AttrsMatch node_def kernel_def).2 = true ↔
   AttrsMatch node_def kernel_def = (OK, true)).
Proof.
  split; [apply AttrsMatch_loop_true|]. unfold AttrsMatch. split.
  - intros Hm. pose proof (AttrsMatch_loop_match_OK _ _ _ Hm) as Hs.
    destruct (AttrsMatch_loop _ _ _) as [s m]. cbn in Hm, Hs. congruence.
  - intros ->. reflexivity.
Qed.

(** *** FindKernelRegistration *)

Lemma FindKernelRegistration_loop_OK node_def regs reg res :
  FindKernelRegistration_loop node_def regs reg = (OK, res) ↔
  Forall (λ r, ok (AttrsMatch node_def (def r)).1 = true) regs ∧
  match reg with
  | None =>
    (List.filter (matches node_def) regs = [] ∧ res = None) ∨
    (∃ r, List.filter (matches node_def) regs = [r] ∧ res = Some r)
  | Some r0 => List.filter (matches node_def) regs = [] ∧ res = Some r0
  end.
Proof.
  revert reg res. induction regs as [|r rest IH]; intros reg res;
    cbn [FindKernelRegistration_loop List.filter].
  - split.
    + intros [= <-]. split; [constructor|]. destruct reg; auto.
    + intros [_ Hres]. destruct reg as [r0|].
      * destruct Hres as [_ ->]. reflexivity.
      * destruct Hres as [[_ ->]|(r & Hr & _)]; [reflexivity|discriminate].
  - rewrite Forall_cons.
    assert (matches node_def r = (AttrsMatch node_def (def r)).2) as ->
      by reflexivity.
    destruct (AttrsMatch node_def (def r)) as [[|code message] m];
      cbn [fst snd ok].
    + destruct m.
      * destruct reg as [r0|].
        -- split; [discriminate|]. intros [_ [Hnil _]]. discriminate.
        -- rewrite IH. split.
           ++ intros [Hall [Hnil ->]]. split; [auto|]. right. exists r.
              rewrite Hnil. auto.
           ++ intros [[_ Hall] [[Hnil _]|(r' & Hr' & ->)]]; [discriminate|].
              injection Hr' as -> Hnil. auto.
      * rewrite IH. tauto.
    + split; [discriminate|]. intros [[Hok _] _]. discriminate.
Qed.

(** X16: [FindKernelRegistration] returns OK exactly when [AttrsMatch] fails
    for no registration of the key of the node and at most one of them
    matches; the result is then the one that matches, or none. *)
Theorem FindKernelRegistration_OK registry device_type node_def res :
  let regs :=
    equal_range (Key (NodeDef_op node_def) device_type
                   (default "" (GetNodeAttr node_def "_kernel"))) registry in
  FindKernelRegistration registry device_type node_def = (OK, res) ↔
  Forall (λ r, ok (AttrsMatch node_def (def r)).1 = true) regs ∧
  ((List.filter (matches node_def) regs = [] ∧ res = None) ∨
   (∃ r, List.filter (matches node_def) regs = [r] ∧ res = Some r)).
Proof. intros regs. apply FindKernelRegistration_loop_OK. Qed.

Lemma filter_Permutation_list {A} (f : A → bool) (l l' : list A) :
  l ≡ₚ l' → List.filter f l ≡ₚ List.filter f l'.
Proof.
  induction 1 as [|x l l' _ IH|x y l|l l' l'' _ IH1 _ IH2]; cbn [List.filter].
  - reflexivity.
  - destruct (f x); [constructor|]; exact IH.
  - destruct (f x), (f y); try reflexivity. constructor.
  - etransitivity; eassumption.
Qed.

Lemma equal_range_Permutation key (registry registry' : KernelRegistry) :
  registry ≡ₚ registry' → equal_range key registry ≡ₚ equal_range key registry'.
Proof.
  intros Hp. unfold equal_range. apply Permutation_map, filter_Permutation_list, Hp.
Qed.

(** X17: the order in which the registry holds its registrations does not
    matter to a lookup that returns OK: it returns OK, with the same
    registration, on every registry with the same registrations. *)
Theorem FindKernelRegistration_order registry registry' device_type node_def res :
  registry ≡ₚ registry' →
  FindKernelRegistration registry device_type node_def = (OK, res) →
  FindKernelRegistration registry' device_type node_def = (OK, res).
Proof.
  intros Hp. unfold FindKernelRegistration. cbv zeta.
  rewrite !FindKernelRegistration_loop_OK.
  set (key := Key _ _ _).
  pose proof (equal_range_Permutation key _ _ Hp) as Hr.
  pose proof (filter_Permutation_list (matches node_def) _ _ Hr) as Hf.
  intros [Hall Hres]. split; [rewrite <- Hr; exact Hall|].
  destruct Hres as [[Hnil ->]|(r & Hone & ->)].
  - left. split; [|reflexivity]. rewrite Hnil in Hf.
    apply Permutation_nil_l in Hf. symmetry. exact Hf.
  - right. exists r. split; [|reflexivity]. rewrite Hone in Hf.
    apply Permutation_singleton_l in Hf. symmetry. exact Hf.
Qed.


Lemma AttrsMatch_loop_code node_def kernel_def constraints message :
  (AttrsMatch_loop node_def kernel_def constraints).1 ≠ Error NOT_FOUND message.
Proof.
  induction constraints as [|c rest IH]; cbn [AttrsMatch_loop]; [discriminate|].
  cbv zeta. destruct (_ =? _)%nat; [discriminate|].
  destruct (AttrSlice_Find _ _) as [found|]; [|discriminate].
  destruct (negb (AttrValue_type found =? DT_INVALID)).
  - destruct (negb _); [discriminate|exact IH].
  - destruct (negb _); [discriminate|].
    destruct (forallb _ _); [exact IH|discriminate].
Qed.

Lemma FindKernelRegistration_loop_code node_def regs reg message :
  (FindKernelRegistration_loop node_def regs reg).1 ≠ Error NOT_FOUND message.
Proof.
  revert reg. induction regs as [|r rest IH]; intros reg;
    cbn [FindKernelRegistration_loop]; [discriminate|].
  pose proof (AttrsMatch_loop_code node_def (def r)
                (KernelDef_constraint (def r)) message) as Hc.
  fold (AttrsMatch node_def (def r)) in Hc.
  destruct (AttrsMatch node_def (def r)) as [[|code msg] [|]]; cbn [fst] in *;
    try exact Hc; [|apply IH].
  destruct reg; [discriminate|apply IH].
Qed.

(** X18: [FindKernelDef] returns the definition and the class name of the one
    registration that matches, when [AttrsMatch] fails for none; it returns
    a not-found error exactly when [AttrsMatch] fails for none and no
    registration matches. *)
Theorem FindKernelDef_found registry device_type node_def :
  let regs :=
    equal_range (Key (NodeDef_op node_def) device_type
                   (default "" (GetNodeAttr node_def "_kernel"))) registry in
  (∀ kernel_def class_name,
     FindKernelDef registry device_type node_def
     = (OK, Some (kernel_def, class_name)) ↔
     Forall (λ r, ok (AttrsMatch node_def (def r)).1 = true) regs ∧
     ∃ r, List.filter (matches node_def) regs = [r] ∧
       kernel_def = def r ∧ class_name = kernel_class_name r) ∧
  ((∃ message, FindKernelDef registry device_type node_def
               = (Error NOT_FOUND message, None)) ↔
   Forall (λ r, ok (AttrsMatch node_def (def r)).1 = true) regs ∧
   List.filter (matches node_def) regs = []).
Proof.
  intros regs. unfold FindKernelDef, FindKernelRegistration. cbv zeta.
  fold regs.
  pose proof (FindKernelRegistration_loop_OK node_def regs None) as Hloop.
  pose proof (FindKernelRegistration_loop_code node_def regs None) as Hcode.
  destruct (FindKernelRegistration_loop node_def regs None)
    as [[|code message] [reg|]]; cbn [fst] in Hcode.
  - destruct (Hloop (Some reg)) as [[Hall Hres] _]; [reflexivity|].
    destruct Hres as [[_ [=]]|(r & Hone & [= ->])].
    split.
    + intros kernel_def class_name. split.
      * intros [= <- <-]. eauto 6.
      * intros (_ & r' & Hone' & -> & ->). rewrite Hone in Hone'.
        injection Hone' as <-. reflexivity.
    + split; [intros [message [=]]|]. intros [_ Hnil]. congruence.
  - destruct (Hloop None) as [[Hall Hres] _]; [reflexivity|].
    destruct Hres as [[Hnil _]|(r & _ & [=])].
    split.
    + intros kernel_def class_name. split; [discriminate|].
      intros (_ & r & Hone & _). congruence.
    + split; [auto|]. intros _. eexists. reflexivity.
  - split.
    + intros kernel_def class_name. split; [discriminate|].
      intros (Hall & r & Hone & _).
      assert ((Error code message, Some reg) = (OK, Some r)) as [=].
      apply (Hloop (Some r)). split; [exact Hall|]. right. eauto.
    + split.
      * intros [message' [= -> _]]. destruct (Hcode message eq_refl).
      * intros [Hall Hnil].
        assert ((Error code message, Some reg) = (OK, None)) as [=].
        apply (Hloop None). split; [exact Hall|]. left. auto.
  - split.
    + intros kernel_def class_name. split; [discriminate|].
      intros (Hall & r & Hone & _).
      assert ((Error code message, @None KernelRegistration) = (OK, Some r))
        as [=].
      apply (Hloop (Some r)). split; [exact Hall|]. right. eauto.
    + split.
      * intros [message' [= -> _]]. destruct (Hcode message eq_refl).
      * intros [Hall Hnil].
        assert ((Error code message, @None KernelRegistration) = (OK, None))
          as [=].
        apply (Hloop None). split; [exact Hall|]. left. auto.
Qed.

(** *** Registration *)

Lemma equal_range_app key (registry registry' : KernelRegistry) :
  equal_range key (registry ++ registry') =
  equal_range key registry ++ equal_range key registry'.
Proof. unfold equal_range. rewrite List.filter_app, map_app. reflexivity. Qed.

Lemma FindKernelRegistration_loop_app node_def regs regs' reg :
  FindKernelRegistration_loop node_def (regs ++ regs') reg =
  match FindKernelRegistration_loop node_def regs reg with
  | (OK, reg') => FindKernelRegistration_loop node_def regs' reg'
  | failed => failed
  end.
Proof.
  revert reg. induction regs as [|r rest IH]; intros reg;
    cbn [app FindKernelRegistration_loop]; [reflexivity|].
  destruct (AttrsMatch node_def (def r)) as [[|code message] [|]];
    try reflexivity; [|apply IH].
  destruct reg; [reflexivity|apply IH].
Qed.

(** X19: registering a kernel under another key than the one of a lookup does
    not change the lookup. *)
Theorem InitInternal_other_key registry kernel_def kernel_class_name factory
    device_type node_def :
  Key (KernelDef_op kernel_def)
    (DeviceType_of_string (KernelDef_device_type kernel_def))
    (KernelDef_label kernel_def) ≠
  Key (NodeDef_op node_def) device_type
    (default "" (GetNodeAttr node_def "_kernel")) →
  FindKernelRegistration
    (InitInternal kernel_def kernel_class_name factory registry)
    device_type node_def =
  FindKernelRegistration registry device_type node_def.
Proof.
  intros Hne. unfold FindKernelRegistration, InitInternal. cbv zeta.
  rewrite equal_range_app. unfold equal_range at 2. cbn [List.filter fst].
  apply String.eqb_neq in Hne. rewrite Hne. cbn [map]. rewrite app_nil_r.
  reflexivity.
Qed.

(** X20: a kernel registered under the key of a node whose attributes it
    matches is what the lookup returns, when the lookup found nothing
    before; registered a second time, it makes the lookup fail with an
    invalid-argument error: a double registration is reported at lookup. *)
Theorem InitInternal_then_find registry kernel_def kernel_class_name factory
    device_type node_def :
  Key (KernelDef_op kernel_def)
    (DeviceType_of_string (KernelDef_device_type kernel_def))
    (KernelDef_label kernel_def) =
  Key (NodeDef_op node_def) device_type
    (default "" (GetNodeAttr node_def "_kernel")) →
  AttrsMatch node_def kernel_def = (OK, true) →
  FindKernelRegistration registry device_type node_def = (OK, None) →
  let registry1 := InitInternal kernel_def kernel_class_name factory registry in
  let registry2 := InitInternal kernel_def kernel_class_name factory registry1 in
  let reg := mkKernelRegistration kernel_def kernel_class_name factory in
  FindKernelRegistration registry1 device_type node_def = (OK, Some reg) ∧
  ∃ message,
    FindKernelRegistration registry2 device_type node_def
    = (Error INVALID_ARGUMENT message, Some reg).
Proof.
  intros Hkey Hmatch Hnone registry1 registry2 reg.
  unfold FindKernelRegistration in *. cbv zeta in *.
  set (key := Key (NodeDef_op node_def) _ _) in *.
  assert (equal_range key registry1 = equal_range key registry ++ [reg]) as H1.
  { unfold registry1, InitInternal. cbv zeta. rewrite equal_range_app, Hkey.
    unfold equal_range at 2. cbn [List.filter fst]. rewrite String.eqb_refl.
    reflexivity. }
  assert (equal_range key registry2 = equal_range key registry ++ [reg; reg])
    as H2.
  { unfold registry2, InitInternal. cbv zeta. rewrite equal_range_app, Hkey.
    fold registry1. rewrite H1. unfold equal_range at 2.
    cbn [List.filter fst]. rewrite String.eqb_refl. cbn [map snd].
    rewrite <- app_assoc. reflexivity. }
  rewrite H1, H2, !FindKernelRegistration_loop_app, Hnone.
  cbn [FindKernelRegistration_loop def reg]. rewrite Hmatch.
  split; [reflexivity|]. eexists. reflexivity.
Qed.

(** *** Keys *)

Lemma append_colon_inj (a a' r r' : string) :
  colon_free a = true → colon_free a' = true →
  a +:+ String colon r = a' +:+ String colon r' → a = a' ∧ r = r'.
Proof.
  revert a'. induction a as [|c a IH]; intros [|c' a']; cbn [colon_free];
    intros Ha Ha'.
  - intros [= <-]. auto.
  - intros [= <- _]. rewrite Ascii.eqb_refl in Ha'. discriminate.
  - intros [= -> _]. rewrite Ascii.eqb_refl in Ha. discriminate.
  - apply andb_true_iff in Ha as [_ Ha]. apply andb_true_iff in Ha' as [_ Ha'].
    intros [= <- Heq]. destruct (IH a' Ha Ha' Heq) as [-> ->]. auto.
Qed.

(** X21: two keys are equal only if they are built from the same op, the same
    device type string and the same label, as long as no colon occurs in
    the op names and in the device type strings. *)
Theorem Key_injective op_type device_type label op_type' device_type' label' :
  colon_free op_type = true → colon_free op_type' = true →
  colon_free (DeviceTypeString device_type) = true →
  colon_free (DeviceTypeString device_type') = true →
  Key op_type device_type label = Key op_type' device_type' label' →
  op_type = op_type' ∧
  DeviceTypeString device_type = DeviceTypeString device_type' ∧
  label = label'.
Proof.
  intros Ho Ho' Hd Hd'. unfold Key.
  change ":" with (String colon "").
  change (String colon "" +:+ ?s) with (String colon s).
  intros Heq. apply append_colon_inj in Heq as [-> Heq]; [|assumption..].
  change (String colon "" +:+ label) with (String colon label) in Heq.
  change (String colon "" +:+ label') with (String colon label') in Heq.
  apply append_colon_inj in Heq as [-> ->]; auto.
Qed.

(** *** SupportedDeviceTypesForNode *)

Lemma SupportedDeviceTypes_loop_OK registry def prioritized_types device_types
    out :
  SupportedDeviceTypes_loop registry def prioritized_types device_types
  = (OK, out) ↔
  Forall (λ device_type,
            ok (FindKernelRegistration registry device_type def).1 = true)
    prioritized_types ∧
  out = device_types ++ List.filter (has_kernel registry def) prioritized_types.
Proof.
  revert device_types.
  induction prioritized_types as [|device_type rest IH]; intros device_types;
    cbn [SupportedDeviceTypes_loop List.filter].
  - rewrite app_nil_r. split.
    + intros [= <-]. split; [constructor|reflexivity].
    + intros [_ ->]. reflexivity.
  - rewrite Forall_cons. unfold has_kernel at 1.
    destruct (FindKernelRegistration registry device_type def)
      as [[|code message] [reg|]]; cbn [fst ok].
    + rewrite IH, <- app_assoc. cbn [app]. tauto.
    + rewrite IH. tauto.
    + split; [discriminate|]. intros [[? _] _]. discriminate.
    + split; [discriminate|]. intros [[? _] _]. discriminate.
Qed.

(** X22: for an op that the op registry does not know,
    [SupportedDeviceTypesForNode] adds every prioritized type; for one it
    knows, it returns OK exactly when no lookup fails, and then adds the
    types for which a kernel is found, in the order of their priority. *)
Theorem SupportedDeviceTypesForNode_OK registry prioritized_types def
    device_types :
  (OpRegistry_Global_LookUp (NodeDef_op def) = None →
   SupportedDeviceTypesForNode registry prioritized_types def device_types
   = (OK, device_types ++ prioritized_types)) ∧
  (OpRegistry_Global_LookUp (NodeDef_op def) ≠ None →
   ∀ out,
     SupportedDeviceTypesForNode registry prioritized_types def device_types
     = (OK, out) ↔
     Forall (λ device_type,
               ok (FindKernelRegistration registry device_type def).1 = true)
       prioritized_types ∧
     out = device_types ++
           List.filter (has_kernel registry def) prioritized_types).
Proof.
  unfold SupportedDeviceTypesForNode.
  destruct (OpRegistry_Global_LookUp (NodeDef_op def)) as [op_def|].
  - split; [discriminate|]. intros _ out. apply SupportedDeviceTypes_loop_OK.
  - split; [reflexivity|]. intros Hne. contradiction.
Qed.

(** *** ValidateKernelRegistrations *)

Lemma FindArgInOp_elem arg_name (args : list ArgDef) :
  FindArgInOp arg_name args = true ↔ arg_name ∈ map ArgDef_name args.
Proof.
  unfold FindArgInOp. rewrite existsb_exists, list_elem_of_In, in_map_iff.
  split.
  - intros (arg & Hin & Heq). apply String.eqb_eq in Heq. eauto.
  - intros (arg & Heq & Hin). exists arg. split; [exact Hin|].
    apply String.eqb_eq. auto.
Qed.

(** X23: [ValidateKernelRegistrations] returns OK exactly when, for every
    registration whose op the op registry knows, every host-memory argument
    of the kernel is the name of an input or of an output argument of the
    op; registrations for unknown ops are passed over; any other result is
    an invalid-argument error. *)
Theorem ValidateKernelRegistrations_OK (op_registry : string → option OpDef)
    (registry : KernelRegistry) :
  (ValidateKernelRegistrations op_registry registry = OK ↔
   ∀ key reg op_def host_memory_arg,
     (key, reg) ∈ registry →
     op_registry (KernelDef_op (def reg)) = Some op_def →
     host_memory_arg ∈ KernelDef_host_memory_arg (def reg) →
     host_memory_arg ∈ map ArgDef_name (OpDef_input_arg op_def) ∨
     host_memory_arg ∈ map ArgDef_name (OpDef_output_arg op_def)) ∧
  (ValidateKernelRegistrations op_registry registry = OK ∨
   ∃ message,
     ValidateKernelRegistrations op_registry registry
     = Error INVALID_ARGUMENT message).
Proof.
  induction registry as [|[key0 reg0] rest [IH1 IH2]];
    cbn [ValidateKernelRegistrations snd].
  { split; [|left; reflexivity]. split; [|reflexivity].
    intros _ key reg op_def a Hin. apply elem_of_nil in Hin as []. }
  cbv zeta.
  destruct (op_registry (KernelDef_op (def reg0))) as [op_def0|] eqn:Hop.
  - destruct (List.find _ _) as [bad|] eqn:Hfind.
    + split; [|right; eexists; reflexivity]. split; [discriminate|].
      intros Hall. apply find_some in Hfind as [Hin Hbad].
      apply andb_true_iff in Hbad as [Hi Ho].
      apply negb_true_iff in Hi, Ho.
      destruct (Hall key0 reg0 op_def0 bad) as [Hf|Hf];
        [apply list_elem_of_here|exact Hop|apply list_elem_of_In, Hin| |];
        apply FindArgInOp_elem in Hf; congruence.
    + split; [|exact IH2]. rewrite IH1. split.
      * intros Hall key reg op_def a Hin Hreg Ha.
        apply elem_of_cons in Hin as [[= -> ->]|Hin];
          [|apply (Hall key reg op_def a Hin Hreg Ha)].
        rewrite Hop in Hreg. injection Hreg as <-.
        pose proof (find_none _ _ Hfind a) as Hnone.
        rewrite <- list_elem_of_In in Hnone. specialize (Hnone Ha).
        apply andb_false_iff in Hnone as [Hn|Hn];
          apply negb_false_iff, FindArgInOp_elem in Hn; auto.
      * intros Hall key reg op_def a Hin.
        apply (Hall key). apply list_elem_of_further, Hin.
  - split; [|exact IH2]. rewrite IH1. split.
    + intros Hall key reg op_def a Hin Hreg Ha.
      apply elem_of_cons in Hin as [[= -> ->]|Hin];
        [congruence|apply (Hall key reg op_def a Hin Hreg Ha)].
    + intros Hall key reg op_def a Hin.
      apply (Hall key). apply list_elem_of_further, Hin.
Qed.

End OpKernel_facts.

(** ** The registry example, evaluated *)

(** At an example: the two CPU kernels registered in the other order. *)
Lemma FindKernelRegistration_order_witness :
  @OpKernel.FindKernelRegistration RegistryExample.framework
    (@OpKernel.InitInternal RegistryExample.framework
       RegistryExample.matmul_float_cpu "MatMulOp<float>" tt
       (@OpKernel.InitInternal RegistryExample.framework
          RegistryExample.matmul_double_cpu "MatMulOp<double>" tt []))
    "CPU" RegistryExample.node =
  (OpKernel.OK,
   Some (@OpKernel.mkKernelRegistration RegistryExample.framework
           RegistryExample.matmul_float_cpu "MatMulOp<float>" tt)).
Proof.
  apply (@FindKernelRegistration_order RegistryExample.framework
           RegistryExample.registry).
  - apply perm_swap.
  - vm_compute. reflexivity.
Defined.

(** At an example: the registration of the GPU kernel does not change the
    lookup on the CPU. *)
Lemma InitInternal_other_key_witness :
  @OpKernel.FindKernelRegistration RegistryExample.framework
    (@OpKernel.InitInternal RegistryExample.framework
       RegistryExample.matmul_float_gpu "MatMulOp<float>" tt
       RegistryExample.registry)
    "CPU" RegistryExample.node =
  @OpKernel.FindKernelRegistration RegistryExample.framework
    RegistryExample.registry "CPU" RegistryExample.node.
Proof.
  apply (@InitInternal_other_key RegistryExample.framework).
  vm_compute. discriminate.
Defined.

(** At an example: the GPU kernel registered once and twice. *)
Lemma InitInternal_then_find_witness :
  let reg := @OpKernel.mkKernelRegistration RegistryExample.framework
               RegistryExample.matmul_float_gpu "MatMulOp<float>" tt in
  let registry1 :=
    @OpKernel.InitInternal RegistryExample.framework
      RegistryExample.matmul_float_gpu "MatMulOp<float>" tt
      RegistryExample.registry in
  let registry2 :=
    @OpKernel.InitInternal RegistryExample.framework
      RegistryExample.matmul_float_gpu "MatMulOp<float>" tt registry1 in
  @OpKernel.FindKernelRegistration RegistryExample.framework registry1
    "GPU" RegistryExample.node = (OpKernel.OK, Some reg) ∧
  ∃ message,
    @OpKernel.FindKernelRegistration RegistryExample.framework registry2
      "GPU" RegistryExample.node
    = (OpKernel.Error OpKernel.INVALID_ARGUMENT message, Some reg).
Proof.
  apply (@InitInternal_then_find RegistryExample.framework
           RegistryExample.registry RegistryExample.matmul_float_gpu
           "MatMulOp<float>" tt "GPU" RegistryExample.node).
  - reflexivity.
  - reflexivity.
  - reflexivity.
Defined.

(** At an example: the keys of the two CPU kernels. *)
Lemma Key_injective_witness :
  "MatMul" = "MatMul" ∧
  @OpKernel.DeviceTypeString RegistryExample.framework "CPU" =
  @OpKernel.DeviceTypeString RegistryExample.framework "CPU" ∧
  "" = "".
Proof.
  apply (@Key_injective RegistryExample.framework "MatMul" "CPU" "" "MatMul"
           "CPU" ""); reflexivity.
Defined.
